(** * A shallow embedding of the crawler core of mylinovel

    The development follows three source files:

    - [src/crawler/downloader.py]: class [Downloader], the pacing,
      retrying HTTP fetcher;
    - [src/crawler/special_chapter_resolver.py]: the walk along
      [nextpage] pointers that recovers the address hidden behind a
      [javascript:cid(0)] catalogue entry, and the pass over the book
      structure that applies it to every flagged chapter;
    - [src/crawler/catalog_parser.py]: the first steps of
      [parse_catalog] and the loop of [_extract_volumes].

    Conventions of the embedding.

    - Python [str] values are [string]s: a text is held as the bytes of
      its UTF-8 encoding, so that a character below 128 is itself and
      any other character is a run of bytes from 128 up.  The character
      classes ([\d], [\s], [str.isspace]) and [str.lower] are given as
      Python has them on the characters below 128; a statement that
      depends on what they do on other characters carries the
      hypothesis that the text is plain ASCII.
    - Python [float] durations and timestamps are exact rationals [Q].
    - Python [int]s are [Z].
    - Code that has effects (the clock, the random generator, the
      network, [print], in-place updates of the book dictionary) is
      written in a state-and-exception monad whose state survives a
      raised exception, as the Python heap does.
    - What lives outside the repository is a parameter: [urljoin], the
      HTML parser behind [BeautifulSoup], the network, the codecs. *)

From Stdlib Require Import List Finite ZArith QArith Bool Ascii String Lia Lqa.
Import ListNotations.

Local Open Scope string_scope.
Local Open Scope Z_scope.
Local Open Scope list_scope.

(* ===================================================================== *)
(** * Python strings *)
(* ===================================================================== *)

(** [s.startswith(p)] *)
Definition startswith (s p : string) : bool := String.prefix p s.

(** [needle in hay] for two strings. *)
Fixpoint contains (needle hay : string) : bool :=
  String.prefix needle hay
  || match hay with
     | EmptyString => false
     | String _ hay' => contains needle hay'
     end.

Definition is_upper (c : ascii) : bool :=
  let n := nat_of_ascii c in (65 <=? n)%nat && (n <=? 90)%nat.

Definition lower_ascii (c : ascii) : ascii :=
  if is_upper c then ascii_of_nat (nat_of_ascii c + 32) else c.

(** [s.lower()] *)
Fixpoint lower (s : string) : string :=
  match s with
  | EmptyString => EmptyString
  | String c s' => String (lower_ascii c) (lower s')
  end.

(** The characters [str.isspace] and the class [\s] accept below 128:
    tab, line feed, vertical tab, form feed, carriage return, the four
    separators 28..31, and the space. *)
Definition is_space (c : ascii) : bool :=
  let n := nat_of_ascii c in
  ((9 <=? n)%nat && (n <=? 13)%nat) || ((28 <=? n)%nat && (n <=? 32)%nat).

(** The class [\d] below 128. *)
Definition is_digit (c : ascii) : bool :=
  let n := nat_of_ascii c in (48 <=? n)%nat && (n <=? 57)%nat.

Fixpoint lstrip (s : string) : string :=
  match s with
  | String c s' => if is_space c then lstrip s' else s
  | EmptyString => EmptyString
  end.

Definition string_rev (s : string) : string :=
  string_of_list_ascii (rev (list_ascii_of_string s)).

(** [s.strip()] *)
Definition strip (s : string) : string :=
  string_rev (lstrip (string_rev (lstrip s))).

(** A byte that continues a character of more than one byte. *)
Definition is_continuation (c : ascii) : bool :=
  let n := nat_of_ascii c in (128 <=? n)%nat && (n <? 192)%nat.

(** [len(s)]: the number of characters of the text, that is, of the
    bytes that start one. *)
Fixpoint py_len (s : string) : nat :=
  match s with
  | EmptyString => 0
  | String c s' => ((if is_continuation c then 0 else 1) + py_len s')%nat
  end.

(** [sep.join(parts)] *)
Definition join (sep : string) (parts : list string) : string :=
  String.concat sep parts.

(** The value of a run of decimal digits, most significant first, in
    which single underscores may separate digits; [after_digit] tells
    whether the character before was a digit.  [None] when the text is
    not of that form. *)
Fixpoint digits_value (after_digit : bool) (acc : Z) (s : string) : option Z :=
  match s with
  | EmptyString => if after_digit then Some acc else None
  | String c s' =>
      if is_digit c
      then digits_value true (10 * acc + (Z.of_nat (nat_of_ascii c) - 48)) s'
      else if Ascii.eqb c "_" && after_digit
           then match s' with
                | String c' _ => if is_digit c' then digits_value false acc s' else None
                | EmptyString => None
                end
           else None
  end.

(** The blanks [int] skips around a number written with characters
    below 128: tab, line feed, vertical tab, form feed, carriage
    return and the space (the separators 28..31 are not among them). *)
Definition is_c_space (c : ascii) : bool :=
  let n := nat_of_ascii c in
  ((9 <=? n)%nat && (n <=? 13)%nat) || (n =? 32)%nat.

Fixpoint c_lstrip (s : string) : string :=
  match s with
  | String c s' => if is_c_space c then c_lstrip s' else s
  | EmptyString => EmptyString
  end.

Definition c_strip (s : string) : string :=
  string_rev (c_lstrip (string_rev (c_lstrip s))).

(** [int(s)] on a string of characters below 128: the blanks around
    are dropped, one sign is allowed, then decimal digits.  [None]
    stands for the [ValueError] Python raises. *)
Definition py_int (s : string) : option Z :=
  match c_strip s with
  | String "-" r => option_map Z.opp (digits_value false 0 r)
  | String "+" r => digits_value false 0 r
  | r => digits_value false 0 r
  end.

(* ===================================================================== *)
(** * A backtracking matcher for the two patterns of the resolver *)
(* ===================================================================== *)

(** The fragment of [re] syntax the module uses: literals, greedy
    repetition of a character class, one level of capturing groups, a
    greedy optional non-capturing group, and concatenation. *)
Inductive regex : Type :=
| Lit (s : string)
| Plus (c : ascii -> bool)
| Star (c : ascii -> bool)
| Group (r : regex)
| Opt (r : regex)
| Seq (r1 r2 : regex).

(** [strip_prefix p s] is what follows [p] at the head of [s]. *)
Fixpoint strip_prefix (p s : string) : option string :=
  match p, s with
  | EmptyString, _ => Some s
  | String a p', String b s' => if Ascii.eqb a b then strip_prefix p' s' else None
  | String _ _, EmptyString => None
  end.

(** Greedy [c*] followed by the continuation [k]: the longest run first,
    then shorter ones when the continuation fails. *)
Fixpoint star_k {R : Type} (c : ascii -> bool) (s : string)
    (k : string -> option R) : option R :=
  match s with
  | String a s' =>
      if c a
      then match star_k c s' k with
           | Some r => Some r
           | None => k s
           end
      else k s
  | EmptyString => k s
  end.

(** The text consumed between [s] and its suffix [rest]. *)
Definition consumed (s rest : string) : string :=
  substring 0 (String.length s - String.length rest) s.

(** Matching in continuation-passing style; [caps] collects the text of
    the capturing groups, in the order in which they close. *)
Fixpoint rmatch {R : Type} (r : regex) (s : string) (caps : list string)
    (k : string -> list string -> option R) : option R :=
  match r with
  | Lit l =>
      match strip_prefix l s with
      | Some rest => k rest caps
      | None => None
      end
  | Plus c =>
      match s with
      | String a s' => if c a then star_k c s' (fun rest => k rest caps) else None
      | EmptyString => None
      end
  | Star c => star_k c s (fun rest => k rest caps)
  | Group r1 => rmatch r1 s caps (fun rest caps' => k rest (caps' ++ [consumed s rest]))
  | Opt r1 =>
      match rmatch r1 s caps k with
      | Some x => Some x
      | None => k s caps
      end
  | Seq r1 r2 => rmatch r1 s caps (fun rest caps' => rmatch r2 rest caps' k)
  end.

(** [pattern.search(s)]: the groups of the leftmost match. *)
Fixpoint search (r : regex) (s : string) : option (list string) :=
  match rmatch r s [] (fun _ caps => Some caps) with
  | Some caps => Some caps
  | None =>
      match s with
      | String _ s' => search r s'
      | EmptyString => None
      end
  end.

Fixpoint seqs (rs : list regex) : regex :=
  match rs with
  | [] => Lit EmptyString
  | [r] => r
  | r :: rs' => Seq r (seqs rs')
  end.

Definition dquote : ascii := ascii_of_nat 34.
Definition not_dquote (c : ascii) : bool := negb (Ascii.eqb c dquote).

(** [NEXT_PAGE_VAR_PATTERN]: the word var, white space, the word
    nextpage, optional white space, an equals sign, optional white
    space, then a double-quoted non-empty text without double quotes,
    which is group 1. *)
Definition NEXT_PAGE_VAR_PATTERN : regex :=
  seqs [Lit "var"; Plus is_space; Lit "nextpage"; Star is_space; Lit "=";
        Star is_space; Lit (String dquote EmptyString); Group (Plus not_dquote);
        Lit (String dquote EmptyString)].

(** [CHAPTER_ID_PATTERN]: /novel/, digits (group 1), a slash, digits
    (group 2), optionally an underscore and digits, then .html *)
Definition CHAPTER_ID_PATTERN : regex :=
  seqs [Lit "/novel/"; Group (Plus is_digit); Lit "/"; Group (Plus is_digit);
        Opt (Seq (Lit "_") (Plus is_digit)); Lit ".html"].

(** [_extract_article_and_chapter(path_or_url)] *)
Definition _extract_article_and_chapter (path_or_url : string)
    : option (string * string) :=
  match search CHAPTER_ID_PATTERN path_or_url with
  | Some [g1; g2] => Some (g1, g2)
  | _ => None
  end.

(* ===================================================================== *)
(** * Exceptions, and the monad of the effectful code *)
(* ===================================================================== *)

(** What the code reads of a [requests.Response]. *)
Record Response : Type := {
  status_code : Z;
  headers : list (string * string);
  content : string;                    (* the raw body, [response.content] *)
  text : string;                       (* the body as requests decodes it *)
  encoding : option string;
  apparent_encoding : option string
}.

(** The exceptions that occur, all of them subclasses of [Exception].
    [RequestException] stands for [requests.RequestException] and its
    subclasses; the [HTTPError] of [raise_for_status] carries the
    response, a connection error or a timeout carries none. *)
Inductive exn : Type :=
| RequestException (response : option Response)
| ImportError
| LookupError
| ValueError
| TypeError
| IndexError
| OtherException (name : string).

Definition is_RequestException (e : exn) : bool :=
  match e with
  | RequestException _ => true
  | _ => false
  end.

Definition is_ImportError (e : exn) : bool :=
  match e with
  | ImportError => true
  | _ => false
  end.

Inductive result (A : Type) : Type :=
| Ok (a : A)
| Raise (e : exn).

Arguments Ok {A} a.
Arguments Raise {A} e.

(** A computation over a mutable state [S] that returns or raises; the
    state reached is kept in both cases. *)
Definition M (S A : Type) : Type := S -> result A * S.

Definition ret {S A : Type} (a : A) : M S A := fun s => (Ok a, s).

Definition bind {S A B : Type} (m : M S A) (f : A -> M S B) : M S B :=
  fun s =>
    match m s with
    | (Ok a, s') => f a s'
    | (Raise e, s') => (Raise e, s')
    end.

Definition raise {S A : Type} (e : exn) : M S A := fun s => (Raise e, s).

Definition gets {S A : Type} (f : S -> A) : M S A := fun s => (Ok (f s), s).

Definition modify {S : Type} (f : S -> S) : M S unit := fun s => (Ok tt, f s).

(** [try: body / except <class> as e: handler e]; an exception outside
    the class passes through. *)
Definition try_except {S A : Type} (body : M S A) (class : exn -> bool)
    (handler : exn -> M S A) : M S A :=
  fun s =>
    match body s with
    | (Ok a, s') => (Ok a, s')
    | (Raise e, s') => if class e then handler e s' else (Raise e, s')
    end.

Definition any_Exception (e : exn) : bool := true.

Declare Scope monad_scope.
Delimit Scope monad_scope with monad.
Notation "x <- c1 ;; c2" := (bind c1 (fun x => c2))
  (at level 61, c1 at next level, right associativity) : monad_scope.
Notation "c1 ;; c2" := (bind c1 (fun _ => c2))
  (at level 61, right associativity) : monad_scope.
Local Open Scope monad_scope.

(** [for a in l: body a], for a body that does not leave the loop. *)
Fixpoint for_each {S A : Type} (l : list A) (body : A -> M S unit) : M S unit :=
  match l with
  | [] => ret tt
  | a :: l' => body a ;; for_each l' body
  end.

(** [enumerate(l)], counting from [n]. *)
Fixpoint enumerate_from {A : Type} (n : nat) (l : list A) : list (nat * A) :=
  match l with
  | [] => []
  | a :: l' => (n, a) :: enumerate_from (S n) l'
  end.

Definition enumerate {A : Type} (l : list A) : list (nat * A) := enumerate_from 0 l.

(** [l[i]] with Python's negative indices and its [IndexError]. *)
Definition py_index {A : Type} (l : list A) (i : Z) : result A :=
  let j := if i <? 0 then i + Z.of_nat (List.length l) else i in
  if j <? 0 then Raise IndexError
  else match nth_error l (Z.to_nat j) with
       | Some a => Ok a
       | None => Raise IndexError
       end.

(** [range(start, -1, -1)]: [start, start - 1, ..., 0]. *)
Definition range_down (start : Z) : list Z :=
  map (fun k => start - Z.of_nat k) (seq 0 (Z.to_nat (start + 1))).

(** [range(n)] *)
Definition range (n : Z) : list Z := map Z.of_nat (seq 0 (Z.to_nat n)).

(* ===================================================================== *)
(** * The book structure *)
(* ===================================================================== *)

(** A chapter dictionary of the catalogue.  [original_url] is the key
    the resolver adds; [None] is its absence. *)
Record Chapter : Type := {
  index : Z;
  title : string;
  url : string;
  needs_resolve : bool;
  original_url : option string
}.

Record Volume : Type := {
  volume_name : string;
  chapters : list Chapter
}.

Record BookStructure : Type := {
  name : string;
  book_id : string;
  volumes : list Volume
}.

Definition PLACEHOLDER : string := "javascript:cid(0)".

(** The three item assignments at the end of the loop body. *)
Definition set_original_url (v : option string) (ch : Chapter) : Chapter :=
  {| index := index ch; title := title ch; url := url ch;
     needs_resolve := needs_resolve ch; original_url := v |}.

Definition set_url (v : string) (ch : Chapter) : Chapter :=
  {| index := index ch; title := title ch; url := v;
     needs_resolve := needs_resolve ch; original_url := original_url ch |}.

Definition set_needs_resolve (v : bool) (ch : Chapter) : Chapter :=
  {| index := index ch; title := title ch; url := url ch;
     needs_resolve := v; original_url := original_url ch |}.

Fixpoint update_nth {A : Type} (n : nat) (f : A -> A) (l : list A) : list A :=
  match l, n with
  | [], _ => []
  | a :: l', O => f a :: l'
  | a :: l', S n' => a :: update_nth n' f l'
  end.

Definition update_chapters (f : list Chapter -> list Chapter) (v : Volume) : Volume :=
  {| volume_name := volume_name v; chapters := f (chapters v) |}.

(** The chapter object at [volumes[vi]["chapters"][ci]]. *)
Definition chapter_at (vols : list Volume) (vi ci : nat) : option Chapter :=
  match nth_error vols vi with
  | Some v => nth_error (chapters v) ci
  | None => None
  end.

(** An in-place update of that object. *)
Definition update_chapter_at (vi ci : nat) (f : Chapter -> Chapter)
    (vols : list Volume) : list Volume :=
  update_nth vi (update_chapters (update_nth ci f)) vols.

Definition update_volumes (f : list Volume -> list Volume) (b : BookStructure)
    : BookStructure :=
  {| name := name b; book_id := book_id b; volumes := f (volumes b) |}.

(** The inner loop of [find_prev_normal_chapter]:
    [for c in range(start, -1, -1)] over one chapter list. *)
Fixpoint scan_chapters (v : Z) (ch_list : list Chapter) (cs : list Z)
    : result (option (Z * Z * Chapter)) :=
  match cs with
  | [] => Ok None
  | c :: cs' =>
      match py_index ch_list c with
      | Raise e => Raise e
      | Ok ch =>
          if negb (needs_resolve ch) then Ok (Some (v, c, ch))
          else scan_chapters v ch_list cs'
      end
  end.

(** Its outer loop: [for v in range(vol_idx, -1, -1)]. *)
Fixpoint scan_volumes (vols : list Volume) (vol_idx ch_idx : Z) (vs : list Z)
    : result (option (Z * Z * Chapter)) :=
  match vs with
  | [] => Ok None
  | v :: vs' =>
      match py_index vols v with
      | Raise e => Raise e
      | Ok vol =>
          let ch_list := chapters vol in
          let start :=
            if v =? vol_idx then ch_idx - 1
            else Z.of_nat (List.length ch_list) - 1 in
          match scan_chapters v ch_list (range_down start) with
          | Raise e => Raise e
          | Ok (Some found) => Ok (Some found)
          | Ok None => scan_volumes vols vol_idx ch_idx vs'
          end
      end
  end.

(** [find_prev_normal_chapter(vol_idx, ch_idx)], on the volumes as they
    are when it is called. *)
Definition find_prev_normal_chapter (vols : list Volume) (vol_idx ch_idx : Z)
    : result (option (Z * Z * Chapter)) :=
  scan_volumes vols vol_idx ch_idx (range_down vol_idx).

(* ===================================================================== *)
(** * The special chapter resolver *)
(* ===================================================================== *)

(** The lines the module prints, one constructor per [print]. *)
Inductive diag : Type :=
| NoIdsInPrevUrl (prev_chapter_url : string)
| CycleDetected (full_url : string)
| DownloadFailed (full_url : string) (e : exn)
| NextpageNotFound (full_url : string)
| NoIdsInNextpage (next_path : string)
| OtherBook (next_path article_id2 article_id : string)
| NextChapterFound (prev_chapter_url resolved : string)
| HopsExceeded (max_hops : Z) (prev_chapter_url : string)
| NoPrevChapter (volume_name title : string)
| PrevUrlInvalid (prev_title prev_url : string)
| ChapterNotResolved (title url : string)
| ChapterUpdated (title original resolved : string).

Section Resolver.

(** [urllib.parse.urljoin] *)
Variable urljoin : string -> string -> string.

(** The texts of the script elements of a page, in document order:
    [sc.get_text() or empty] for [sc] in [soup.find_all(script)] of
    the page parsed by BeautifulSoup with lxml. *)
Variable script_texts : string -> list string.

(** The downloader object and its method [download(url)], which
    returns the page or raises. *)
Variable DS : Type.
Variable download : string -> M DS string.

(** What the resolver acts on: the book dictionary it mutates, the
    downloader it calls, the console; [requested] lists the addresses
    handed to [download], latest first. *)
Record RState : Type := {
  book : BookStructure;
  downloader : DS;
  stdout : list diag;
  requested : list string
}.

Definition print (d : diag) : M RState unit :=
  modify (fun st => {| book := book st; downloader := downloader st;
                       stdout := stdout st ++ [d]; requested := requested st |}).

Definition downloader_download (full_url : string) : M RState string :=
  fun st =>
    let (r, d') := download full_url (downloader st) in
    (r, {| book := book st; downloader := d'; stdout := stdout st;
           requested := full_url :: requested st |}).

Definition update_book (f : list Volume -> list Volume) : M RState unit :=
  modify (fun st => {| book := update_volumes f (book st);
                       downloader := downloader st; stdout := stdout st;
                       requested := requested st |}).

Definition newline : string := String (ascii_of_nat 10) EmptyString.

(** [_extract_nextpage_path(html)] *)
Definition _extract_nextpage_path (html : string) : option string :=
  let scripts_text := filter (contains "nextpage") (script_texts html) in
  match scripts_text with
  | [] => None
  | _ :: _ =>
      match search NEXT_PAGE_VAR_PATTERN (join newline scripts_text) with
      | Some [g1] => Some g1
      | _ => None
      end
  end.

(** [full_url] of the loop: [current_url], joined to the base unless
    it starts with http. *)
Definition full_address (base_url current_url : string) : string :=
  if negb (startswith current_url "http")
  then urljoin base_url current_url else current_url.

(** The loop [for _ in range(max_hops)] of [resolve_next_chapter_url],
    [hops] iterations of it.  [Some r] is a [return r] from inside the
    loop, [None] is the loop running out. *)
Fixpoint follow_nextpage (hops : nat) (prev_chapter_url base_url : string)
    (article_id chapter_base : string) (visited : list string)
    (current_url : string) : M RState (option (option string)) :=
  match hops with
  | O => ret None
  | S hops' =>
      let full_url := full_address base_url current_url in
      if existsb (String.eqb full_url) visited then
        print (CycleDetected full_url) ;; ret (Some None)
      else
        let visited := full_url :: visited in
        fetched <- try_except
                     (html <- downloader_download full_url ;; ret (Some html))
                     any_Exception
                     (fun e => print (DownloadFailed full_url e) ;; ret None) ;;
        match fetched with
        | None => ret (Some None)
        | Some html =>
            match _extract_nextpage_path html with
            | None => print (NextpageNotFound full_url) ;; ret (Some None)
            | Some next_path =>
                match _extract_article_and_chapter next_path with
                | None => print (NoIdsInNextpage next_path) ;; ret (Some None)
                | Some (article_id2, chapter2) =>
                    if negb (String.eqb article_id2 article_id) then
                      print (OtherBook next_path article_id2 article_id) ;;
                      ret (Some None)
                    else if String.eqb chapter2 chapter_base then
                      follow_nextpage hops' prev_chapter_url base_url
                        article_id chapter_base visited next_path
                    else
                      let resolved := urljoin base_url next_path in
                      print (NextChapterFound prev_chapter_url resolved) ;;
                      ret (Some (Some resolved))
                end
            end
        end
  end.

(** [resolve_next_chapter_url(prev_chapter_url, downloader, base_url,
    max_hops)] *)
Definition resolve_next_chapter_url (prev_chapter_url base_url : string)
    (max_hops : Z) : M RState (option string) :=
  match _extract_article_and_chapter prev_chapter_url with
  | None => print (NoIdsInPrevUrl prev_chapter_url) ;; ret None
  | Some (article_id, chapter_base) =>
      r <- follow_nextpage (Z.to_nat max_hops) prev_chapter_url base_url
             article_id chapter_base [] prev_chapter_url ;;
      match r with
      | Some returned => ret returned
      | None => print (HopsExceeded max_hops prev_chapter_url) ;; ret None
      end
  end.

(** The default of the parameter [max_hops]. *)
Definition DEFAULT_MAX_HOPS : Z := 20.

(** The body of the inner loop of [resolve_all_special_chapters] for
    the chapter object [ch] at position [ci] of the volume [vol] at
    position [vi].  The object is read where it lives, in the book. *)
Definition resolve_chapter (base_url : string) (vi : nat) (vol : Volume)
    (ci : nat) : M RState unit :=
  live <- gets (fun st => chapter_at (volumes (book st)) vi ci) ;;
  match live with
  | None => ret tt
  | Some ch =>
      if negb (needs_resolve ch) then ret tt
      else
        prev_info <- (fun st =>
                        (find_prev_normal_chapter (volumes (book st))
                           (Z.of_nat vi) (Z.of_nat ci), st)) ;;
        match prev_info with
        | None => print (NoPrevChapter (volume_name vol) (title ch))
        | Some (_pv, _pc, prev_ch) =>
            let prev_url := url prev_ch in
            if String.eqb prev_url EmptyString || String.eqb prev_url PLACEHOLDER
            then print (PrevUrlInvalid (title prev_ch) prev_url)
            else
              resolved_url <- resolve_next_chapter_url prev_url base_url
                                DEFAULT_MAX_HOPS ;;
              match resolved_url with
              | None => print (ChapterNotResolved (title ch) (url ch))
              | Some resolved =>
                  if String.eqb resolved EmptyString
                  then print (ChapterNotResolved (title ch) (url ch))
                  else
                    let original := url ch in
                    update_book (update_chapter_at vi ci
                                   (set_original_url (Some original))) ;;
                    update_book (update_chapter_at vi ci (set_url resolved)) ;;
                    update_book (update_chapter_at vi ci
                                   (set_needs_resolve false)) ;;
                    print (ChapterUpdated (title ch) original resolved)
              end
        end
  end.

(** [resolve_all_special_chapters(book_structure, downloader,
    base_url)]: the book is the one held in the state.  The pass never
    changes the length of a list, so the positions enumerated here are
    the ones the two Python iterators go through. *)
Definition resolve_all_special_chapters (base_url : string) : M RState unit :=
  vols <- gets (fun st => volumes (book st)) ;;
  for_each (enumerate vols) (fun '(vi, vol) =>
    for_each (enumerate (chapters vol)) (fun '(ci, _) =>
      resolve_chapter base_url vi vol ci)).

End Resolver.

Arguments book {DS} r.
Arguments downloader {DS} r.
Arguments stdout {DS} r.
Arguments requested {DS} r.
Arguments Build_RState {DS} book downloader stdout requested.
Arguments print {DS} d.
Arguments update_book {DS} f.
Arguments downloader_download {DS} download full_url.
Arguments follow_nextpage urljoin script_texts {DS} download hops.
Arguments resolve_next_chapter_url urljoin script_texts {DS} download.
Arguments resolve_chapter urljoin script_texts {DS} download base_url vi vol ci.
Arguments resolve_all_special_chapters urljoin script_texts {DS} download base_url.

(* ===================================================================== *)
(** * The downloader *)
(* ===================================================================== *)

Definition USER_AGENTS : list string :=
  [ "Mozilla/5.0 (Windows NT 10.0; Win64; x64) AppleWebKit/537.36 (KHTML, like Gecko) Chrome/122.0.0.0 Safari/537.36";
    "Mozilla/5.0 (Macintosh; Intel Mac OS X 10_15_7) AppleWebKit/537.36 (KHTML, like Gecko) Chrome/122.0.0.0 Safari/537.36";
    "Mozilla/5.0 (Windows NT 10.0; Win64; x64) AppleWebKit/537.36 (KHTML, like Gecko) Chrome/122.0.0.0 Safari/537.36 Edg/122.0.0.0";
    "Mozilla/5.0 (Windows NT 10.0; Win64; x64; rv:123.0) Gecko/20100101 Firefox/123.0";
    "Mozilla/5.0 (Macintosh; Intel Mac OS X 10_15_7) AppleWebKit/605.1.15 (KHTML, like Gecko) Version/17.3 Safari/605.1.15" ].

(** Header dictionaries compare their keys without regard to case. *)
Definition Headers : Type := list (string * string).

Definition same_key (k1 k2 : string) : bool := String.eqb (lower k1) (lower k2).

Fixpoint headers_get (hs : Headers) (key default : string) : string :=
  match hs with
  | [] => default
  | (k, v) :: hs' => if same_key k key then v else headers_get hs' key default
  end.

Fixpoint headers_pop (key : string) (hs : Headers) : Headers :=
  match hs with
  | [] => []
  | (k, v) :: hs' =>
      if same_key k key then headers_pop key hs' else (k, v) :: headers_pop key hs'
  end.

Fixpoint headers_set (key value : string) (hs : Headers) : Headers :=
  match hs with
  | [] => [(key, value)]
  | (k, v) :: hs' =>
      if same_key k key then (k, value) :: hs' else (k, v) :: headers_set key value hs'
  end.

(** The fields of a [Downloader] object. *)
Record Downloader : Type := {
  base_url : string;
  retry_times : Z;
  retry_delay : Q;
  base_interval : Q;
  interval_jitter : Q;
  _last_request_ts : Q;
  session_headers : Headers
}.

(** [Downloader.__init__]; [user_agent] is the [random.choice] made for
    the default headers of the session. *)
Definition Downloader__init__ (base_url : string) (retry_times : Z)
    (retry_delay base_interval interval_jitter : Q) (user_agent : string)
    : Downloader :=
  {| base_url := base_url;
     retry_times := retry_times;
     retry_delay := retry_delay;
     base_interval := base_interval;
     interval_jitter := interval_jitter;
     _last_request_ts := 0%Q;
     session_headers :=
       [ ("User-Agent", user_agent);
         ("Accept", "text/html,application/xhtml+xml,application/xml;q=0.9,image/webp,*/*;q=0.8");
         ("Accept-Language", "zh-CN,zh;q=0.9,en;q=0.8");
         ("Accept-Encoding", "gzip, deflate");
         ("Connection", "keep-alive");
         ("Upgrade-Insecure-Requests", "1") ] |}.

Definition set_last_request_ts (t : Q) (d : Downloader) : Downloader :=
  {| base_url := base_url d;
     retry_times := retry_times d;
     retry_delay := retry_delay d;
     base_interval := base_interval d;
     interval_jitter := interval_jitter d;
     _last_request_ts := t;
     session_headers := session_headers d |}.

(** The warnings [download] prints. *)
Inductive warning : Type :=
| ContentTypeNotHtml (content_type : string)
| BrotliDecompressed
| BrotliNotInstalled
| BrotliFailed (e : exn)
| ContentNotHtml (head : string)
| TooManyRequests (wait_time : Q) (url : string).

(** What a run does to its surroundings, in order: a GET sent at a
    clock reading, a sleep started at a clock reading, a printed line. *)
Inductive event : Type :=
| Get (at_time : Q) (url : string) (request_headers : Headers)
| Sleep (at_time : Q) (secs : Q)
| Print (w : warning).

(** The surroundings of a downloader: the monotonic clock, the number
    of blocking calls and of random draws made so far, the GETs sent so
    far, and the record of what happened. *)
Record World : Type := {
  clock : Q;
  blocked : nat;
  draws : nat;
  sent : nat;
  trace : list event
}.

Record DState : Type := {
  self : Downloader;
  world : World
}.

(** What the surroundings decide. *)
Record Env : Type := {
  (** the answer to the n-th GET: a response, or the exception
      [session.get] raises *)
  net_get : nat -> string -> Z -> Headers -> result Response;
  (** the time the n-th blocking call (a GET, a sleep) takes, for a
      sleep on top of the time asked for *)
  took : nat -> Q;
  (** the n-th draw, as [random.random()] and as an index *)
  random_random : nat -> Q;
  random_below : nat -> nat -> nat;
  (** [brotli.decompress], when the module can be imported *)
  brotli_decompress : option (string -> result string);
  (** [data.decode(encoding, errors=replace)], the data first *)
  bytes_decode : string -> string -> result string
}.

Definition Qltb (x y : Q) : bool := negb (Qle_bool y x).

(** [max(a, b)] on two numbers: the first of the largest. *)
Definition py_max (a b : Q) : Q := if Qltb a b then b else a.

Section DownloaderMethods.

Variable urljoin : string -> string -> string.
Variable env : Env.

Definition D (A : Type) : Type := M DState A.

Definition lift_result {A : Type} (r : result A) : D A := fun s => (r, s).

Definition log (e : event) (w : World) : World :=
  {| clock := clock w; blocked := blocked w; draws := draws w; sent := sent w;
     trace := trace w ++ [e] |}.

Definition warn (w : warning) : D unit :=
  modify (fun s => {| self := self s; world := log (Print w) (world s) |}).

(** [time.monotonic()] *)
Definition time_monotonic : D Q := gets (fun s => clock (world s)).

(** [time.sleep(secs)] *)
Definition time_sleep (secs : Q) : D unit :=
  if Qltb secs 0 then raise ValueError
  else
    modify (fun s =>
      let w := world s in
      {| self := self s;
         world := {| clock := clock w + secs + took env (blocked w);
                     blocked := S (blocked w); draws := draws w; sent := sent w;
                     trace := trace w ++ [Sleep (clock w) secs] |} |}).

Definition next_draw (w : World) : World :=
  {| clock := clock w; blocked := blocked w; draws := S (draws w); sent := sent w;
     trace := trace w |}.

(** [random.uniform(a, b)] is [a + (b - a) * random.random()]. *)
Definition random_uniform (a b : Q) : D Q :=
  fun s =>
    let w := world s in
    (Ok (a + (b - a) * random_random env (draws w))%Q,
     {| self := self s; world := next_draw w |}).

(** [random.choice(seq)] *)
Definition random_choice (seq : list string) : D string :=
  fun s =>
    let w := world s in
    (match nth_error seq (random_below env (draws w) (List.length seq)) with
     | Some x => Ok x
     | None => Raise IndexError
     end,
     {| self := self s; world := next_draw w |}).

(** [self.session.get(url, timeout=timeout, headers=headers)] *)
Definition session_get (url : string) (timeout : Z) (hs : Headers) : D Response :=
  fun s =>
    let w := world s in
    (net_get env (sent w) url timeout hs,
     {| self := self s;
        world := {| clock := clock w + took env (blocked w);
                    blocked := S (blocked w); draws := draws w; sent := S (sent w);
                    trace := trace w ++ [Get (clock w) url hs] |} |}).

(** [response.raise_for_status()] *)
Definition raise_for_status (response : Response) : D unit :=
  if (400 <=? status_code response) && (status_code response <? 600)
  then raise (RequestException (Some response))
  else ret tt.

(** [Downloader._sleep_for_rate_limit] *)
Definition _sleep_for_rate_limit : D unit :=
  now <- time_monotonic ;;
  me <- gets self ;;
  if Qle_bool (_last_request_ts me) 0 then ret tt
  else
    jitter <- random_uniform 0 (interval_jitter me) ;;
    let interval := (base_interval me + jitter)%Q in
    let elapsed := (now - _last_request_ts me)%Q in
    if Qltb elapsed interval then time_sleep (interval - elapsed) else ret tt.

(** A string that is neither [None] nor empty. *)
Definition truthy (o : option string) : option string :=
  match o with
  | Some EmptyString => None
  | other => other
  end.

(** The second request of the Brotli branch, made without the
    Accept-Encoding header; both handlers of the branch end with it. *)
Definition get_without_compression (url : string) (timeout : Z)
    : D (Response * string) :=
  me <- gets self ;;
  let headers_no_compression := headers_pop "Accept-Encoding" (session_headers me) in
  response <- session_get url timeout headers_no_compression ;;
  raise_for_status response ;;
  ret (response, text response).

(** The handling of Content-Encoding: the response and the text kept. *)
Definition decode_body (url : string) (timeout : Z) (response : Response)
    (content_encoding : string) : D (Response * string) :=
  if negb (String.eqb content_encoding EmptyString) then
    if contains "br" content_encoding then
      try_except
        (match brotli_decompress env with
         | None => raise ImportError
         | Some decompress =>
             decompressed <- lift_result (decompress (content response)) ;;
             text_content <-
               lift_result
                 (match truthy (encoding response) with
                  | Some enc => bytes_decode env decompressed enc
                  | None => bytes_decode env decompressed "utf-8"
                  end) ;;
             warn BrotliDecompressed ;;
             ret (response, text_content)
         end)
        any_Exception
        (fun e =>
           if is_ImportError e then
             warn BrotliNotInstalled ;; get_without_compression url timeout
           else
             warn (BrotliFailed e) ;; get_without_compression url timeout)
    else ret (response, text response)
  else ret (response, text response).

(** One attempt from [response.raise_for_status()] to
    [return text_content]. *)
Definition receive (url : string) (timeout : Z) (response : Response) : D string :=
  raise_for_status response ;;
  let content_type := lower (headers_get (headers response) "Content-Type" EmptyString) in
  (if negb (contains "text/html" content_type)
   then warn (ContentTypeNotHtml content_type) else ret tt) ;;
  let content_encoding :=
    lower (headers_get (headers response) "Content-Encoding" EmptyString) in
  decoded <- decode_body url timeout response content_encoding ;;
  let '(response, text_content) := decoded in
  (* [text_content] is a [str] on every path: the [isinstance] branch is dead *)
  let text_stripped := strip text_content in
  (if negb (startswith text_stripped "<!") && negb (startswith text_stripped "<html")
   then warn (ContentNotHtml (substring 0 100 text_content)) else ret tt) ;;
  (* a [Response] has no attribute [_encoding_set]: the test before the
     sniffing of the encoding is always true *)
  text_content <-
    (match truthy (apparent_encoding response) with
     | Some enc =>
         if negb (contains "br" content_encoding) then
           try_except
             (lift_result (bytes_decode env (content response) enc))
             any_Exception
             (fun _ => ret text_content)
         else ret text_content
     | None => ret text_content
     end) ;;
  now <- time_monotonic ;;
  modify (fun s => {| self := set_last_request_ts now (self s); world := world s |}) ;;
  ret text_content.

(** The body of the [try] of one attempt. *)
Definition attempt_body (url : string) (timeout : Z) : D string :=
  _sleep_for_rate_limit ;;
  me <- gets self ;;
  user_agent <- random_choice USER_AGENTS ;;
  let hs := headers_set "User-Agent" user_agent (session_headers me) in
  response <- session_get url timeout hs ;;
  receive url timeout response.

(** The status code the handler reads off the exception. *)
Definition status_of (e : exn) : option Z :=
  match e with
  | RequestException (Some response) => Some (status_code response)
  | _ => None
  end.

(** [int(e.response.headers.get(Retry-After, 0))], and 0 when that
    raises. *)
Definition retry_after_of (e : exn) : Z :=
  match e with
  | RequestException (Some response) =>
      match py_int (headers_get (headers response) "Retry-After" "0") with
      | Some n => n
      | None => 0
      end
  | _ => 0
  end.

(** The wait after a 429 at attempt [attempt]. *)
Definition wait_time_429 (retry_after : Z) (retry_delay : Q) (attempt : Z) : Q :=
  py_max (inject_Z retry_after) (retry_delay * inject_Z (attempt + 1) * 3)%Q.

(** The handler [except requests.RequestException as e] at attempt
    [attempt]; it returns to let the loop go on, or raises [e] again. *)
Definition on_request_exception (url : string) (attempt : Z) (e : exn) : D unit :=
  me <- gets self ;;
  if match status_of e with Some status => status =? 429 | None => false end then
    let wait_time := wait_time_429 (retry_after_of e) (retry_delay me) attempt in
    warn (TooManyRequests wait_time url) ;;
    time_sleep wait_time
  else if attempt <? retry_times me - 1 then
    time_sleep (retry_delay me * inject_Z (attempt + 1))%Q
  else raise e.

(** The loop [for attempt in range(self.retry_times)] over the attempts
    left, and the [raise last_exception] after it. *)
Fixpoint download_attempts (url : string) (timeout : Z) (attempts : list Z)
    (last_exception : option exn) : D string :=
  match attempts with
  | [] =>
      match last_exception with
      | Some e => raise e
      | None => raise TypeError     (* [raise None] *)
      end
  | attempt :: rest =>
      outcome <- try_except
                   (text_content <- attempt_body url timeout ;; ret (inl text_content))
                   is_RequestException
                   (fun e => on_request_exception url attempt e ;; ret (inr e)) ;;
      match outcome with
      | inl text_content => ret text_content
      | inr e => download_attempts url timeout rest (Some e)
      end
  end.

(** [Downloader.download(url, timeout)] *)
Definition download (url : string) (timeout : Z) : D string :=
  me <- gets self ;;
  let url := if negb (startswith url "http") then urljoin (base_url me) url else url in
  download_attempts url timeout (range (retry_times me)) None.

End DownloaderMethods.

(* ===================================================================== *)
(** * The downloader with the errors of urljoin and of time.sleep *)
(* ===================================================================== *)

(** The methods above take [urljoin] as a function that returns and
    [time.sleep] as a call that takes any duration that is not
    negative.  Both can raise: [urllib.parse.urljoin] a [ValueError] on
    an address it cannot split (a host with a bracket that has no
    pair); [time.sleep] an [OverflowError] (on some platforms an
    [OSError]) for a duration that is too long for the clock of the
    platform.  Neither is a [RequestException].  This part follows the
    same source lines with these two errors in; where neither is
    raised it is the downloader above. *)

Definition OverflowError : exn := OtherException "OverflowError".

Section DownloaderWithErrors.

Variable urljoin : string -> string -> string.

(** [urljoin_raises base url] tells whether [urljoin(base, url)]
    raises; when it does not, the call returns [urljoin base url]. *)
Variable urljoin_raises : string -> string -> bool.

(** [too_long secs] tells whether [secs], not negative, is more than
    [time.sleep] takes. *)
Variable too_long : Q -> bool.

(** The error [time.sleep] raises for such a duration: an
    [OverflowError], on some platforms an [OSError]. *)
Variable sleep_error : exn.

Variable env : Env.

(** [time.sleep(secs)] *)
Definition time_sleep_err (secs : Q) : D unit :=
  if Qltb secs 0 then raise ValueError
  else if too_long secs then raise sleep_error
  else
    modify (fun s =>
      let w := world s in
      {| self := self s;
         world := {| clock := clock w + secs + took env (blocked w);
                     blocked := S (blocked w); draws := draws w; sent := sent w;
                     trace := trace w ++ [Sleep (clock w) secs] |} |}).

(** [Downloader._sleep_for_rate_limit] *)
Definition _sleep_for_rate_limit_err : D unit :=
  now <- time_monotonic ;;
  me <- gets self ;;
  if Qle_bool (_last_request_ts me) 0 then ret tt
  else
    jitter <- random_uniform env 0 (interval_jitter me) ;;
    let interval := (base_interval me + jitter)%Q in
    let elapsed := (now - _last_request_ts me)%Q in
    if Qltb elapsed interval then time_sleep_err (interval - elapsed) else ret tt.

(** The body of the [try] of one attempt. *)
Definition attempt_body_err (url : string) (timeout : Z) : D string :=
  _sleep_for_rate_limit_err ;;
  me <- gets self ;;
  user_agent <- random_choice env USER_AGENTS ;;
  let hs := headers_set "User-Agent" user_agent (session_headers me) in
  response <- session_get env url timeout hs ;;
  receive env url timeout response.

(** The handler [except requests.RequestException as e] at attempt
    [attempt]. *)
Definition on_request_exception_err (url : string) (attempt : Z) (e : exn) : D unit :=
  me <- gets self ;;
  if match status_of e with Some status => status =? 429 | None => false end then
    let wait_time := wait_time_429 (retry_after_of e) (retry_delay me) attempt in
    warn (TooManyRequests wait_time url) ;;
    time_sleep_err wait_time
  else if attempt <? retry_times me - 1 then
    time_sleep_err (retry_delay me * inject_Z (attempt + 1))%Q
  else raise e.

(** The loop [for attempt in range(self.retry_times)] over the attempts
    left, and the [raise last_exception] after it. *)
Fixpoint download_attempts_err (url : string) (timeout : Z) (attempts : list Z)
    (last_exception : option exn) : D string :=
  match attempts with
  | [] =>
      match last_exception with
      | Some e => raise e
      | None => raise TypeError     (* [raise None] *)
      end
  | attempt :: rest =>
      outcome <- try_except
                   (text_content <- attempt_body_err url timeout ;;
                    ret (inl text_content))
                   is_RequestException
                   (fun e => on_request_exception_err url attempt e ;; ret (inr e)) ;;
      match outcome with
      | inl text_content => ret text_content
      | inr e => download_attempts_err url timeout rest (Some e)
      end
  end.

(** [Downloader.download(url, timeout)] *)
Definition download_err (url : string) (timeout : Z) : D string :=
  me <- gets self ;;
  url <- (if negb (startswith url "http")
          then
            if urljoin_raises (base_url me) url then raise ValueError
            else ret (urljoin (base_url me) url)
          else ret url) ;;
  download_attempts_err url timeout (range (retry_times me)) None.

End DownloaderWithErrors.

(* ===================================================================== *)
(** * The resolver with the errors of urljoin *)
(* ===================================================================== *)

(** The resolver calls [urljoin] at lines 119 and 159, outside the
    [try] that guards the download: the [ValueError] it raises on an
    address it cannot split leaves [resolve_next_chapter_url] and
    [resolve_all_special_chapters].  This part follows the same source
    lines with that error in; where it is not raised it is the
    resolver above. *)

Section ResolverWithErrors.

Variable urljoin : string -> string -> string.
Variable urljoin_raises : string -> string -> bool.
Variable script_texts : string -> list string.
Variable DS : Type.
Variable download : string -> M DS string.

(** [urljoin(base_url, url)] *)
Definition checked_urljoin (base_url url : string) : M (RState DS) string :=
  if urljoin_raises base_url url then raise ValueError
  else ret (urljoin base_url url).

(** The loop [for _ in range(max_hops)] of [resolve_next_chapter_url],
    [hops] iterations of it. *)
Fixpoint follow_nextpage_err (hops : nat) (prev_chapter_url base_url : string)
    (article_id chapter_base : string) (visited : list string)
    (current_url : string) : M (RState DS) (option (option string)) :=
  match hops with
  | O => ret None
  | S hops' =>
      full_url <- (if negb (startswith current_url "http")
                   then checked_urljoin base_url current_url
                   else ret current_url) ;;
      if existsb (String.eqb full_url) visited then
        print (CycleDetected full_url) ;; ret (Some None)
      else
        let visited := full_url :: visited in
        fetched <- try_except
                     (html <- downloader_download download full_url ;; ret (Some html))
                     any_Exception
                     (fun e => print (DownloadFailed full_url e) ;; ret None) ;;
        match fetched with
        | None => ret (Some None)
        | Some html =>
            match _extract_nextpage_path script_texts html with
            | None => print (NextpageNotFound full_url) ;; ret (Some None)
            | Some next_path =>
                match _extract_article_and_chapter next_path with
                | None => print (NoIdsInNextpage next_path) ;; ret (Some None)
                | Some (article_id2, chapter2) =>
                    if negb (String.eqb article_id2 article_id) then
                      print (OtherBook next_path article_id2 article_id) ;;
                      ret (Some None)
                    else if String.eqb chapter2 chapter_base then
                      follow_nextpage_err hops' prev_chapter_url base_url
                        article_id chapter_base visited next_path
                    else
                      resolved <- checked_urljoin base_url next_path ;;
                      print (NextChapterFound prev_chapter_url resolved) ;;
                      ret (Some (Some resolved))
                end
            end
        end
  end.

(** [resolve_next_chapter_url(prev_chapter_url, downloader, base_url,
    max_hops)] *)
Definition resolve_next_chapter_url_err (prev_chapter_url base_url : string)
    (max_hops : Z) : M (RState DS) (option string) :=
  match _extract_article_and_chapter prev_chapter_url with
  | None => print (NoIdsInPrevUrl prev_chapter_url) ;; ret None
  | Some (article_id, chapter_base) =>
      r <- follow_nextpage_err (Z.to_nat max_hops) prev_chapter_url base_url
             article_id chapter_base [] prev_chapter_url ;;
      match r with
      | Some returned => ret returned
      | None => print (HopsExceeded max_hops prev_chapter_url) ;; ret None
      end
  end.

(** The body of the inner loop of [resolve_all_special_chapters] for
    the chapter object at position [ci] of the volume [vol] at
    position [vi]. *)
Definition resolve_chapter_err (base_url : string) (vi : nat) (vol : Volume)
    (ci : nat) : M (RState DS) unit :=
  live <- gets (fun st => chapter_at (volumes (book st)) vi ci) ;;
  match live with
  | None => ret tt
  | Some ch =>
      if negb (needs_resolve ch) then ret tt
      else
        prev_info <- (fun st =>
                        (find_prev_normal_chapter (volumes (book st))
                           (Z.of_nat vi) (Z.of_nat ci), st)) ;;
        match prev_info with
        | None => print (NoPrevChapter (volume_name vol) (title ch))
        | Some (_pv, _pc, prev_ch) =>
            let prev_url := url prev_ch in
            if String.eqb prev_url EmptyString || String.eqb prev_url PLACEHOLDER
            then print (PrevUrlInvalid (title prev_ch) prev_url)
            else
              resolved_url <- resolve_next_chapter_url_err prev_url base_url
                                DEFAULT_MAX_HOPS ;;
              match resolved_url with
              | None => print (ChapterNotResolved (title ch) (url ch))
              | Some resolved =>
                  if String.eqb resolved EmptyString
                  then print (ChapterNotResolved (title ch) (url ch))
                  else
                    let original := url ch in
                    update_book (update_chapter_at vi ci
                                   (set_original_url (Some original))) ;;
                    update_book (update_chapter_at vi ci (set_url resolved)) ;;
                    update_book (update_chapter_at vi ci
                                   (set_needs_resolve false)) ;;
                    print (ChapterUpdated (title ch) original resolved)
              end
        end
  end.

(** [resolve_all_special_chapters(book_structure, downloader,
    base_url)] *)
Definition resolve_all_special_chapters_err (base_url : string) : M (RState DS) unit :=
  vols <- gets (fun st => volumes (book st)) ;;
  for_each (enumerate vols) (fun '(vi, vol) =>
    for_each (enumerate (chapters vol)) (fun '(ci, _) =>
      resolve_chapter_err base_url vi vol ci)).

End ResolverWithErrors.

Arguments checked_urljoin urljoin urljoin_raises {DS} base_url url.
Arguments follow_nextpage_err urljoin urljoin_raises script_texts {DS} download hops.
Arguments resolve_next_chapter_url_err urljoin urljoin_raises script_texts {DS} download.
Arguments resolve_chapter_err urljoin urljoin_raises script_texts {DS} download
  base_url vi vol ci.
Arguments resolve_all_special_chapters_err urljoin urljoin_raises script_texts {DS}
  download base_url.

(* ===================================================================== *)
(** * The catalogue parser *)
(* ===================================================================== *)

(** The pattern [parse_catalog] searches a catalogue address for:
    /novel/, digits (group 1), then /catalog *)
Definition CATALOG_ID_PATTERN : regex :=
  seqs [Lit "/novel/"; Group (Plus is_digit); Lit "/catalog"].

(** [ParseError], a subclass of [Exception] of the module. *)
Definition ParseError : exn := OtherException "ParseError".

(** The downloader [CatalogParser.__init__] builds:
    [Downloader(base_url=base_url)], with the defaults of the other
    parameters; [user_agent] is the [random.choice] made for the
    session. *)
Definition CatalogParser_downloader (base_url user_agent : string) : Downloader :=
  Downloader__init__ base_url 3 1 1 1 user_agent.

(** Step 1 of [CatalogParser.parse_catalog], the validation of the
    arguments: the [book_id] and the [catalog_url] the rest of the
    method works with. *)
Definition catalog_address (base_url : string) (book_id catalog_url : option string)
    : result (string * string) :=
  match truthy book_id, truthy catalog_url with
  | None, None => Raise ValueError
  | _, Some catalog_url =>
      match search CATALOG_ID_PATTERN catalog_url with
      | Some [g1] => Ok (g1, catalog_url)
      | _ => Raise ValueError
      end
  | Some book_id, None =>
      Ok (book_id, (base_url ++ "/novel/" ++ book_id ++ "/catalog")%string)
  end.

(** What [_extract_volumes] reads of an a element of a chapter list:
    its href attribute, when it has one, and its text, stripped. *)
Record ChapterLink : Type := {
  link_href : option string;
  link_text : string
}.

(** What [_extract_volumes] reads of a div.volume.clearfix element: the
    stripped text of its first h2.v-line, when there is one; the href
    attribute of its first a.volume-cover, when there is one with that
    attribute; the data-original and src attributes of the first img
    in such a link, when there is one; and its chapter links, in
    document order. *)
Record VolumeDiv : Type := {
  h2_text : option string;
  cover_href : option string;
  cover_img : option (option string * option string);
  chapter_links : list ChapterLink
}.

(** A volume dictionary as [_extract_volumes] builds it: the keys the
    resolver reads, [front_page], and [cover_image], a key that may be
    absent. *)
Record CatalogVolume : Type := {
  parsed : Volume;
  front_page : option string;
  cover_image : option string
}.

(** [link.get(href, empty)]: the href attribute, the empty string when
    there is none. *)
Definition href_of (link : ChapterLink) : string :=
  match link_href link with
  | Some h => h
  | None => EmptyString
  end.

(** The lines [_extract_volumes] prints: for a volume without a name,
    for a cover link that cannot be joined to the base address, and for
    a chapter link that cannot. *)
Inductive catalog_diag : Type :=
| VolumeNameNotFound
| FrontPageFailed
| ChapterUrlFailed (href : string).

Section CatalogParserMethods.

Variable urljoin : string -> string -> string.
Variable env : Env.

(** Steps 1 and 2 of [CatalogParser.parse_catalog], run on the
    downloader of the parser: the validation of the arguments, then
    the download of the catalogue and the checks of what came back,
    with every exception turned into a [ParseError].  It returns the
    [book_id] and the [html_content] the rest of the method works
    with. *)
Definition parse_catalog_download (base_url : string) (book_id catalog_url : option string)
    : D (string * string) :=
  address <- lift_result (catalog_address base_url book_id catalog_url) ;;
  let '(book_id, catalog_url) := address in
  html_content <-
    try_except
      (html_content <- download urljoin env catalog_url 30 ;;
       (if String.eqb html_content EmptyString
           || (Z.of_nat (py_len html_content) <? 100)
        then raise ParseError else ret tt) ;;
       (if negb (startswith (strip html_content) "<!")
        then
          if contains "error" (lower html_content)
             || contains "403" html_content || contains "404" html_content
          then raise ParseError else ret tt
        else ret tt) ;;
       ret html_content)
      any_Exception
      (fun _ => raise ParseError) ;;
  ret (book_id, html_content).

(** [urllib.parse.urljoin] raises a [ValueError] on some addresses (a
    host with a bracket that has no pair, for one):
    [urljoin_raises base url] tells whether it does; when it does not,
    the call returns [urljoin base url]. *)
Variable urljoin_raises : string -> string -> bool.

(** The inner loop of [_extract_volumes] over the links of one volume,
    from the value [global_chapter_index] has when it starts: the
    chapters appended and the lines printed.  A link that is not the
    placeholder and that [urljoin] refuses is skipped, and is not
    counted. *)
Fixpoint chapters_of_links (base_url : string) (global_chapter_index : Z)
    (chapter_links : list ChapterLink) : list Chapter * list catalog_diag :=
  match chapter_links with
  | [] => ([], [])
  | link :: rest =>
      let href := href_of link in
      let needs_resolve := String.eqb href "javascript:cid(0)" in
      if negb needs_resolve && urljoin_raises base_url href then
        let later := chapters_of_links base_url global_chapter_index rest in
        (fst later, ChapterUrlFailed href :: snd later)
      else
        let chapter_url := if needs_resolve then href else urljoin base_url href in
        let later := chapters_of_links base_url (global_chapter_index + 1) rest in
        ({| index := global_chapter_index;
            title := link_text link;
            url := chapter_url;
            needs_resolve := needs_resolve;
            original_url := None |} :: fst later,
         snd later)
  end.

(** The outer loop of [_extract_volumes], from the value
    [global_chapter_index] has when it starts: the volumes appended
    and the lines printed. *)
Fixpoint volumes_of_divs (base_url : string) (global_chapter_index : Z)
    (volume_divs : list VolumeDiv) : list CatalogVolume * list catalog_diag :=
  match volume_divs with
  | [] => ([], [])
  | volume_div :: rest =>
      match h2_text volume_div with
      | None =>
          let later := volumes_of_divs base_url global_chapter_index rest in
          (fst later, VolumeNameNotFound :: snd later)
      | Some volume_name =>
          let front :=
            match truthy (cover_href volume_div) with
            | Some href =>
                if urljoin_raises base_url href then (None, [FrontPageFailed])
                else (Some (urljoin base_url href), [])
            | None => (None, [])
            end in
          let cover_image :=
            match cover_img volume_div with
            | Some (data_original, src) =>
                match truthy data_original with
                | Some image => Some image
                | None => truthy src
                end
            | None => None
            end in
          let found :=
            chapters_of_links base_url global_chapter_index (chapter_links volume_div) in
          match fst found with
          | [] =>
              let later := volumes_of_divs base_url global_chapter_index rest in
              (fst later, snd front ++ snd found ++ snd later)
          | _ :: _ =>
              let later :=
                volumes_of_divs base_url
                  (global_chapter_index + Z.of_nat (List.length (fst found))) rest in
              ({| parsed := {| volume_name := volume_name; chapters := fst found |};
                  front_page := fst front;
                  cover_image := cover_image |} :: fst later,
               snd front ++ snd found ++ snd later)
          end
      end
  end.

(** [CatalogParser._extract_volumes], on the div.volume.clearfix
    elements of the page in document order. *)
Definition _extract_volumes (base_url : string) (volume_divs : list VolumeDiv)
    : list CatalogVolume * list catalog_diag :=
  volumes_of_divs base_url 1 volume_divs.

End CatalogParserMethods.

(* ===================================================================== *)
(** * Vocabulary of the statements *)
(* ===================================================================== *)

(** The state a computation ends in, and what it returns. *)
Definition exec {S A : Type} (m : M S A) (s : S) : S := snd (m s).
Definition outcome {S A : Type} (m : M S A) (s : S) : result A := fst (m s).

(** Every character of the string is in the class. *)
Fixpoint string_forall (c : ascii -> bool) (s : string) : bool :=
  match s with
  | EmptyString => true
  | String a s' => c a && string_forall c s'
  end.

(** The text is plain ASCII: every character of it is below 128. *)
Definition plain_ascii (s : string) : Prop :=
  string_forall (fun c => (nat_of_ascii c <? 128)%nat) s = true.

(** A non-empty run of decimal digits. *)
Definition is_number (s : string) : Prop :=
  s <> EmptyString /\ string_forall is_digit s = true.

(** The text does not go on with a character of the class. *)
Definition stops (c : ascii -> bool) (rest : string) : Prop :=
  match rest with
  | String a _ => c a = false
  | EmptyString => True
  end.

(** The declaration [NEXT_PAGE_VAR_PATTERN] looks for: the word var,
    blanks, the word nextpage, blanks, an equals sign, blanks, and the
    path between double quotes. *)
Definition nextpage_declaration (ws1 ws2 ws3 path : string) : string :=
  ("var" ++ ws1 ++ "nextpage" ++ ws2 ++ "=" ++ ws3
   ++ String dquote path ++ String dquote EmptyString)%string.

(** Any character but the letter v. *)
Definition not_v (c : ascii) : bool := negb (Ascii.eqb c "v").

(** The state after the lines have been printed. *)
Definition printed {DS : Type} (lines : list diag) (st : RState DS) : RState DS :=
  {| book := book st; downloader := downloader st;
     stdout := stdout st ++ lines; requested := requested st |}.

(** The chapter a successful resolution leaves behind. *)
Definition resolved_chapter (ch : Chapter) (resolved : string) : Chapter :=
  set_needs_resolve false (set_url resolved (set_original_url (Some (url ch)) ch)).

(** The three assignments that end a successful resolution, as one
    update of the chapter. *)
Definition commit (original resolved : string) (ch : Chapter) : Chapter :=
  set_needs_resolve false (set_url resolved (set_original_url (Some original) ch)).

(** What a pass may do to a chapter: nothing, or resolve a chapter that
    needed it to a non-empty address. *)
Definition chapter_rel (ch ch' : Chapter) : Prop :=
  ch' = ch
  \/ (needs_resolve ch = true
      /\ exists resolved, resolved <> EmptyString /\ ch' = resolved_chapter ch resolved).

Definition opt_rel {A : Type} (R : A -> A -> Prop) (o o' : option A) : Prop :=
  match o, o' with
  | Some a, Some a' => R a a'
  | None, None => True
  | _, _ => False
  end.

(** The positions the two nested loops of the pass go through, in
    order, each with the volume object the outer loop holds. *)
Definition targets (vols : list Volume) : list (nat * Volume * nat) :=
  flat_map (fun '(vi, vol) =>
              map (fun '(ci, _) => (vi, vol, ci)) (enumerate (chapters vol)))
           (enumerate vols).

Definition position (t : nat * Volume * nat) : nat * nat :=
  let '(vi, _, ci) := t in (vi, ci).

(** The time of the first GET among some events. *)
Fixpoint first_get_time (evs : list event) : option Q :=
  match evs with
  | [] => None
  | Get t _ _ :: _ => Some t
  | _ :: evs' => first_get_time evs'
  end.

(** A property of the state that holds between the start and the end
    of a computation, whatever the start. *)
Definition always {A : Type} (R : DState -> DState -> Prop) (m : M DState A) : Prop :=
  forall s, R s (exec m s).

(** The computation sends at most [n] GETs. *)
Definition sends {A : Type} (n : nat) (m : M DState A) : Prop :=
  forall s, (sent (world (exec m s)) <= sent (world s) + n)%nat.

(** It sends none. *)
Definition same_sent (s s' : DState) : Prop := sent (world s') = sent (world s).

(** It only adds to the record of events. *)
Definition trace_grows (s s' : DState) : Prop :=
  exists evs, trace (world s') = trace (world s) ++ evs.

(** The object is the same before and after. *)
Definition same_self (s s' : DState) : Prop := self s' = self s.

(** A computation that leaves the object as it is when it raises, and
    changes nothing but [_last_request_ts], set to the reading of the
    clock at the end, when it returns. *)
Definition settles {A : Type} (m : M DState A) : Prop :=
  forall s,
    match m s with
    | (Ok _, s') => self s' = set_last_request_ts (clock (world s')) (self s)
    | (Raise _, s') => self s' = self s
    end.

(** The state right after the choice of a User-Agent and the GET sent
    from the state [s] with the headers [hs]. *)
Definition after_get (env : Env) (url : string) (hs : Headers) (s : DState) : DState :=
  {| self := self s;
     world := {| clock := clock (world s) + took env (blocked (world s));
                 blocked := S (blocked (world s)); draws := S (draws (world s));
                 sent := S (sent (world s));
                 trace := trace (world s) ++ [Get (clock (world s)) url hs] |} |}.

(** The body of a response as [download] returns it when no Brotli
    encoding is declared: decoded with the encoding sniffed from the
    bytes when there is one and the decoding succeeds, the text of the
    response otherwise. *)
Definition sniffed_text (env : Env) (r : Response) : string :=
  match truthy (apparent_encoding r) with
  | Some enc =>
      match bytes_decode env (content r) enc with
      | Ok decoded => decoded
      | Raise _ => text r
      end
  | None => text r
  end.

(** A GET of the record goes to [u], with the headers [H] of the
    session in which either the User-Agent has been replaced by one of
    the pool or Accept-Encoding has been removed. *)
Definition request_of (H : Headers) (u : string) (e : event) : Prop :=
  match e with
  | Get _ v hs =>
      v = u
      /\ ((exists ua, In ua USER_AGENTS /\ hs = headers_set "User-Agent" ua H)
          \/ hs = headers_pop "Accept-Encoding" H)
  | _ => True
  end.

(** From a state whose session has the headers [H], the computation
    keeps them and records such GETs only. *)
Definition requests (H : Headers) (u : string) (s s' : DState) : Prop :=
  session_headers (self s) = H ->
  session_headers (self s') = H
  /\ exists evs, trace (world s') = trace (world s) ++ evs /\ Forall (request_of H u) evs.

(** The text of the Retry-After header the handler reads off the
    exception. *)
Definition retry_after_text (e : exn) : string :=
  match e with
  | RequestException (Some response) => headers_get (headers response) "Retry-After" "0"
  | _ => "0"
  end.

(** The texts [py_int] reads as [int] does: characters below 128, and
    not more than 4300 of them, the number of digits past which [int]
    refuses a text. *)
Definition int_text (s : string) : Prop :=
  plain_ascii s /\ (String.length s <= 4300)%nat.

(** The response does not declare a Brotli encoding. *)
Definition not_brotli (r : Response) : Prop :=
  contains "br" (lower (headers_get (headers r) "Content-Encoding" EmptyString)) = false.

(** Document order on positions. *)
Definition precedes (p q : nat * nat) : Prop :=
  (fst p < fst q)%nat \/ (fst p = fst q /\ (snd p < snd q)%nat).

(** The downloader after it has been handed the addresses [new], the
    latest first, one after the other. *)
Definition served {DS : Type} (download : string -> M DS string) (new : list string)
    (d : DS) : DS :=
  fold_right (fun u d' => snd (download u d')) d new.

(** The chapter at the position needs resolving. *)
Definition to_resolve (vols : list Volume) (p : nat * nat) : bool :=
  match chapter_at vols (fst p) (snd p) with
  | Some ch => needs_resolve ch
  | None => false
  end.

(** The number of chapters of the book that need resolving. *)
Definition placeholders (vols : list Volume) : nat :=
  List.length (filter needs_resolve (flat_map chapters vols)).

(** The volume element has a name. *)
Definition has_name (d : VolumeDiv) : bool :=
  match h2_text d with
  | Some _ => true
  | None => false
  end.

(** The chapter links of the volume elements that have a name, in
    document order. *)
Definition named_links (volume_divs : list VolumeDiv) : list ChapterLink :=
  flat_map chapter_links (filter has_name volume_divs).

(** The link points to the placeholder. *)
Definition is_placeholder (l : ChapterLink) : bool :=
  match link_href l with
  | Some h => String.eqb h PLACEHOLDER
  | None => false
  end.

(** The link is kept as a chapter: it points to the placeholder, or
    [urljoin] accepts its address. *)
Definition is_kept (urljoin_raises : string -> string -> bool) (base_url : string)
    (l : ChapterLink) : bool :=
  String.eqb (href_of l) PLACEHOLDER || negb (urljoin_raises base_url (href_of l)).

(** The line says that a volume has no name. *)
Definition is_name_line (d : catalog_diag) : bool :=
  match d with
  | VolumeNameNotFound => true
  | _ => false
  end.

(** The numbers [first], [first + 1], ... [first + n - 1]. *)
Definition numbers_from (first : Z) (n : nat) : list Z :=
  map (fun i => first + Z.of_nat i) (seq 0 n).

(** The line reports a walk that found no next chapter. *)
Definition walk_failure (d : diag) : bool :=
  match d with
  | NoIdsInPrevUrl _ | CycleDetected _ | DownloadFailed _ _ | NextpageNotFound _
  | NoIdsInNextpage _ | OtherBook _ _ _ | HopsExceeded _ _ => true
  | _ => false
  end.

(** The resolution of the chapter at [(vi, ci)] succeeds in the state
    [st], with the address [resolved]: the backward search finds a
    chapter with a usable address, and the walk from that address
    returns [resolved], which is not empty. *)
Definition resolution_succeeds (urljoin : string -> string -> string)
    (urljoin_raises : string -> string -> bool) (script_texts : string -> list string)
    {DS : Type} (download : string -> M DS string) (base_url : string)
    (st : RState DS) (vi ci : nat) (resolved : string) : Prop :=
  exists pv pc prev,
    find_prev_normal_chapter (volumes (book st)) (Z.of_nat vi) (Z.of_nat ci)
    = Ok (Some (pv, pc, prev))
    /\ url prev <> EmptyString
    /\ url prev <> PLACEHOLDER
    /\ outcome (resolve_next_chapter_url_err urljoin urljoin_raises script_texts download
                  (url prev) base_url DEFAULT_MAX_HOPS) st
       = Ok (Some resolved)
    /\ resolved <> EmptyString.

(** The first position comes before the second and the book has no
    chapter in between. *)
Definition adjacent (vols : list Volume) (p q : nat * nat) : Prop :=
  precedes p q
  /\ forall v c ch, chapter_at vols v c = Some ch ->
       ~ (precedes p (v, c) /\ precedes (v, c) q).

(** Two lists of volumes are as long as each other and hold the same
    chapters before a position. *)
Definition agree_before (vi ci : nat) (vols vols' : list Volume) : Prop :=
  List.length vols = List.length vols'
  /\ forall v c, precedes (v, c) (vi, ci) -> chapter_at vols v c = chapter_at vols' v c.

(** A downloader whose answer depends on the address alone, whatever
    its state, as on a site that does not change and with a network
    that does not fail now and then. *)
Definition stateless {DS : Type} (download : string -> M DS string) : Prop :=
  exists site : string -> result string,
    forall full_url d, fst (download full_url d) = site full_url.

(** No chapter of the book needs resolving. *)
Definition all_resolved (vols : list Volume) : Prop :=
  forall vi ci ch, chapter_at vols vi ci = Some ch -> needs_resolve ch = false.


(* ===================================================================== *)
(** * Concrete surroundings for the examples *)
(* ===================================================================== *)

Definition SITE : string := "https://www.linovelib.com".

(** [urljoin] where the base has no path and the reference starts with
    one slash: the reference is appended. *)
Definition urljoin_root (base reference : string) : string :=
  (base ++ reference)%string.

(** The script texts of a page that is one script element. *)
Definition one_script (html : string) : list string := [html].

(** Such a page, declaring [path] as its next page. *)
Definition page_pointing_to (path : string) : string :=
  ("var nextpage=" ++ String dquote path ++ String dquote ";")%string.

(** Chapter 262081 of book 4519 has two pages; 262082, 262083 and
    262084 have one page each. *)
Definition book_4519 (full_url : string) : result string :=
  if String.eqb full_url (SITE ++ "/novel/4519/262081.html") then
    Ok (page_pointing_to "/novel/4519/262081_2.html")
  else if String.eqb full_url (SITE ++ "/novel/4519/262081_2.html") then
    Ok (page_pointing_to "/novel/4519/262082.html")
  else if String.eqb full_url (SITE ++ "/novel/4519/262082.html") then
    Ok (page_pointing_to "/novel/4519/262083.html")
  else if String.eqb full_url (SITE ++ "/novel/4519/262083.html") then
    Ok (page_pointing_to "/novel/4519/262084.html")
  else Raise (RequestException None).

(** A chapter whose second page points back to its first. *)
Definition looping_pages (full_url : string) : result string :=
  if String.eqb full_url (SITE ++ "/novel/7/100.html") then
    Ok (page_pointing_to "/novel/7/100_2.html")
  else if String.eqb full_url (SITE ++ "/novel/7/100_2.html") then
    Ok (page_pointing_to "/novel/7/100.html")
  else Raise (RequestException None).

(** A chapter whose page declares a next page that [urljoin] refuses:
    the brackets of an IPv6 host are not closed. *)
Definition broken_pointer_pages (full_url : string) : result string :=
  if String.eqb full_url (SITE ++ "/novel/4519/262081.html") then
    Ok (page_pointing_to "//[/novel/4519/262082.html")
  else Raise (RequestException None).

(** A downloader without state that serves the pages of [site]. *)
Definition static_download (site : string -> result string) : string -> M unit string :=
  fun full_url d => (site full_url, d).

Definition listed_chapter (i : Z) (t address : string) : Chapter :=
  {| index := i; title := t; url := address; needs_resolve := false;
     original_url := None |}.

Definition hidden_chapter (i : Z) (t : string) : Chapter :=
  {| index := i; title := t; url := PLACEHOLDER; needs_resolve := true;
     original_url := None |}.

Definition one_volume (chs : list Chapter) : BookStructure :=
  {| name := "book"; book_id := "4519";
     volumes := [ {| volume_name := "volume 1"; chapters := chs |} ] |}.

(** One listed chapter followed by three hidden ones. *)
Definition cascade_book : BookStructure :=
  one_volume [ listed_chapter 0 "c0" (SITE ++ "/novel/4519/262081.html");
               hidden_chapter 1 "c1"; hidden_chapter 2 "c2"; hidden_chapter 3 "c3" ].

(** The same four chapters over three volumes, the second one empty. *)
Definition three_volume_book : BookStructure :=
  {| name := "book"; book_id := "4519";
     volumes :=
       [ {| volume_name := "volume 1";
            chapters := [ listed_chapter 0 "c0" (SITE ++ "/novel/4519/262081.html");
                          hidden_chapter 1 "c1" ] |};
         {| volume_name := "volume 2"; chapters := [] |};
         {| volume_name := "volume 3";
            chapters := [ hidden_chapter 2 "c2"; hidden_chapter 3 "c3" ] |} ] |}.

(** Two hidden chapters, then a listed one and a hidden one. *)
Definition late_start_book : BookStructure :=
  one_volume [ hidden_chapter 0 "c0"; hidden_chapter 1 "c1";
               listed_chapter 2 "c2" (SITE ++ "/novel/4519/262081.html");
               hidden_chapter 3 "c3" ].

(** A book of hidden chapters only. *)
Definition unlisted_book : BookStructure :=
  one_volume [ hidden_chapter 0 "c0"; hidden_chapter 1 "c1" ].

(** A book that starts with a hidden chapter. *)
Definition headless_book : BookStructure :=
  one_volume [ hidden_chapter 0 "c0";
               listed_chapter 1 "c1" (SITE ++ "/novel/4519/262081.html");
               hidden_chapter 2 "c2" ].

(** One listed chapter followed by one hidden chapter. *)
Definition short_book : BookStructure :=
  one_volume [ listed_chapter 0 "c0" (SITE ++ "/novel/4519/262081.html");
               hidden_chapter 1 "c1" ].

Definition start_with {DS : Type} (b : BookStructure) (d : DS) : RState DS :=
  {| book := b; downloader := d; stdout := []; requested := [] |}.

(** A 200 response with an HTML body. *)
Definition html_response (body : string) : Response :=
  {| status_code := 200;
     headers := [("Content-Type", "text/html; charset=utf-8")];
     content := body; text := body;
     encoding := Some "utf-8"; apparent_encoding := Some "utf-8" |}.

(** The same, declared as Brotli-compressed. *)
Definition brotli_response (body : string) : Response :=
  {| status_code := 200;
     headers := [("Content-Type", "text/html; charset=utf-8"); ("Content-Encoding", "br")];
     content := body; text := body;
     encoding := Some "utf-8"; apparent_encoding := Some "utf-8" |}.

(** A 429 response with a Retry-After header. *)
Definition too_many_requests (retry_after : string) : Response :=
  {| status_code := 429;
     headers := [("Retry-After", retry_after)];
     content := EmptyString; text := EmptyString;
     encoding := None; apparent_encoding := None |}.

(** Surroundings in which the n-th GET is answered by [answer n]; a GET
    takes no time, sleeps are exact, the random draws are one half and
    index 0, the brotli module is missing. *)
Definition surroundings (answer : nat -> string -> result Response) : Env :=
  {| net_get := fun n full_url _ _ => answer n full_url;
     took := fun _ => 0%Q;
     random_random := fun _ => (1 # 2)%Q;
     random_below := fun _ _ => 0%nat;
     brotli_decompress := None;
     bytes_decode := fun data _ => Ok data |}.

Definition serve (site : string -> result string) (full_url : string) : result Response :=
  match site full_url with
  | Ok body => Ok (html_response body)
  | Raise e => Raise e
  end.

(** The site answers every GET. *)
Definition steady_env : Env := surroundings (fun _ => serve book_4519).

(** The connection fails on the first GET only. *)
Definition flaky_env : Env :=
  surroundings (fun n full_url =>
                  match n with
                  | O => Raise (RequestException None)
                  | _ => serve book_4519 full_url
                  end).

(** The connection always fails. *)
Definition unreachable_env : Env :=
  surroundings (fun _ _ => Raise (RequestException None)).

(** Every answer is declared as Brotli-compressed. *)
Definition brotli_env : Env :=
  surroundings (fun _ full_url =>
                  match book_4519 full_url with
                  | Ok body => Ok (brotli_response body)
                  | Raise e => Raise e
                  end).

(** The first GET is answered by a 429 that asks for one second. *)
Definition throttling_env : Env :=
  surroundings (fun n full_url =>
                  match n with
                  | O => Ok (too_many_requests "1")
                  | _ => serve book_4519 full_url
                  end).

(** [session.get] raises an exception that is no
    [RequestException]. *)
Definition faulty_env : Env :=
  surroundings (fun _ _ => Raise (OtherException "RuntimeError")).

(** A stand-in for the addresses [urljoin] refuses: those with an
    opening bracket and no closing one. *)
Definition unpaired_bracket (base url : string) : bool :=
  contains "[" url && negb (contains "]" url).

(** A stand-in for the durations [time.sleep] refuses: those of more
    than 9223372036 seconds, about what 63 bits hold in nanoseconds. *)
Definition past_the_clock (secs : Q) : bool := Qltb 9223372036 secs.

(** A catalogue page, and a site that answers every GET with it. *)
Definition catalog_page : string :=
  "<!DOCTYPE html><html><head><title>catalog</title></head><body><div class='volume clearfix'><h2 class='v-line'>1</h2></div></body></html>".

Definition catalog_env : Env :=
  surroundings (fun _ _ => Ok (html_response catalog_page)).

(** The volume elements of a catalogue: a volume with a chapter, a
    link that cannot be joined and a placeholder, a volume without a
    name, a volume without chapters, and a volume with one chapter. *)
Definition catalog_divs : list VolumeDiv :=
  [ {| h2_text := Some "Volume 1";
       cover_href := Some "/novel/4519/vol_1.html";
       cover_img := Some (Some "/cover_1.jpg", None);
       chapter_links :=
         [ {| link_href := Some "/novel/4519/262081.html"; link_text := "Chapter 1" |};
           {| link_href := Some "//[/novel/4519/0.html"; link_text := "Broken" |};
           {| link_href := Some "javascript:cid(0)"; link_text := "Chapter 2" |} ] |};
    {| h2_text := None;
       cover_href := None;
       cover_img := None;
       chapter_links :=
         [ {| link_href := Some "/novel/4519/1.html"; link_text := "Notice" |} ] |};
    {| h2_text := Some "Volume 2";
       cover_href := None;
       cover_img := None;
       chapter_links := [] |};
    {| h2_text := Some "Volume 3";
       cover_href := Some EmptyString;
       cover_img := Some (None, Some "/cover_3.jpg");
       chapter_links :=
         [ {| link_href := Some "/novel/4519/262083.html"; link_text := "Chapter 3" |} ] |} ].

(** A downloader as [Downloader(retry_times=k)] builds it, in a world
    whose clock reads 100. *)
Definition fresh_downloader (k : Z) : DState :=
  {| self := Downloader__init__ SITE k 1 1 1 "Mozilla/5.0";
     world := {| clock := 100; blocked := 0; draws := 0; sent := 0; trace := [] |} |}.

(* ===================================================================== *)
(** * Facts on the monad and on the list helpers *)
(* ===================================================================== *)

Ltac run_monad :=
  unfold bind, ret, raise, gets, modify, try_except, any_Exception in *;
  simpl in *.

Lemma for_each_app {S A : Type} (l1 l2 : list A) (body : A -> M S unit) (s : S) :
  for_each (l1 ++ l2) body s = (for_each l1 body ;; for_each l2 body) s.
Proof.
  revert s. induction l1 as [|a l1 IH]; intro s; simpl.
  - reflexivity.
  - unfold bind in *. destruct (body a s) as [[[]|e] s1]; [|reflexivity].
    apply IH.
Qed.

Lemma for_each_ext {S A : Type} (l : list A) (f g : A -> M S unit) :
  (forall a s, In a l -> f a s = g a s) ->
  forall s, for_each l f s = for_each l g s.
Proof.
  induction l as [|a l IH]; intros H s; simpl; [reflexivity|].
  unfold bind. rewrite (H a s (or_introl eq_refl)).
  destruct (g a s) as [[[]|e] s1]; [|reflexivity].
  apply IH. intros b s2 Hb. apply H. now right.
Qed.

Lemma for_each_map {S A B : Type} (h : A -> B) (l : list A) (body : B -> M S unit)
    (s : S) :
  for_each (map h l) body s = for_each l (fun a => body (h a)) s.
Proof.
  revert s. induction l as [|a l IH]; intro s; simpl; [reflexivity|].
  unfold bind. destruct (body (h a) s) as [[[]|e] s1]; [apply IH|reflexivity].
Qed.

Lemma for_each_flat_map {S A B : Type} (h : A -> list B) (l : list A)
    (body : B -> M S unit) (s : S) :
  for_each (flat_map h l) body s = for_each l (fun a => for_each (h a) body) s.
Proof.
  revert s. induction l as [|a l IH]; intro s; simpl; [reflexivity|].
  rewrite for_each_app. unfold bind.
  destruct (for_each (h a) body s) as [[[]|e] s1]; [apply IH|reflexivity].
Qed.

Lemma enumerate_from_app {A : Type} (n : nat) (l1 l2 : list A) :
  enumerate_from n (l1 ++ l2)
  = enumerate_from n l1 ++ enumerate_from (n + List.length l1) l2.
Proof.
  revert n. induction l1 as [|a l1 IH]; intro n; simpl.
  - now rewrite Nat.add_0_r.
  - rewrite IH. now rewrite Nat.add_succ_r.
Qed.

Lemma in_enumerate_from {A : Type} (n : nat) (l : list A) (i : nat) (a : A) :
  In (i, a) (enumerate_from n l) <-> (n <= i)%nat /\ nth_error l (i - n) = Some a.
Proof.
  revert n. induction l as [|b l IH]; intro n; simpl.
  - split; [tauto|]. intros [_ H]. now destruct (i - n)%nat.
  - rewrite IH. split.
    + intros [H|[H1 H2]].
      * inversion H; subst. split; [lia|]. now rewrite Nat.sub_diag.
      * split; [lia|]. replace (i - n)%nat with (S (i - S n)) by lia. exact H2.
    + intros [H1 H2]. destruct (Nat.eq_dec i n) as [->|Hne].
      * left. rewrite Nat.sub_diag in H2. simpl in H2. congruence.
      * right. split; [lia|].
        replace (i - n)%nat with (S (i - S n)) in H2 by lia. exact H2.
Qed.

Lemma in_range_down (start c : Z) : In c (range_down start) -> 0 <= c <= start.
Proof.
  unfold range_down. rewrite in_map_iff. intros [k [<- Hk]].
  apply in_seq in Hk. lia.
Qed.

Lemma range_down_cons (start : Z) :
  0 <= start -> range_down start = start :: range_down (start - 1).
Proof.
  intro H. unfold range_down.
  replace (Z.to_nat (start + 1)) with (S (Z.to_nat (start - 1 + 1))) by lia.
  rewrite <- cons_seq. simpl. f_equal; [lia|].
  rewrite <- seq_shift, map_map. apply map_ext. intro k. lia.
Qed.

Lemma range_down_neg (start : Z) : start < 0 -> range_down start = [].
Proof.
  intro H. unfold range_down. now replace (Z.to_nat (start + 1)) with 0%nat by lia.
Qed.

Lemma py_index_nat {A : Type} (l : list A) (n : nat) :
  py_index l (Z.of_nat n)
  = match nth_error l n with Some a => Ok a | None => Raise IndexError end.
Proof.
  unfold py_index.
  assert (E : (Z.of_nat n <? 0) = false) by (apply Z.ltb_ge; lia).
  rewrite !E. now rewrite Nat2Z.id.
Qed.

Lemma py_index_nonneg {A : Type} (l : list A) (i : Z) :
  0 <= i ->
  py_index l i
  = match nth_error l (Z.to_nat i) with Some a => Ok a | None => Raise IndexError end.
Proof.
  intro H. rewrite <- py_index_nat. f_equal. lia.
Qed.

Lemma NoDup_middle {A : Type} (l1 mid l2 : list A) (x : A) :
  NoDup (l1 ++ mid ++ l2) -> In x mid -> ~ In x l1 /\ ~ In x l2.
Proof.
  intros Hnodup Hin. apply in_split in Hin. destruct Hin as (m1 & m2 & ->).
  rewrite <- app_assoc in Hnodup. simpl in Hnodup.
  rewrite app_assoc in Hnodup. apply NoDup_remove_2 in Hnodup.
  split; intro H; apply Hnodup; rewrite !in_app_iff; tauto.
Qed.

Lemma app_eq_middle {A : Type} (l1 l2 pre post : list A) (t : A) :
  l1 ++ l2 = pre ++ t :: post ->
  (exists post1, l1 = pre ++ t :: post1 /\ post = post1 ++ l2)
  \/ (exists pre2, pre = l1 ++ pre2 /\ l2 = pre2 ++ t :: post).
Proof.
  revert pre. induction l1 as [|a l1 IH]; intros pre H; simpl in H.
  - right. now exists pre.
  - destruct pre as [|b pre]; simpl in H; inversion H; subst.
    + left. now exists l1.
    + destruct (IH pre H2) as [(post1 & -> & ->)|(pre2 & -> & ->)].
      * left. now exists post1.
      * right. now exists pre2.
Qed.

Lemma seq_split_later (k len : nat) (l1 l2 : list nat) (x : nat) :
  seq k len = l1 ++ x :: l2 -> forall y, In y l2 -> (x < y)%nat.
Proof.
  revert k len. induction l1 as [|a l1 IH]; intros k len H y Hy.
  - destruct len as [|len]; simpl in H; inversion H; subst.
    apply in_seq in Hy. lia.
  - destruct len as [|len]; simpl in H; inversion H; subst.
    eapply IH; eauto.
Qed.

Lemma update_nth_length {A : Type} (n : nat) (f : A -> A) (l : list A) :
  List.length (update_nth n f l) = List.length l.
Proof.
  revert n. induction l as [|a l IH]; intros [|n]; simpl; auto.
Qed.

Lemma nth_error_update_nth_same {A : Type} (n : nat) (f : A -> A) (l : list A) :
  nth_error (update_nth n f l) n = option_map f (nth_error l n).
Proof.
  revert n. induction l as [|a l IH]; intros [|n]; simpl; auto.
Qed.

Lemma nth_error_update_nth_other {A : Type} (n m : nat) (f : A -> A) (l : list A) :
  n <> m -> nth_error (update_nth n f l) m = nth_error l m.
Proof.
  revert n m. induction l as [|a l IH]; intros [|n] [|m] H; simpl; auto.
  congruence.
Qed.

Lemma update_nth_compose {A : Type} (n : nat) (f g : A -> A) (l : list A) :
  update_nth n g (update_nth n f l) = update_nth n (fun a => g (f a)) l.
Proof.
  revert n. induction l as [|a l IH]; intros [|n]; simpl; auto.
  now rewrite IH.
Qed.

Lemma update_nth_none {A : Type} (n : nat) (f : A -> A) (l : list A) :
  nth_error l n = None -> update_nth n f l = l.
Proof.
  revert n. induction l as [|a l IH]; intros [|n] H; simpl in *; auto.
  - discriminate.
  - now rewrite IH.
Qed.

(** ** The two patterns and [int], on examples *)

Example extract_ids_first_page :
  _extract_article_and_chapter "/novel/4519/262081.html" = Some ("4519", "262081").
Proof. reflexivity. Qed.

Example extract_ids_second_page :
  _extract_article_and_chapter "/novel/4519/262081_2.html" = Some ("4519", "262081").
Proof. reflexivity. Qed.

Example extract_ids_full_url :
  _extract_article_and_chapter "https://www.linovelib.com/novel/4519/262081_3.html"
  = Some ("4519", "262081").
Proof. reflexivity. Qed.

Example extract_ids_placeholder :
  _extract_article_and_chapter "javascript:cid(0)" = None.
Proof. reflexivity. Qed.

Example extract_ids_leftmost :
  _extract_article_and_chapter "/novel/1/3.html/../../../novel/1/2.html" = Some ("1", "3").
Proof. reflexivity. Qed.

Example extract_ids_needs_html :
  _extract_article_and_chapter "/novel/4519/262081_.html" = None.
Proof. reflexivity. Qed.

Example nextpage_of_a_page :
  _extract_nextpage_path one_script
    ("var prevpage=1; var  nextpage = "
     ++ String dquote "/novel/4519/262081_2.html" ++ String dquote "; var x=2;")%string
  = Some "/novel/4519/262081_2.html".
Proof. reflexivity. Qed.

Example py_int_examples :
  py_int "120" = Some 120 /\ py_int " 7 " = Some 7 /\ py_int "-3" = Some (-3)
  /\ py_int "1_000" = Some 1000 /\ py_int "Wed, 21 Oct 2015 07:28:00 GMT" = None
  /\ py_int EmptyString = None /\ py_int "1__0" = None /\ py_int "12_" = None.
Proof. repeat split; reflexivity. Qed.

(** ** The matcher and the pattern of the chapter addresses *)

Lemma strip_prefix_sound (p s rest : string) :
  strip_prefix p s = Some rest -> s = (p ++ rest)%string.
Proof.
  revert s. induction p as [|a p IH]; intros [|b s] H; simpl in *; try congruence.
  destruct (Ascii.eqb_spec a b) as [->|]; [|discriminate].
  f_equal. now apply IH.
Qed.

Lemma strip_prefix_app (p rest : string) : strip_prefix p (p ++ rest) = Some rest.
Proof.
  induction p as [|a p IH]; simpl; [reflexivity|].
  now rewrite Ascii.eqb_refl.
Qed.

Lemma star_k_sound {R : Type} (c : ascii -> bool) (s : string) (k : string -> option R)
    (r : R) :
  star_k c s k = Some r ->
  exists pre rest,
    s = (pre ++ rest)%string /\ string_forall c pre = true /\ k rest = Some r.
Proof.
  induction s as [|a s IH]; simpl; intro H.
  - now exists EmptyString, EmptyString.
  - destruct (c a) eqn:Ha.
    + destruct (star_k c s k) as [r'|].
      * destruct (IH H) as (pre & rest & -> & Hpre & Hk).
        exists (String a pre), rest. simpl. rewrite Ha, Hpre. auto.
      * now exists EmptyString, (String a s).
    + now exists EmptyString, (String a s).
Qed.

Lemma star_k_longest {R : Type} (c : ascii -> bool) (pre rest : string)
    (k : string -> option R) (r : R) :
  string_forall c pre = true -> stops c rest -> k rest = Some r ->
  star_k c (pre ++ rest) k = Some r.
Proof.
  intros Hpre Hrest Hk. induction pre as [|a pre IH]; simpl in *.
  - destruct rest as [|b rest]; simpl in *; [exact Hk|]. now rewrite Hrest.
  - apply andb_prop in Hpre. destruct Hpre as [Ha Hpre]. rewrite Ha.
    now rewrite (IH Hpre).
Qed.

Lemma substring_prefix (pre rest : string) :
  substring 0 (String.length pre) (pre ++ rest) = pre.
Proof.
  induction pre as [|a pre IH]; simpl.
  - now destruct rest.
  - now rewrite IH.
Qed.

Lemma length_append (s1 s2 : string) :
  String.length (s1 ++ s2) = (String.length s1 + String.length s2)%nat.
Proof. induction s1 as [|a s1 IH]; simpl; [reflexivity|now rewrite IH]. Qed.

Lemma append_assoc (s1 s2 s3 : string) :
  ((s1 ++ s2) ++ s3 = s1 ++ (s2 ++ s3))%string.
Proof. induction s1 as [|a s1 IH]; simpl; [reflexivity|now rewrite IH]. Qed.

Lemma consumed_app (pre rest : string) : consumed (pre ++ rest) rest = pre.
Proof.
  unfold consumed. rewrite length_append.
  replace (String.length pre + String.length rest - String.length rest)%nat
    with (String.length pre) by lia.
  apply substring_prefix.
Qed.

Lemma search_sound (r : regex) (s : string) (caps : list string) :
  search r s = Some caps ->
  exists pre s',
    s = (pre ++ s')%string /\ rmatch r s' [] (fun _ caps => Some caps) = Some caps.
Proof.
  induction s as [|a s IH]; simpl; intro H.
  - destruct (rmatch r "" [] (fun _ caps => Some caps)) as [caps'|] eqn:E; [|discriminate].
    exists EmptyString, EmptyString. split; [reflexivity|]. congruence.
  - destruct (rmatch r (String a s) [] (fun _ caps => Some caps)) as [caps'|] eqn:E.
    + exists EmptyString, (String a s). split; [reflexivity|]. congruence.
    + destruct (IH H) as (pre & s' & -> & Hm). now exists (String a pre), s'.
Qed.

Lemma chapter_id_match_sound (s : string) (caps : list string) :
  rmatch CHAPTER_ID_PATTERN s [] (fun _ caps => Some caps) = Some caps ->
  exists a c page post,
    caps = [a; c] /\ is_number a /\ is_number c
    /\ s = ("/novel/" ++ a ++ "/" ++ c ++ page ++ ".html" ++ post)%string
    /\ (page = EmptyString \/ exists p, page = ("_" ++ p)%string /\ is_number p).
Proof.
  unfold CHAPTER_ID_PATTERN. cbn [seqs rmatch]. intro H.
  destruct (strip_prefix "/novel/" s) as [r1|] eqn:E1; [|discriminate].
  apply strip_prefix_sound in E1. subst s.
  destruct r1 as [|a1 r1]; [discriminate|].
  destruct (is_digit a1) eqn:Ha1; [|discriminate].
  apply star_k_sound in H. destruct H as (pre1 & rest1 & -> & Hpre1 & H).
  destruct (strip_prefix "/" rest1) as [r2|] eqn:E2; [|discriminate].
  apply strip_prefix_sound in E2. subst rest1.
  destruct r2 as [|a2 r2]; [discriminate|].
  destruct (is_digit a2) eqn:Ha2; [|discriminate].
  apply star_k_sound in H. destruct H as (pre2 & rest2 & -> & Hpre2 & H).
  change (String a1 (pre1 ++ "/" ++ String a2 (pre2 ++ rest2)))%string
    with (String a1 pre1 ++ "/" ++ String a2 (pre2 ++ rest2))%string in H.
  change (String a2 (pre2 ++ rest2)) with (String a2 pre2 ++ rest2)%string in H.
  rewrite !consumed_app in H.
  exists (String a1 pre1), (String a2 pre2).
  assert (N1 : is_number (String a1 pre1))
    by (split; [discriminate|simpl; now rewrite Ha1]).
  assert (N2 : is_number (String a2 pre2))
    by (split; [discriminate|simpl; now rewrite Ha2]).
  destruct (strip_prefix "_" rest2) as [r3|] eqn:E3.
  - apply strip_prefix_sound in E3. subst rest2.
    destruct r3 as [|a3 r3].
    + (* no digit after the underscore: the group is left out *)
      destruct (strip_prefix ".html" "_") eqn:E; [discriminate E|discriminate H].
    + destruct (is_digit a3) eqn:Ha3.
      * match type of H with
        | match ?m with _ => _ end = _ => destruct m as [caps'|] eqn:E4
        end.
        -- apply star_k_sound in E4. destruct E4 as (pre3 & rest3 & -> & Hpre3 & E4).
           destruct (strip_prefix ".html" rest3) as [post|] eqn:E5; [|discriminate].
           apply strip_prefix_sound in E5. subst rest3.
           exists ("_" ++ String a3 pre3)%string, post.
           inversion E4; subst. inversion H; subst.
           repeat split; auto; try apply N1; try apply N2.
           right. exists (String a3 pre3). split; [reflexivity|].
           split; [discriminate|simpl; now rewrite Ha3].
        -- destruct (strip_prefix ".html" ("_" ++ String a3 r3)) eqn:E;
             [discriminate E|discriminate H].
      * destruct (strip_prefix ".html" ("_" ++ String a3 r3)) eqn:E;
          [discriminate E|discriminate H].
  - destruct (strip_prefix ".html" rest2) as [post|] eqn:E5; [|discriminate].
    apply strip_prefix_sound in E5. subst rest2.
    exists EmptyString, post. inversion H; subst.
    repeat split; auto; try apply N1; try apply N2.
Qed.

(** Property X1.  On a plain ASCII address, when
    [_extract_article_and_chapter] returns a pair, both components are
    non-empty runs of the digits 0 to 9, and the address holds,
    somewhere, /novel/, the first component, a slash, the second
    component, then nothing or an underscore and a page number, then
    .html *)
Theorem extract_article_and_chapter_sound (path a c : string) :
  plain_ascii path ->
  _extract_article_and_chapter path = Some (a, c) ->
  is_number a /\ is_number c
  /\ exists pre page post,
       path = (pre ++ "/novel/" ++ a ++ "/" ++ c ++ page ++ ".html" ++ post)%string
       /\ (page = EmptyString \/ exists p, page = ("_" ++ p)%string /\ is_number p).
Proof.
  unfold _extract_article_and_chapter. intros _ H.
  destruct (search CHAPTER_ID_PATTERN path) as [caps|] eqn:E; [|discriminate].
  apply search_sound in E. destruct E as (pre & s' & -> & Hm).
  apply chapter_id_match_sound in Hm.
  destruct Hm as (a' & c' & page & post & -> & Na & Nc & -> & Hpage).
  inversion H; subst. split; [exact Na|]. split; [exact Nc|].
  now exists pre, page, post.
Qed.

Lemma is_number_inv (s : string) :
  is_number s -> exists a s', s = String a s' /\ is_digit a = true /\ string_forall is_digit s' = true.
Proof.
  intros [Hne Hall]. destruct s as [|a s']; [congruence|].
  simpl in Hall. apply andb_prop in Hall. destruct Hall. eauto.
Qed.

Lemma consumed_cons_app (a : ascii) (pre rest : string) :
  consumed (String a (pre ++ rest)) rest = String a pre.
Proof. apply (consumed_app (String a pre) rest). Qed.

Lemma rmatch_Seq {R : Type} (r1 r2 : regex) (s : string) (caps : list string)
    (k : string -> list string -> option R) :
  rmatch (Seq r1 r2) s caps k
  = rmatch r1 s caps (fun rest caps' => rmatch r2 rest caps' k).
Proof. reflexivity. Qed.

Lemma rmatch_Lit_app {R : Type} (l rest : string) (caps : list string)
    (k : string -> list string -> option R) :
  rmatch (Lit l) (l ++ rest) caps k = k rest caps.
Proof. cbn [rmatch]. now rewrite strip_prefix_app. Qed.

Lemma rmatch_Lit_fail {R : Type} (l s : string) (caps : list string)
    (k : string -> list string -> option R) :
  strip_prefix l s = None -> rmatch (Lit l) s caps k = None.
Proof. intro H. cbn [rmatch]. now rewrite H. Qed.

Lemma rmatch_Plus_longest {R : Type} (c : ascii -> bool) (a : ascii) (pre rest : string)
    (caps : list string) (k : string -> list string -> option R) (r : R) :
  c a = true -> string_forall c pre = true -> stops c rest ->
  k rest caps = Some r ->
  rmatch (Plus c) (String a pre ++ rest) caps k = Some r.
Proof.
  intros Ha Hpre Hrest Hk. cbn [rmatch append]. rewrite Ha.
  now apply star_k_longest.
Qed.

Lemma rmatch_Group_Plus_longest {R : Type} (c : ascii -> bool) (a : ascii)
    (pre rest : string) (caps : list string) (k : string -> list string -> option R)
    (r : R) :
  c a = true -> string_forall c pre = true -> stops c rest ->
  k rest (caps ++ [String a pre]) = Some r ->
  rmatch (Group (Plus c)) (String a pre ++ rest) caps k = Some r.
Proof.
  intros Ha Hpre Hrest Hk. cbn [rmatch append]. rewrite Ha.
  apply star_k_longest; auto. now rewrite consumed_cons_app.
Qed.

Lemma rmatch_Star_longest {R : Type} (c : ascii -> bool) (pre rest : string)
    (caps : list string) (k : string -> list string -> option R) (r : R) :
  string_forall c pre = true -> stops c rest ->
  k rest caps = Some r ->
  rmatch (Star c) (pre ++ rest) caps k = Some r.
Proof. intros Hpre Hrest Hk. cbn [rmatch]. now apply star_k_longest. Qed.

Lemma rmatch_Opt {R : Type} (r1 : regex) (s : string) (caps : list string)
    (k : string -> list string -> option R) :
  rmatch (Opt r1) s caps k
  = match rmatch r1 s caps k with Some x => Some x | None => k s caps end.
Proof. reflexivity. Qed.

Lemma chapter_id_match_complete (a c page post : string) :
  is_number a -> is_number c ->
  (page = EmptyString \/ exists p, page = ("_" ++ p)%string /\ is_number p) ->
  rmatch CHAPTER_ID_PATTERN ("/novel/" ++ a ++ "/" ++ c ++ page ++ ".html" ++ post)
    [] (fun _ caps => Some caps)
  = Some [a; c].
Proof.
  intros Na Nc Hpage.
  apply is_number_inv in Na. destruct Na as (a1 & a' & -> & Ha1 & Ha').
  apply is_number_inv in Nc. destruct Nc as (c1 & c' & -> & Hc1 & Hc').
  unfold CHAPTER_ID_PATTERN. cbn [seqs].
  rewrite rmatch_Seq, rmatch_Lit_app, rmatch_Seq.
  apply rmatch_Group_Plus_longest; [exact Ha1|exact Ha'|reflexivity|].
  rewrite rmatch_Seq, rmatch_Lit_app, rmatch_Seq.
  apply rmatch_Group_Plus_longest; [exact Hc1|exact Hc'| |].
  - destruct Hpage as [->|(p & -> & _)]; reflexivity.
  - rewrite rmatch_Seq, rmatch_Opt.
    destruct Hpage as [->|(p & -> & Np)].
    + rewrite rmatch_Seq, rmatch_Lit_fail by reflexivity.
      change (EmptyString ++ ".html" ++ post)%string with (".html" ++ post)%string.
      now rewrite rmatch_Lit_app.
    + apply is_number_inv in Np. destruct Np as (p1 & p' & -> & Hp1 & Hp').
      rewrite append_assoc.
      rewrite rmatch_Seq, rmatch_Lit_app.
      rewrite (rmatch_Plus_longest is_digit p1 p' (".html" ++ post) _ _
                 [String a1 a'; String c1 c']);
        [reflexivity|exact Hp1|exact Hp'|reflexivity|now rewrite rmatch_Lit_app].
Qed.

Lemma search_here (r : regex) (s : string) (caps : list string) :
  rmatch r s [] (fun _ caps => Some caps) = Some caps -> search r s = Some caps.
Proof. intro H. destruct s; simpl; now rewrite H. Qed.

Lemma search_skip (r : regex) (a : ascii) (s : string) :
  rmatch r (String a s) [] (fun _ caps => Some caps) = None ->
  search r (String a s) = search r s.
Proof. intro H. simpl. now rewrite H. Qed.

Lemma contains_cons (needle : string) (a : ascii) (hay : string) :
  contains needle (String a hay) = false ->
  String.prefix needle (String a hay) = false /\ contains needle hay = false.
Proof. simpl. intro H. apply orb_false_iff in H. exact H. Qed.

Lemma prefix_cons (a b : ascii) (p s : string) :
  String.prefix (String a p) (String b s) = Ascii.eqb a b && String.prefix p s.
Proof.
  simpl. destruct (ascii_dec a b) as [->|Hne].
  - now rewrite Ascii.eqb_refl.
  - apply Ascii.eqb_neq in Hne. now rewrite Hne.
Qed.

Lemma strip_prefix_cons (a b : ascii) (p s : string) :
  strip_prefix (String a p) (String b s)
  = if Ascii.eqb a b then strip_prefix p s else None.
Proof. reflexivity. Qed.

Ltac inside_level pre :=
  rewrite strip_prefix_cons;
  match goal with
  | H : Ascii.eqb ?x ?y && _ = false |- _ =>
      destruct (Ascii.eqb x y); [simpl andb in H|reflexivity]
  end;
  destruct pre as [|? pre]; [reflexivity|];
  rewrite prefix_cons in *;
  change (String ?c pre ++ ?t)%string with (String c (pre ++ t)).

Lemma novel_not_inside (a : ascii) (pre rest : string) :
  String.prefix "/novel" (String a pre) = false ->
  strip_prefix "/novel/" (String a pre ++ "/novel/" ++ rest) = None.
Proof.
  intro H. rewrite prefix_cons in H.
  change (String a pre ++ "/novel/" ++ rest)%string
    with (String a (pre ++ "/novel/" ++ rest)).
  do 5 inside_level pre.
  rewrite strip_prefix_cons.
  destruct (Ascii.eqb "l" a4); [simpl andb in H|reflexivity].
  destruct pre; discriminate H.
Qed.

Lemma search_past_prefix (pre rest : string) :
  contains "/novel" pre = false ->
  search CHAPTER_ID_PATTERN (pre ++ "/novel/" ++ rest)
  = search CHAPTER_ID_PATTERN ("/novel/" ++ rest).
Proof.
  induction pre as [|a pre IH]; intro H; [reflexivity|].
  apply contains_cons in H. destruct H as [Hhere Hlater].
  change (String a pre ++ "/novel/" ++ rest)%string
    with (String a (pre ++ "/novel/" ++ rest)).
  rewrite search_skip; [now apply IH|].
  unfold CHAPTER_ID_PATTERN. cbn [seqs]. rewrite rmatch_Seq.
  apply rmatch_Lit_fail. now apply novel_not_inside.
Qed.

(** Property X2.  All the pages of a chapter have the identity of the
    chapter: whatever the page suffix (none, or an underscore and a
    number), whatever follows .html and whatever comes before /novel/
    (as long as /novel does not occur in it), the address of book [a],
    chapter [c] is read as [(a, c)]. *)
Theorem extract_article_and_chapter_pages (pre a c page post : string) :
  contains "/novel" pre = false ->
  is_number a -> is_number c ->
  (page = EmptyString \/ exists p, page = ("_" ++ p)%string /\ is_number p) ->
  _extract_article_and_chapter
    (pre ++ "/novel/" ++ a ++ "/" ++ c ++ page ++ ".html" ++ post)
  = Some (a, c).
Proof.
  intros Hpre Na Nc Hpage. unfold _extract_article_and_chapter.
  rewrite search_past_prefix by exact Hpre.
  now rewrite (search_here _ _ [a; c]) by now apply chapter_id_match_complete.
Qed.

Lemma extract_article_and_chapter_sound_witness :
  is_number "4519" /\ is_number "262081"
  /\ exists pre page post,
       "https://www.linovelib.com/novel/4519/262081_3.html?x=1"
       = (pre ++ "/novel/" ++ "4519" ++ "/" ++ "262081" ++ page ++ ".html" ++ post)%string
       /\ (page = EmptyString \/ exists p, page = ("_" ++ p)%string /\ is_number p).
Proof.
  apply (extract_article_and_chapter_sound
           "https://www.linovelib.com/novel/4519/262081_3.html?x=1" "4519" "262081").
  - reflexivity.
  - reflexivity.
Defined.

Lemma extract_article_and_chapter_pages_witness :
  _extract_article_and_chapter
    ("https://www.linovelib.com" ++ "/novel/" ++ "4519" ++ "/" ++ "262081" ++ "_12"
     ++ ".html" ++ "#top")
  = Some ("4519", "262081").
Proof.
  apply (extract_article_and_chapter_pages "https://www.linovelib.com" "4519" "262081"
           "_12" "#top").
  - reflexivity.
  - split; [discriminate|reflexivity].
  - split; [discriminate|reflexivity].
  - right. exists "12". split; [reflexivity|]. split; [discriminate|reflexivity].
Defined.

(** ** The pattern of the nextpage declaration *)

Lemma nextpage_match_sound (s : string) (caps : list string) :
  rmatch NEXT_PAGE_VAR_PATTERN s [] (fun _ caps => Some caps) = Some caps ->
  exists ws1 ws2 ws3 path post,
    caps = [path]
    /\ s = (nextpage_declaration ws1 ws2 ws3 path ++ post)%string
    /\ ws1 <> EmptyString
    /\ string_forall is_space ws1 = true
    /\ string_forall is_space ws2 = true
    /\ string_forall is_space ws3 = true
    /\ path <> EmptyString
    /\ string_forall not_dquote path = true.
Proof.
  unfold NEXT_PAGE_VAR_PATTERN. cbn [seqs rmatch]. intro H.
  destruct (strip_prefix "var" s) as [r1|] eqn:E1; [|discriminate].
  apply strip_prefix_sound in E1. subst s.
  destruct r1 as [|a1 r1]; [discriminate|].
  destruct (is_space a1) eqn:Ha1; [|discriminate].
  apply star_k_sound in H. destruct H as (pre1 & rest1 & -> & Hpre1 & H).
  destruct (strip_prefix "nextpage" rest1) as [r2|] eqn:E2; [|discriminate].
  apply strip_prefix_sound in E2. subst rest1.
  apply star_k_sound in H. destruct H as (pre2 & rest2 & -> & Hpre2 & H).
  destruct (strip_prefix "=" rest2) as [r3|] eqn:E3; [|discriminate].
  apply strip_prefix_sound in E3. subst rest2.
  apply star_k_sound in H. destruct H as (pre3 & rest3 & -> & Hpre3 & H).
  destruct (strip_prefix (String dquote "") rest3) as [r4|] eqn:E4; [|discriminate].
  apply strip_prefix_sound in E4. subst rest3.
  destruct r4 as [|a4 r4]; [discriminate|].
  destruct (not_dquote a4) eqn:Ha4; [|discriminate].
  apply star_k_sound in H. destruct H as (pre4 & rest4 & -> & Hpre4 & H).
  destruct (strip_prefix (String dquote "") rest4) as [post|] eqn:E5; [|discriminate].
  apply strip_prefix_sound in E5. subst rest4.
  rewrite consumed_cons_app in H. inversion H; subst.
  exists (String a1 pre1), pre2, pre3, (String a4 pre4), post.
  split; [reflexivity|]. split.
  - unfold nextpage_declaration. rewrite !append_assoc. reflexivity.
  - simpl. rewrite Ha1, Ha4. repeat split; auto; discriminate.
Qed.

Lemma nextpage_match_complete (ws1 ws2 ws3 path post : string) :
  ws1 <> EmptyString ->
  string_forall is_space ws1 = true ->
  string_forall is_space ws2 = true ->
  string_forall is_space ws3 = true ->
  path <> EmptyString ->
  string_forall not_dquote path = true ->
  rmatch NEXT_PAGE_VAR_PATTERN (nextpage_declaration ws1 ws2 ws3 path ++ post) []
    (fun _ caps => Some caps)
  = Some [path].
Proof.
  intros N1 H1 H2 H3 Np Hp.
  destruct ws1 as [|a1 ws1]; [congruence|].
  destruct path as [|p1 path]; [congruence|].
  simpl in H1, Hp. apply andb_prop in H1, Hp.
  destruct H1 as [Ha1 H1]. destruct Hp as [Hp1 Hp].
  unfold nextpage_declaration. rewrite !append_assoc.
  unfold NEXT_PAGE_VAR_PATTERN. cbn [seqs].
  rewrite rmatch_Seq, rmatch_Lit_app, rmatch_Seq.
  apply rmatch_Plus_longest; [exact Ha1|exact H1|reflexivity|].
  rewrite rmatch_Seq, rmatch_Lit_app, rmatch_Seq.
  apply rmatch_Star_longest; [exact H2|reflexivity|].
  rewrite rmatch_Seq, rmatch_Lit_app, rmatch_Seq.
  apply rmatch_Star_longest; [exact H3|reflexivity|].
  change (String dquote (String p1 path) ++ String dquote "" ++ post)%string
    with (String dquote "" ++ (String p1 path ++ String dquote "" ++ post))%string.
  rewrite rmatch_Seq, rmatch_Lit_app, rmatch_Seq.
  apply rmatch_Group_Plus_longest; [exact Hp1|exact Hp|reflexivity|].
  now rewrite rmatch_Lit_app.
Qed.

Lemma append_nil_r (s : string) : (s ++ EmptyString)%string = s.
Proof. induction s as [|a s IH]; simpl; [reflexivity|now rewrite IH]. Qed.

Lemma append_eq_append (u b w r : string) :
  (u ++ b = w ++ r)%string ->
  (exists d, w = (u ++ d)%string /\ b = (d ++ r)%string)
  \/ (exists d, u = (w ++ d)%string /\ r = (d ++ b)%string).
Proof.
  revert w. induction u as [|x u IH]; intros w H.
  - left. now exists w.
  - destruct w as [|y w].
    + right. now exists (String x u).
    + simpl in H. inversion H; subst.
      destruct (IH w H2) as [(d & -> & ->)|(d & -> & ->)].
      * left. now exists d.
      * right. now exists d.
Qed.

Lemma string_forall_occurs (c : ascii -> bool) (x : string) (a : ascii) (y : string) :
  string_forall c (x ++ String a y) = true -> c a = true.
Proof.
  induction x as [|b x IH]; simpl; intro H; apply andb_prop in H; tauto.
Qed.

Lemma string_forall_impl (c d : ascii -> bool) (s : string) :
  (forall a, c a = true -> d a = true) ->
  string_forall c s = true -> string_forall d s = true.
Proof.
  intro Himp. induction s as [|a s IH]; simpl; [reflexivity|].
  intro H. apply andb_prop in H. destruct H as [Ha Hs].
  now rewrite (Himp a Ha), IH.
Qed.

Lemma contains_unfold (needle hay : string) :
  contains needle hay
  = String.prefix needle hay
    || match hay with
       | EmptyString => false
       | String _ hay' => contains needle hay'
       end.
Proof. destruct hay; reflexivity. Qed.

Lemma prefix_append (p s : string) : String.prefix p (p ++ s) = true.
Proof.
  induction p as [|a p IH]; simpl; [now destruct s|].
  destruct (ascii_dec a a); [exact IH|congruence].
Qed.

Lemma contains_append (needle x y : string) :
  contains needle (x ++ needle ++ y) = true.
Proof.
  induction x as [|a x IH].
  - simpl append. rewrite contains_unfold, prefix_append. reflexivity.
  - rewrite contains_unfold. cbn [append]. rewrite IH. apply orb_true_r.
Qed.

Lemma space_not_v (c : ascii) : is_space c = true -> not_v c = true.
Proof.
  intro H. unfold not_v. destruct (Ascii.eqb_spec c "v") as [->|]; [discriminate H|reflexivity].
Qed.

(** No match of the pattern starts before the first occurrence of the
    word nextpage. *)
Lemma nextpage_not_inside (u body : string) (caps : list string) :
  u <> EmptyString ->
  contains "nextpage" u = false ->
  rmatch NEXT_PAGE_VAR_PATTERN (u ++ String "v" body) [] (fun _ caps => Some caps)
  = Some caps ->
  False.
Proof.
  intros Hu Hno Hm. apply nextpage_match_sound in Hm.
  destruct Hm as (ws1 & ws2 & ws3 & path & post & _ & Heq & _ & Hws1 & _).
  unfold nextpage_declaration in Heq. rewrite !append_assoc in Heq.
  assert (Hw : string_forall not_v ("ar" ++ ws1) = true)
    by (simpl; apply (string_forall_impl _ _ _ space_not_v Hws1)).
  set (R := (ws2 ++ "=" ++ ws3 ++ String dquote path ++ String dquote "" ++ post)%string)
    in Heq.
  change ("var" ++ ws1 ++ "nextpage" ++ R)%string
    with (String "v" ("ar" ++ ws1 ++ "nextpage" ++ R))%string in Heq.
  destruct u as [|y u]; [congruence|].
  change (String y u ++ String "v" body)%string
    with (String y (u ++ String "v" body)) in Heq.
  injection Heq as -> Heq.
  assert (Hword : string_forall not_v "nextpage" = true) by reflexivity.
  apply (append_eq_append u (String "v" body) ("ar" ++ ws1) ("nextpage" ++ R)) in Heq.
  destruct Heq as [(d & Hw' & Hb)|(d & Hu' & Hr)].
  - (* the letter v of the body would fall among the blanks *)
    destruct d as [|x d]; [discriminate Hb|].
    injection Hb as <- _.
    rewrite Hw' in Hw. apply string_forall_occurs in Hw. discriminate Hw.
  - symmetry in Hr.
    apply (append_eq_append d (String "v" body) "nextpage" R) in Hr.
    assert (Hin : forall e, d = ("nextpage" ++ e)%string ->
              contains "nextpage" (String "v" u) = true).
    { intros e ->. rewrite Hu'.
      change (String "v" (("ar" ++ ws1) ++ "nextpage" ++ e))
        with (String "v" ("ar" ++ ws1) ++ "nextpage" ++ e)%string.
      apply contains_append. }
    destruct Hr as [(e & He & Hb)|(e & He & _)].
    + destruct e as [|x e].
      * (* the word nextpage would lie before the body *)
        rewrite append_nil_r in He. rewrite (Hin EmptyString) in Hno; [discriminate|].
        exact (eq_sym He).
      * (* the letter v of the body would fall in the word nextpage *)
        injection Hb as <- _.
        rewrite He in Hword. apply string_forall_occurs in Hword. discriminate Hword.
    + rewrite (Hin e He) in Hno. discriminate.
Qed.

Lemma search_past_nextpage (pre body : string) :
  contains "nextpage" pre = false ->
  search NEXT_PAGE_VAR_PATTERN (pre ++ String "v" body)
  = search NEXT_PAGE_VAR_PATTERN (String "v" body).
Proof.
  induction pre as [|a pre IH]; intro H; [reflexivity|].
  pose proof (contains_cons _ _ _ H) as [_ Hlater].
  change (String a pre ++ String "v" body)%string
    with (String a (pre ++ String "v" body)).
  rewrite search_skip; [now apply IH|].
  destruct (rmatch NEXT_PAGE_VAR_PATTERN (String a (pre ++ String "v" body)) []
              (fun _ caps => Some caps)) as [caps|] eqn:E; [|reflexivity].
  exfalso. apply (nextpage_not_inside (String a pre) body caps); auto. discriminate.
Qed.

Section Nextpage.

Variable script_texts : string -> list string.

(** Property X3.  When the scripts of the page that mention nextpage
    are plain ASCII, a path returned by [_extract_nextpage_path] is
    not empty and holds no double quote, and those scripts, joined by
    line feeds, hold it between double quotes in a declaration of the
    variable nextpage. *)
Theorem extract_nextpage_path_sound (html path : string) :
  plain_ascii (join newline (filter (contains "nextpage") (script_texts html))) ->
  _extract_nextpage_path script_texts html = Some path ->
  path <> EmptyString
  /\ string_forall not_dquote path = true
  /\ exists pre ws1 ws2 ws3 post,
       join newline (filter (contains "nextpage") (script_texts html))
       = (pre ++ nextpage_declaration ws1 ws2 ws3 path ++ post)%string
       /\ ws1 <> EmptyString
       /\ string_forall is_space ws1 = true
       /\ string_forall is_space ws2 = true
       /\ string_forall is_space ws3 = true.
Proof.
  unfold _extract_nextpage_path. intros _ H.
  destruct (filter (contains "nextpage") (script_texts html)) as [|t ts];
    [discriminate|].
  destruct (search NEXT_PAGE_VAR_PATTERN (join newline (t :: ts))) as [caps|] eqn:E;
    [|discriminate].
  apply search_sound in E. destruct E as (pre & s' & Hjoin & Hm).
  apply nextpage_match_sound in Hm.
  destruct Hm as (ws1 & ws2 & ws3 & p & post & -> & -> & N1 & H1 & H2 & H3 & Np & Hp).
  inversion H; subst. split; [exact Np|]. split; [exact Hp|].
  exists pre, ws1, ws2, ws3, post. auto.
Qed.

(** Property X4.  When the first occurrence of the word nextpage in
    the scripts that mention it, joined by line feeds, is in a
    declaration var nextpage = path, with at least one blank after var
    and any blanks around the equals sign, [_extract_nextpage_path]
    returns that path. *)
Theorem extract_nextpage_path_first_declaration
    (html pre ws1 ws2 ws3 path post : string) :
  join newline (filter (contains "nextpage") (script_texts html))
  = (pre ++ nextpage_declaration ws1 ws2 ws3 path ++ post)%string ->
  contains "nextpage" pre = false ->
  ws1 <> EmptyString ->
  string_forall is_space ws1 = true ->
  string_forall is_space ws2 = true ->
  string_forall is_space ws3 = true ->
  path <> EmptyString ->
  string_forall not_dquote path = true ->
  _extract_nextpage_path script_texts html = Some path.
Proof.
  intros Hjoin Hpre N1 H1 H2 H3 Np Hp. unfold _extract_nextpage_path.
  destruct (filter (contains "nextpage") (script_texts html)) as [|t ts].
  - destruct pre; discriminate Hjoin.
  - rewrite Hjoin.
    pose proof (nextpage_match_complete ws1 ws2 ws3 path post N1 H1 H2 H3 Np Hp) as Hm.
    apply search_here in Hm. revert Hm.
    unfold nextpage_declaration. rewrite !append_assoc.
    change ("var" ++ ?x)%string with (String "v" ("ar" ++ x))%string.
    intro Hm. rewrite search_past_nextpage by exact Hpre.
    now rewrite Hm.
Qed.

End Nextpage.

Lemma extract_nextpage_path_sound_witness :
  "/novel/4519/262081_2.html" <> EmptyString
  /\ string_forall not_dquote "/novel/4519/262081_2.html" = true
  /\ exists pre ws1 ws2 ws3 post,
       join newline (filter (contains "nextpage")
                       (one_script (page_pointing_to "/novel/4519/262081_2.html")))
       = (pre ++ nextpage_declaration ws1 ws2 ws3 "/novel/4519/262081_2.html" ++ post)%string
       /\ ws1 <> EmptyString
       /\ string_forall is_space ws1 = true
       /\ string_forall is_space ws2 = true
       /\ string_forall is_space ws3 = true.
Proof.
  apply (extract_nextpage_path_sound one_script
           (page_pointing_to "/novel/4519/262081_2.html")).
  - reflexivity.
  - reflexivity.
Defined.

Lemma extract_nextpage_path_first_declaration_witness :
  _extract_nextpage_path one_script
    ("var prevpage=1;" ++ nextpage_declaration "  " " " EmptyString "/novel/1/2_3.html"
     ++ ";var x=1;")
  = Some "/novel/1/2_3.html".
Proof.
  apply (extract_nextpage_path_first_declaration one_script _ "var prevpage=1;" "  " " "
           EmptyString "/novel/1/2_3.html" ";var x=1;").
  - reflexivity.
  - reflexivity.
  - discriminate.
  - reflexivity.
  - reflexivity.
  - reflexivity.
  - discriminate.
  - reflexivity.
Defined.

(* ===================================================================== *)
(** * Facts on the book structure and on the backward search *)
(* ===================================================================== *)

#[local] Arguments py_index : simpl never.
#[local] Arguments range_down : simpl never.

Lemma chapter_at_update_same (vols : list Volume) (vi ci : nat) (f : Chapter -> Chapter) :
  chapter_at (update_chapter_at vi ci f vols) vi ci
  = option_map f (chapter_at vols vi ci).
Proof.
  unfold chapter_at, update_chapter_at.
  rewrite nth_error_update_nth_same.
  destruct (nth_error vols vi) as [v|]; simpl; [|reflexivity].
  apply nth_error_update_nth_same.
Qed.

Lemma chapter_at_update_other (vols : list Volume) (vi ci vj cj : nat)
    (f : Chapter -> Chapter) :
  (vi, ci) <> (vj, cj) ->
  chapter_at (update_chapter_at vi ci f vols) vj cj = chapter_at vols vj cj.
Proof.
  intro H. unfold chapter_at, update_chapter_at.
  destruct (Nat.eq_dec vi vj) as [->|Hv].
  - rewrite nth_error_update_nth_same.
    destruct (nth_error vols vj) as [v|]; simpl; [|reflexivity].
    apply nth_error_update_nth_other. congruence.
  - now rewrite nth_error_update_nth_other.
Qed.

Lemma update_chapter_at_compose (vols : list Volume) (vi ci : nat)
    (f g : Chapter -> Chapter) :
  update_chapter_at vi ci g (update_chapter_at vi ci f vols)
  = update_chapter_at vi ci (fun ch => g (f ch)) vols.
Proof.
  unfold update_chapter_at. rewrite update_nth_compose.
  revert vi. induction vols as [|v vols IH]; intros [|vi]; simpl; auto.
  - unfold update_chapters at 1 3. simpl. now rewrite update_nth_compose.
  - now rewrite IH.
Qed.

Lemma scan_chapters_total (v : Z) (ch_list : list Chapter) (cs : list Z) :
  (forall c, In c cs -> 0 <= c < Z.of_nat (List.length ch_list)) ->
  exists r, scan_chapters v ch_list cs = Ok r.
Proof.
  induction cs as [|c cs IH]; intro H; simpl.
  - now exists None.
  - assert (Hc := H c (or_introl eq_refl)).
    rewrite py_index_nonneg by lia.
    destruct (nth_error ch_list (Z.to_nat c)) as [ch|] eqn:E.
    + destruct (needs_resolve ch); simpl.
      * apply IH. intros c' Hc'. apply H. now right.
      * eauto.
    + apply nth_error_None in E. lia.
Qed.

Lemma scan_chapters_found (v : Z) (ch_list : list Chapter) (cs : list Z)
    (pv pc : Z) (ch : Chapter) :
  scan_chapters v ch_list cs = Ok (Some (pv, pc, ch)) -> needs_resolve ch = false.
Proof.
  induction cs as [|c cs IH]; simpl; [discriminate|].
  destruct (py_index ch_list c) as [ch'|e]; [|discriminate].
  destruct (needs_resolve ch') eqn:E; simpl; [exact IH|].
  intro H. inversion H; subst. exact E.
Qed.

Lemma scan_volumes_total (vols : list Volume) (vol_idx ch_idx : Z) (vs : list Z) :
  (forall v, In v vs -> 0 <= v <= vol_idx) ->
  (0 <= vol_idx < Z.of_nat (List.length vols)) ->
  (forall vol, nth_error vols (Z.to_nat vol_idx) = Some vol ->
     ch_idx <= Z.of_nat (List.length (chapters vol))) ->
  exists r, scan_volumes vols vol_idx ch_idx vs = Ok r.
Proof.
  intros Hvs Hidx Hch. induction vs as [|v vs IH]; simpl.
  - now exists None.
  - assert (Hv := Hvs v (or_introl eq_refl)).
    rewrite py_index_nonneg by lia.
    destruct (nth_error vols (Z.to_nat v)) as [vol|] eqn:E.
    + destruct (scan_chapters_total v (chapters vol)
                  (range_down (if v =? vol_idx then ch_idx - 1
                               else Z.of_nat (List.length (chapters vol)) - 1)))
        as [r Hr].
      * intros c Hc. apply in_range_down in Hc.
        destruct (v =? vol_idx) eqn:Ev.
        -- apply Z.eqb_eq in Ev. subst v. specialize (Hch vol E). lia.
        -- lia.
      * rewrite Hr. destruct r as [found|]; [eauto|].
        apply IH. intros v' Hv'. apply Hvs. now right.
    + apply nth_error_None in E. lia.
Qed.

Lemma scan_volumes_found (vols : list Volume) (vol_idx ch_idx : Z) (vs : list Z)
    (pv pc : Z) (ch : Chapter) :
  scan_volumes vols vol_idx ch_idx vs = Ok (Some (pv, pc, ch)) ->
  needs_resolve ch = false.
Proof.
  induction vs as [|v vs IH]; simpl; [discriminate|].
  destruct (py_index vols v) as [vol|e]; [|discriminate].
  destruct (scan_chapters v (chapters vol) _) as [[[[pv' pc'] ch']|]|e] eqn:E;
    [|exact IH|discriminate].
  intro H. inversion H; subst. eapply scan_chapters_found; eauto.
Qed.

(** The search never raises from the position of a chapter of the book. *)
Lemma find_prev_normal_chapter_total (vols : list Volume) (vi ci : nat) (ch : Chapter) :
  chapter_at vols vi ci = Some ch ->
  exists r, find_prev_normal_chapter vols (Z.of_nat vi) (Z.of_nat ci) = Ok r.
Proof.
  unfold chapter_at, find_prev_normal_chapter. intro H.
  destruct (nth_error vols vi) as [vol|] eqn:E; [|discriminate].
  apply scan_volumes_total.
  - intros v Hv. apply in_range_down in Hv. lia.
  - assert (vi < List.length vols)%nat by (apply nth_error_Some; congruence). lia.
  - rewrite Nat2Z.id. intros vol' Hvol'. rewrite E in Hvol'. inversion Hvol'; subst.
    assert (ci < List.length (chapters vol'))%nat by (apply nth_error_Some; congruence).
    lia.
Qed.

(** What it returns is a chapter that does not need resolving. *)
Lemma find_prev_normal_chapter_found (vols : list Volume) (vol_idx ch_idx pv pc : Z)
    (ch : Chapter) :
  find_prev_normal_chapter vols vol_idx ch_idx = Ok (Some (pv, pc, ch)) ->
  needs_resolve ch = false.
Proof. apply scan_volumes_found. Qed.

Lemma scan_chapters_ext (v : Z) (l l' : list Chapter) (cs : list Z) :
  (forall c, In c cs -> py_index l c = py_index l' c) ->
  scan_chapters v l cs = scan_chapters v l' cs.
Proof.
  induction cs as [|c cs IH]; intro H; simpl; [reflexivity|].
  rewrite <- (H c (or_introl eq_refl)).
  destruct (py_index l c) as [ch|e]; [|reflexivity].
  destruct (negb (needs_resolve ch)); [reflexivity|].
  apply IH. intros c' Hc'. apply H. now right.
Qed.

(** The search reads the chapters before the position only. *)
Lemma find_prev_normal_chapter_ext (vols vols' : list Volume) (vi ci : nat) :
  agree_before vi ci vols vols' ->
  find_prev_normal_chapter vols (Z.of_nat vi) (Z.of_nat ci)
  = find_prev_normal_chapter vols' (Z.of_nat vi) (Z.of_nat ci).
Proof.
  intros [Hlen Hsame]. unfold find_prev_normal_chapter.
  assert (Hvs : forall v, In v (range_down (Z.of_nat vi)) -> 0 <= v <= Z.of_nat vi)
    by (intros v Hv; now apply in_range_down).
  induction (range_down (Z.of_nat vi)) as [|v vs IH]; simpl; [reflexivity|].
  assert (Hv := Hvs v (or_introl eq_refl)).
  rewrite !py_index_nonneg by lia.
  destruct (nth_error vols (Z.to_nat v)) as [vol|] eqn:E;
    destruct (nth_error vols' (Z.to_nat v)) as [vol'|] eqn:E'.
  - assert (Hat : forall c, precedes (Z.to_nat v, c) (vi, ci) ->
                    nth_error (chapters vol) c = nth_error (chapters vol') c).
    { intros c Hc. specialize (Hsame _ _ Hc). unfold chapter_at in Hsame.
      now rewrite E, E' in Hsame. }
    destruct (v =? Z.of_nat vi) eqn:Ev.
    + apply Z.eqb_eq in Ev.
      rewrite (scan_chapters_ext v (chapters vol) (chapters vol')).
      * destruct (scan_chapters v (chapters vol') _) as [[found|]|e]; auto.
        apply IH. intros v' Hv'. apply Hvs. now right.
      * intros c Hc. apply in_range_down in Hc.
        rewrite !py_index_nonneg by lia. rewrite Hat; [reflexivity|].
        right. simpl. lia.
    + apply Z.eqb_neq in Ev.
      assert (Heq : chapters vol = chapters vol').
      { apply nth_error_ext. intro c. apply Hat. left. simpl. lia. }
      rewrite Heq.
      destruct (scan_chapters v (chapters vol') _) as [[found|]|e]; auto.
      apply IH. intros v' Hv'. apply Hvs. now right.
  - apply nth_error_None in E'. assert (Z.to_nat v < List.length vols)%nat
      by (apply nth_error_Some; congruence). lia.
  - apply nth_error_None in E. assert (Z.to_nat v < List.length vols')%nat
      by (apply nth_error_Some; congruence). lia.
  - reflexivity.
Qed.

(** A resolved chapter just before the position, in the same volume, is
    the one found. *)
Lemma find_prev_normal_chapter_adjacent (vols : list Volume) (vi ci : nat)
    (prev : Chapter) :
  chapter_at vols vi ci = Some prev ->
  needs_resolve prev = false ->
  find_prev_normal_chapter vols (Z.of_nat vi) (Z.of_nat (S ci))
  = Ok (Some (Z.of_nat vi, Z.of_nat ci, prev)).
Proof.
  unfold chapter_at, find_prev_normal_chapter. intros H Hres.
  destruct (nth_error vols vi) as [vol|] eqn:E; [|discriminate].
  rewrite (range_down_cons (Z.of_nat vi)) by lia. cbn [scan_volumes].
  rewrite py_index_nat, E, Z.eqb_refl.
  replace (Z.of_nat (S ci) - 1) with (Z.of_nat ci) by lia.
  rewrite (range_down_cons (Z.of_nat ci)) by lia. cbn [scan_chapters].
  rewrite py_index_nat, H, Hres. reflexivity.
Qed.

(** The inner loop returns the resolved chapter nearest to [start], going
    down. *)
Lemma scan_chapters_nearest (v : Z) (ch_list : list Chapter) (n : nat) :
  (n <= List.length ch_list)%nat ->
  match scan_chapters v ch_list (range_down (Z.of_nat n - 1)) with
  | Ok (Some (pv, pc, ch)) =>
      pv = v /\ 0 <= pc < Z.of_nat n
      /\ nth_error ch_list (Z.to_nat pc) = Some ch
      /\ needs_resolve ch = false
      /\ forall c ch', (Z.to_nat pc < c < n)%nat ->
           nth_error ch_list c = Some ch' -> needs_resolve ch' = true
  | Ok None =>
      forall c ch', (c < n)%nat ->
        nth_error ch_list c = Some ch' -> needs_resolve ch' = true
  | Raise _ => False
  end.
Proof.
  induction n as [|n IH]; intro Hn.
  - rewrite range_down_neg by lia. simpl. intros c ch' Hc. lia.
  - rewrite range_down_cons by lia. cbn [scan_chapters].
    replace (Z.of_nat (S n) - 1) with (Z.of_nat n) by lia.
    rewrite py_index_nat.
    destruct (nth_error ch_list n) as [ch|] eqn:E;
      [|apply nth_error_None in E; lia].
    destruct (needs_resolve ch) eqn:Hneeds; simpl.
    + specialize (IH ltac:(lia)).
      destruct (scan_chapters v ch_list (range_down (Z.of_nat n - 1)))
        as [[[[pv pc] found]|]|e]; [| |exact IH].
      * destruct IH as (Hv & Hpc & Hnth & Hres & Hbetween).
        repeat split; auto; try lia.
        intros c ch' Hc Hc'. destruct (Nat.eq_dec c n) as [->|Hne].
        -- congruence.
        -- apply (Hbetween c ch'); [lia|exact Hc'].
      * intros c ch' Hc Hc'. destruct (Nat.eq_dec c n) as [->|Hne].
        -- congruence.
        -- apply (IH c ch'); [lia|exact Hc'].
    + rewrite Nat2Z.id. repeat split; auto; try lia.
Qed.

(** The outer loop, from volume [k - 1] down, returns the resolved
    chapter nearest to the position among those before it. *)
Lemma scan_volumes_nearest (vols : list Volume) (vi ci : nat) (vol_i : Volume) :
  nth_error vols vi = Some vol_i ->
  (ci <= List.length (chapters vol_i))%nat ->
  forall k : nat,
    (k <= S vi)%nat ->
    match scan_volumes vols (Z.of_nat vi) (Z.of_nat ci) (range_down (Z.of_nat k - 1)) with
    | Ok (Some (pv, pc, ch)) =>
        0 <= pv /\ 0 <= pc
        /\ (Z.to_nat pv < k)%nat
        /\ precedes (Z.to_nat pv, Z.to_nat pc) (vi, ci)
        /\ chapter_at vols (Z.to_nat pv) (Z.to_nat pc) = Some ch
        /\ needs_resolve ch = false
        /\ forall v c ch',
             (v < k)%nat -> precedes (v, c) (vi, ci) ->
             precedes (Z.to_nat pv, Z.to_nat pc) (v, c) ->
             chapter_at vols v c = Some ch' -> needs_resolve ch' = true
    | Ok None =>
        forall v c ch',
          (v < k)%nat -> precedes (v, c) (vi, ci) ->
          chapter_at vols v c = Some ch' -> needs_resolve ch' = true
    | Raise _ => False
    end.
Proof.
  intros Hvol Hci.
  assert (Hlen : (vi < List.length vols)%nat) by (apply nth_error_Some; congruence).
  induction k as [|k IH]; intro Hk.
  - rewrite range_down_neg by lia. simpl. intros v c ch' Hv. lia.
  - replace (Z.of_nat (S k) - 1) with (Z.of_nat k) by lia.
    rewrite range_down_cons by lia. cbn [scan_volumes]. rewrite py_index_nat.
    destruct (nth_error vols k) as [vol|] eqn:Ek;
      [|apply nth_error_None in Ek; lia].
    set (n := if Nat.eq_dec k vi then ci else List.length (chapters vol)).
    assert (Hstart : (if Z.of_nat k =? Z.of_nat vi then Z.of_nat ci - 1
                      else Z.of_nat (List.length (chapters vol)) - 1)
                     = Z.of_nat n - 1).
    { unfold n. destruct (Nat.eq_dec k vi) as [->|Hne].
      - now rewrite Z.eqb_refl.
      - destruct (Z.eqb_spec (Z.of_nat k) (Z.of_nat vi)); [lia|reflexivity]. }
    rewrite Hstart.
    assert (Hn : (n <= List.length (chapters vol))%nat).
    { unfold n. destruct (Nat.eq_dec k vi) as [->|Hne]; [|lia].
      rewrite Hvol in Ek. inversion Ek; subst. exact Hci. }
    (* a chapter of volume [k] before the position has an index below [n] *)
    assert (Hin : forall c ch', precedes (k, c) (vi, ci) ->
              chapter_at vols k c = Some ch' ->
              (c < n)%nat /\ nth_error (chapters vol) c = Some ch').
    { intros c ch' Hc Hat. unfold chapter_at in Hat. rewrite Ek in Hat.
      split; [|exact Hat]. unfold n, precedes in *. simpl in Hc.
      destruct (Nat.eq_dec k vi) as [->|Hne]; [lia|].
      apply nth_error_Some. congruence. }
    pose proof (scan_chapters_nearest (Z.of_nat k) (chapters vol) n Hn) as Hscan.
    destruct (scan_chapters (Z.of_nat k) (chapters vol) (range_down (Z.of_nat n - 1)))
      as [[[[pv pc] ch]|]|e]; [| |exact Hscan].
    + destruct Hscan as (-> & Hpc & Hnth & Hres & Hbetween).
      rewrite Nat2Z.id.
      assert (Hat : chapter_at vols k (Z.to_nat pc) = Some ch)
        by (unfold chapter_at; now rewrite Ek).
      assert (Hprec : precedes (k, Z.to_nat pc) (vi, ci)).
      { unfold precedes, n in *. simpl.
        destruct (Nat.eq_dec k vi) as [->|Hne]; lia. }
      repeat split; try lia; auto.
      intros v c ch' Hv Hbefore Hafter Hq.
      assert (v = k) by (unfold precedes in Hafter; simpl in Hafter; lia). subst v.
      destruct (Hin c ch' Hbefore Hq) as [Hc Hc'].
      apply (Hbetween c ch'); [|exact Hc'].
      unfold precedes in Hafter. simpl in Hafter. lia.
    + specialize (IH ltac:(lia)).
      assert (Hhere : forall v c ch', (v < S k)%nat -> ~ (v < k)%nat ->
                precedes (v, c) (vi, ci) ->
                chapter_at vols v c = Some ch' -> needs_resolve ch' = true).
      { intros v c ch' Hv Hnot Hbefore Hq. assert (v = k) by lia. subst v.
        destruct (Hin c ch' Hbefore Hq) as [Hc Hc']. now apply (Hscan c ch'). }
      destruct (scan_volumes vols (Z.of_nat vi) (Z.of_nat ci)
                  (range_down (Z.of_nat k - 1)))
        as [[[[pv pc] ch]|]|e]; [| |exact IH].
      * destruct IH as (Hpv & Hpc & Hlt & Hprec & Hat & Hres & Hbetween).
        repeat split; auto; try lia.
        intros v c ch' Hv Hbefore Hafter Hq.
        destruct (lt_dec v k) as [Hvk|Hvk].
        -- now apply (Hbetween v c ch').
        -- now apply (Hhere v c ch').
      * intros v c ch' Hv Hbefore Hq.
        destruct (lt_dec v k) as [Hvk|Hvk].
        -- now apply (IH v c ch').
        -- now apply (Hhere v c ch').
Qed.

(** [find_prev_normal_chapter] returns the nearest chapter before the
    position that does not need resolving, and [None] when there is
    none. *)
Lemma find_prev_normal_chapter_nearest (vols : list Volume) (vi ci : nat)
    (here : Chapter) :
  chapter_at vols vi ci = Some here ->
  match find_prev_normal_chapter vols (Z.of_nat vi) (Z.of_nat ci) with
  | Ok (Some (pv, pc, ch)) =>
      0 <= pv /\ 0 <= pc
      /\ precedes (Z.to_nat pv, Z.to_nat pc) (vi, ci)
      /\ chapter_at vols (Z.to_nat pv) (Z.to_nat pc) = Some ch
      /\ needs_resolve ch = false
      /\ forall v c ch',
           precedes (Z.to_nat pv, Z.to_nat pc) (v, c) -> precedes (v, c) (vi, ci) ->
           chapter_at vols v c = Some ch' -> needs_resolve ch' = true
  | Ok None =>
      forall v c ch',
        precedes (v, c) (vi, ci) ->
        chapter_at vols v c = Some ch' -> needs_resolve ch' = true
  | Raise _ => False
  end.
Proof.
  unfold chapter_at at 1. intro H.
  destruct (nth_error vols vi) as [vol_i|] eqn:Hvol; [|discriminate].
  assert (Hci : (ci <= List.length (chapters vol_i))%nat).
  { assert (ci < List.length (chapters vol_i))%nat
      by (apply nth_error_Some; congruence). lia. }
  pose proof (scan_volumes_nearest vols vi ci vol_i Hvol Hci (S vi) (le_n _)) as Hscan.
  unfold find_prev_normal_chapter.
  replace (Z.of_nat (S vi) - 1) with (Z.of_nat vi) in Hscan by lia.
  assert (Hv : forall v c, precedes (v, c) (vi, ci) -> (v < S vi)%nat)
    by (intros v c Hp; unfold precedes in Hp; simpl in Hp; lia).
  destruct (scan_volumes vols (Z.of_nat vi) (Z.of_nat ci) (range_down (Z.of_nat vi)))
    as [[[[pv pc] ch]|]|e]; [| |exact Hscan].
  - destruct Hscan as (Hpv & Hpc & _ & Hprec & Hat & Hres & Hbetween).
    repeat split; auto.
    intros v c ch' Hafter Hbefore Hq. apply (Hbetween v c ch'); eauto.
  - intros v c ch' Hbefore Hq. apply (Hscan v c ch'); eauto.
Qed.

(** With a resolved chapter before the position and no chapter in
    between, that chapter is the one found. *)
Lemma find_prev_normal_chapter_next (vols : list Volume) (v0 c0 v1 c1 : nat)
    (prev here : Chapter) :
  chapter_at vols v0 c0 = Some prev ->
  needs_resolve prev = false ->
  chapter_at vols v1 c1 = Some here ->
  adjacent vols (v0, c0) (v1, c1) ->
  find_prev_normal_chapter vols (Z.of_nat v1) (Z.of_nat c1)
  = Ok (Some (Z.of_nat v0, Z.of_nat c0, prev)).
Proof.
  intros Hprev Hres Hhere [Hbefore Hnone].
  pose proof (find_prev_normal_chapter_nearest vols v1 c1 here Hhere) as Hfound.
  destruct (find_prev_normal_chapter vols (Z.of_nat v1) (Z.of_nat c1))
    as [[[[pv pc] ch]|]|e]; [| |contradiction].
  - destruct Hfound as (Hpv & Hpc & Hprec & Hat & Hch & Hbetween).
    assert (Hsame : (Z.to_nat pv, Z.to_nat pc) = (v0, c0)).
    { destruct (Nat.eq_dec (Z.to_nat pv) v0) as [Ev|Ev];
        [destruct (Nat.eq_dec (Z.to_nat pc) c0) as [Ec|Ec]; [congruence|]|].
      - (* same volume, another chapter *)
        destruct (lt_dec (Z.to_nat pc) c0) as [Hlt|Hge].
        + specialize (Hbetween v0 c0 prev). rewrite Hbetween in Hres; auto.
          * discriminate.
          * right. simpl. lia.
        + exfalso. apply (Hnone _ _ _ Hat). split; [|exact Hprec].
          right. simpl. lia.
      - destruct (lt_dec (Z.to_nat pv) v0) as [Hlt|Hge].
        + specialize (Hbetween v0 c0 prev). rewrite Hbetween in Hres; auto.
          * discriminate.
          * left. simpl. lia.
        + exfalso. apply (Hnone _ _ _ Hat). split; [|exact Hprec].
          left. simpl. lia. }
    inversion Hsame; subst. rewrite Hat in Hprev. inversion Hprev; subst.
    do 3 f_equal; f_equal; lia.
  - rewrite (Hfound v0 c0 prev Hbefore Hprev) in Hres. discriminate.
Qed.

(** Nothing precedes the first chapter of the first volume. *)
Lemma find_prev_normal_chapter_first (vols : list Volume) (ch : Chapter) :
  chapter_at vols 0 0 = Some ch ->
  find_prev_normal_chapter vols 0 0 = Ok None.
Proof.
  unfold chapter_at, find_prev_normal_chapter. intro H.
  destruct vols as [|vol vols]; [discriminate|].
  reflexivity.
Qed.

(* ===================================================================== *)
(** * Facts on the resolver *)
(* ===================================================================== *)

Section ResolverFacts.

Variable urljoin : string -> string -> string.
Variable script_texts : string -> list string.
Variable DS : Type.
Variable download : string -> M DS string.

Local Abbreviation State := (RState DS).
Local Abbreviation follow := (follow_nextpage urljoin script_texts download).
Local Abbreviation resolve_next := (resolve_next_chapter_url urljoin script_texts download).
Local Abbreviation step := (resolve_chapter urljoin script_texts download).
Local Abbreviation resolve_all := (resolve_all_special_chapters urljoin script_texts download).
Local Abbreviation nextpage_of := (_extract_nextpage_path script_texts).
Local Abbreviation full := (full_address urljoin).

#[local] Arguments full_address : simpl never.

Ltac run_resolver :=
  unfold print, update_book, downloader_download in *; run_monad.

Lemma print_run (d : diag) (st : State) :
  print d st
  = (Ok tt, {| book := book st; downloader := downloader st;
               stdout := stdout st ++ [d]; requested := requested st |}).
Proof. reflexivity. Qed.

(** The walk returns, leaves the book alone and downloads at most
    [hops] pages. *)
Lemma follow_nextpage_spec (hops : nat) (prev base a c : string) :
  forall (visited : list string) (cur : string) (st : State),
  exists r st' new,
    follow hops prev base a c visited cur st = (Ok r, st')
    /\ book st' = book st
    /\ requested st' = new ++ requested st
    /\ (List.length new <= hops)%nat.
Proof.
  induction hops as [|hops IH]; intros visited cur st.
  - exists None, st, []. repeat split; auto.
  - simpl.
    destruct (existsb (String.eqb (full base cur)) visited).
    + run_resolver. eexists _, _, []. repeat split; simpl; auto with arith.
    + run_resolver.
      destruct (download (full base cur) (downloader st)) as [[html|e] d'].
      * destruct (nextpage_of html) as [next_path|];
          [|eexists _, _, [_]; repeat split; simpl; auto with arith].
        destruct (_extract_article_and_chapter next_path) as [[a2 c2]|];
          [|eexists _, _, [_]; repeat split; simpl; auto with arith].
        destruct (negb (String.eqb a2 a));
          [eexists _, _, [_]; repeat split; simpl; auto with arith|].
        destruct (String.eqb c2 c);
          [|eexists _, _, [_]; repeat split; simpl; auto with arith].
        match goal with
        | |- context [follow hops prev base a c ?v ?u ?s] =>
            destruct (IH v u s) as (r & st' & new & Hrun & Hbook & Hreq & Hlen)
        end.
        exists r, st', (new ++ [full base cur]).
        rewrite Hrun, Hbook, Hreq. repeat split.
        -- now rewrite <- app_assoc.
        -- rewrite length_app. simpl. lia.
      * eexists _, _, [_]. repeat split; simpl; auto with arith.
Qed.

Lemma resolve_next_chapter_url_spec (prev base : string) (max_hops : Z) (st : State) :
  exists r st' new,
    resolve_next prev base max_hops st = (Ok r, st')
    /\ book st' = book st
    /\ requested st' = new ++ requested st
    /\ (List.length new <= Z.to_nat max_hops)%nat.
Proof.
  unfold resolve_next_chapter_url.
  destruct (_extract_article_and_chapter prev) as [[a c]|].
  - run_resolver.
    destruct (follow_nextpage_spec (Z.to_nat max_hops) prev base a c [] prev st)
      as (r & st' & new & Hrun & Hbook & Hreq & Hlen).
    rewrite Hrun. destruct r as [returned|].
    + exists returned, st', new. auto.
    + eexists _, _, new. repeat split; simpl; auto.
  - run_resolver. eexists _, _, []. repeat split; simpl; auto with arith.
Qed.

Lemma commit_resolved (ch : Chapter) (resolved : string) :
  commit (url ch) resolved ch = resolved_chapter ch resolved.
Proof. reflexivity. Qed.

Lemma update_volumes_commit (b : BookStructure) (vi ci : nat) (original resolved : string) :
  update_volumes (update_chapter_at vi ci (set_needs_resolve false))
    (update_volumes (update_chapter_at vi ci (set_url resolved))
       (update_volumes (update_chapter_at vi ci (set_original_url (Some original))) b))
  = update_volumes (update_chapter_at vi ci (commit original resolved)) b.
Proof.
  unfold update_volumes. simpl. f_equal.
  now rewrite !update_chapter_at_compose.
Qed.

(** One target: the step returns; it either leaves the book as it is,
    or the chapter needed resolving, the search found a predecessor, the
    walk from it returned a non-empty address, and the chapter is
    updated with it. *)
Lemma resolve_chapter_spec (base : string) (vi : nat) (vol : Volume) (ci : nat)
    (st : State) :
  exists st',
    step base vi vol ci st = (Ok tt, st')
    /\ (book st' = book st
        \/ exists ch pv pc prev resolved s1,
             chapter_at (volumes (book st)) vi ci = Some ch
             /\ needs_resolve ch = true
             /\ find_prev_normal_chapter (volumes (book st)) (Z.of_nat vi) (Z.of_nat ci)
                = Ok (Some (pv, pc, prev))
             /\ resolve_next (url prev) base DEFAULT_MAX_HOPS st = (Ok (Some resolved), s1)
             /\ resolved <> EmptyString
             /\ book st'
                = update_volumes (update_chapter_at vi ci (commit (url ch) resolved))
                    (book st)).
Proof.
  unfold resolve_chapter. run_resolver.
  destruct (chapter_at (volumes (book st)) vi ci) as [ch|] eqn:Hch; [|eauto].
  destruct (needs_resolve ch) eqn:Hneeds; simpl; [|eauto].
  destruct (find_prev_normal_chapter_total _ _ _ _ Hch) as [found Hfound].
  rewrite Hfound. destruct found as [[[pv pc] prev]|]; [|eauto].
  destruct (String.eqb (url prev) EmptyString || String.eqb (url prev) PLACEHOLDER);
    [eauto|].
  destruct (resolve_next_chapter_url_spec (url prev) base DEFAULT_MAX_HOPS st)
    as (r & s1 & new & Hrun & Hbook & _).
  rewrite Hrun. destruct r as [resolved|]; [|rewrite <- Hbook; eauto].
  destruct (String.eqb resolved EmptyString) eqn:Hempty; [rewrite <- Hbook; eauto|].
  eexists. split; [reflexivity|]. right.
  exists ch, pv, pc, prev, resolved, s1. simpl.
  rewrite update_volumes_commit, Hbook.
  apply String.eqb_neq in Hempty. auto 10.
Qed.

(** A chapter that does not need resolving is passed over: nothing is
    downloaded, changed or printed. *)
Lemma resolve_chapter_skip (base : string) (vi : nat) (vol : Volume) (ci : nat)
    (st : State) (ch : Chapter) :
  chapter_at (volumes (book st)) vi ci = Some ch ->
  needs_resolve ch = false ->
  step base vi vol ci st = (Ok tt, st).
Proof.
  intros Hch Hneeds. unfold resolve_chapter. run_resolver.
  now rewrite Hch, Hneeds.
Qed.

(** The step changes no other chapter. *)
Lemma resolve_chapter_frame (base : string) (vi : nat) (vol : Volume) (ci : nat)
    (st : State) (vj cj : nat) :
  (vi, ci) <> (vj, cj) ->
  chapter_at (volumes (book (exec (step base vi vol ci) st))) vj cj
  = chapter_at (volumes (book st)) vj cj.
Proof.
  intro Hne. unfold exec.
  destruct (resolve_chapter_spec base vi vol ci st) as (st' & Hrun & Hcases).
  rewrite Hrun. simpl.
  destruct Hcases as [->|(ch & pv & pc & prev & r & s1 & _ & _ & _ & _ & _ & ->)];
    [reflexivity|].
  simpl. now apply chapter_at_update_other.
Qed.

(** What the step does to its own chapter. *)
Lemma resolve_chapter_self (base : string) (vi : nat) (vol : Volume) (ci : nat)
    (st : State) :
  opt_rel chapter_rel
    (chapter_at (volumes (book st)) vi ci)
    (chapter_at (volumes (book (exec (step base vi vol ci) st))) vi ci).
Proof.
  unfold exec.
  destruct (resolve_chapter_spec base vi vol ci st) as (st' & Hrun & Hcases).
  rewrite Hrun. simpl.
  destruct Hcases as [->|(ch & pv & pc & prev & r & s1 & Hch & Hneeds & _ & _ & Hr & ->)].
  - destruct (chapter_at (volumes (book st)) vi ci); simpl; [now left|exact I].
  - simpl. rewrite chapter_at_update_same, Hch. simpl. right.
    split; [exact Hneeds|]. exists r. now rewrite commit_resolved.
Qed.

(** ** The pass as a sequence of steps *)

Local Abbreviation visit base :=
  (fun t : nat * Volume * nat => let '(vi, vol, ci) := t in step base vi vol ci).

(** The two nested loops go through [targets], in that order. *)
Lemma resolve_all_special_chapters_flat (base : string) (st : State) :
  resolve_all base st = for_each (targets (volumes (book st))) (visit base) st.
Proof.
  unfold resolve_all_special_chapters, targets. run_monad.
  rewrite for_each_flat_map. apply for_each_ext.
  intros [vi vol] s _. rewrite for_each_map. apply for_each_ext.
  now intros [ci ch] s' _.
Qed.

Lemma pass_total (base : string) (ts : list (nat * Volume * nat)) :
  forall st : State, exists st', for_each ts (visit base) st = (Ok tt, st').
Proof.
  induction ts as [|[[vi vol] ci] ts IH]; intro st; simpl.
  - now exists st.
  - unfold bind.
    destruct (resolve_chapter_spec base vi vol ci st) as (s1 & Hrun & _).
    rewrite Hrun. apply IH.
Qed.

Lemma pass_cons (base : string) (t : nat * Volume * nat)
    (ts : list (nat * Volume * nat)) (st : State) :
  exec (for_each (t :: ts) (visit base)) st
  = exec (for_each ts (visit base)) (exec (visit base t) st).
Proof.
  unfold exec. simpl. unfold bind. destruct t as [[vi vol] ci].
  destruct (resolve_chapter_spec base vi vol ci st) as (s1 & Hrun & _).
  now rewrite Hrun.
Qed.

Lemma pass_app (base : string) (ts1 ts2 : list (nat * Volume * nat)) (st : State) :
  exec (for_each (ts1 ++ ts2) (visit base)) st
  = exec (for_each ts2 (visit base)) (exec (for_each ts1 (visit base)) st).
Proof.
  unfold exec. rewrite for_each_app. unfold bind.
  destruct (pass_total base ts1 st) as (s1 & Hrun). now rewrite Hrun.
Qed.

(** A pass leaves alone the chapters that are not among its targets. *)
Lemma pass_frame (base : string) (ts : list (nat * Volume * nat)) (vj cj : nat) :
  ~ In (vj, cj) (map position ts) ->
  forall st : State,
    chapter_at (volumes (book (exec (for_each ts (visit base)) st))) vj cj
    = chapter_at (volumes (book st)) vj cj.
Proof.
  induction ts as [|[[vi vol] ci] ts IH]; intros Hnot st.
  - reflexivity.
  - rewrite pass_cons, IH by (intro H; apply Hnot; now right).
    apply resolve_chapter_frame. intro H. apply Hnot. left. exact H.
Qed.

Lemma chapter_rel_refl (ch : Chapter) : chapter_rel ch ch.
Proof. now left. Qed.

Lemma chapter_rel_trans (a b c : Chapter) :
  chapter_rel a b -> chapter_rel b c -> chapter_rel a c.
Proof.
  intros [->|[Ha [r [Hr ->]]]] Hbc; [exact Hbc|].
  destruct Hbc as [->|[Hb _]].
  - right. eauto.
  - discriminate Hb.
Qed.

Lemma opt_chapter_rel_trans (a b c : option Chapter) :
  opt_rel chapter_rel a b -> opt_rel chapter_rel b c -> opt_rel chapter_rel a c.
Proof.
  destruct a, b, c; simpl; try tauto. apply chapter_rel_trans.
Qed.

Lemma opt_chapter_rel_refl (a : option Chapter) : opt_rel chapter_rel a a.
Proof. destruct a; simpl; auto using chapter_rel_refl. Qed.

(** What a step does to any chapter of the book. *)
Lemma resolve_chapter_rel (base : string) (vi : nat) (vol : Volume) (ci : nat)
    (st : State) (vj cj : nat) :
  opt_rel chapter_rel
    (chapter_at (volumes (book st)) vj cj)
    (chapter_at (volumes (book (exec (step base vi vol ci) st))) vj cj).
Proof.
  destruct (Nat.eq_dec vi vj) as [->|Hv].
  - destruct (Nat.eq_dec ci cj) as [->|Hc].
    + apply resolve_chapter_self.
    + rewrite resolve_chapter_frame by congruence. apply opt_chapter_rel_refl.
  - rewrite resolve_chapter_frame by congruence. apply opt_chapter_rel_refl.
Qed.

(** What a pass does to any chapter of the book. *)
Lemma pass_rel (base : string) (ts : list (nat * Volume * nat)) (vj cj : nat) :
  forall st : State,
    opt_rel chapter_rel
      (chapter_at (volumes (book st)) vj cj)
      (chapter_at (volumes (book (exec (for_each ts (visit base)) st))) vj cj).
Proof.
  induction ts as [|[[vi vol] ci] ts IH]; intro st.
  - apply opt_chapter_rel_refl.
  - rewrite pass_cons. eapply opt_chapter_rel_trans; [|apply IH].
    apply resolve_chapter_rel.
Qed.

(** A pass over chapters none of which needs resolving does nothing. *)
Lemma pass_skip (base : string) (ts : list (nat * Volume * nat)) (st : State) :
  all_resolved (volumes (book st)) ->
  for_each ts (visit base) st = (Ok tt, st).
Proof.
  intro Hall. induction ts as [|[[vi vol] ci] ts IH]; simpl; [reflexivity|].
  unfold bind.
  assert (Hstep : step base vi vol ci st = (Ok tt, st)).
  { destruct (chapter_at (volumes (book st)) vi ci) as [ch|] eqn:Hch.
    - eapply resolve_chapter_skip; eauto.
    - unfold resolve_chapter. run_resolver. now rewrite Hch. }
  rewrite Hstep. exact IH.
Qed.

(** The first chapter of the first volume has no predecessor: no step
    changes it. *)
Lemma resolve_chapter_keeps_first (base : string) (vi : nat) (vol : Volume) (ci : nat)
    (st : State) :
  chapter_at (volumes (book (exec (step base vi vol ci) st))) 0 0
  = chapter_at (volumes (book st)) 0 0.
Proof.
  destruct (Nat.eq_dec vi 0) as [->|Hv]; [|apply resolve_chapter_frame; congruence].
  destruct (Nat.eq_dec ci 0) as [->|Hc]; [|apply resolve_chapter_frame; congruence].
  unfold exec.
  destruct (resolve_chapter_spec base 0 vol 0 st) as (st' & Hrun & Hcases).
  rewrite Hrun. simpl.
  destruct Hcases as [->|(ch & pv & pc & prev & r & s1 & Hch & _ & Hfound & _)];
    [reflexivity|].
  change (Z.of_nat 0) with 0 in Hfound.
  rewrite (find_prev_normal_chapter_first _ _ Hch) in Hfound. discriminate.
Qed.

Lemma pass_keeps_first (base : string) (ts : list (nat * Volume * nat)) :
  forall st : State,
    chapter_at (volumes (book (exec (for_each ts (visit base)) st))) 0 0
    = chapter_at (volumes (book st)) 0 0.
Proof.
  induction ts as [|[[vi vol] ci] ts IH]; intro st; [reflexivity|].
  rewrite pass_cons, IH. apply resolve_chapter_keeps_first.
Qed.

(** ** The order of the targets *)

Lemma positions_of_volume (vi : nat) (vol : Volume) (k : nat) (l : list Chapter) :
  map position (map (fun '(ci, _) => (vi, vol, ci)) (enumerate_from k l))
  = map (pair vi) (seq k (List.length l)).
Proof.
  revert k. induction l as [|ch l IH]; intro k; simpl; [reflexivity|].
  now rewrite IH.
Qed.

Lemma positions_from (n : nat) (vols : list Volume) (vi ci : nat) :
  In (vi, ci)
     (map position
        (flat_map (fun '(vi, vol) =>
                     map (fun '(ci, _) => (vi, vol, ci)) (enumerate (chapters vol)))
                  (enumerate_from n vols))) ->
  (n <= vi)%nat.
Proof.
  revert n. induction vols as [|vol vols IH]; intro n; simpl; [tauto|].
  rewrite map_app, in_app_iff. unfold enumerate at 1.
  rewrite positions_of_volume. intros [H|H].
  - apply in_map_iff in H. destruct H as [k [Hk _]]. inversion Hk. lia.
  - apply IH in H. lia.
Qed.

Lemma NoDup_positions_from (n : nat) (vols : list Volume) :
  NoDup (map position
           (flat_map (fun '(vi, vol) =>
                        map (fun '(ci, _) => (vi, vol, ci)) (enumerate (chapters vol)))
                     (enumerate_from n vols))).
Proof.
  revert n. induction vols as [|vol vols IH]; intro n; simpl; [constructor|].
  rewrite map_app. apply NoDup_app.
  - unfold enumerate. rewrite positions_of_volume.
    apply Injective_map_NoDup; [|apply seq_NoDup].
    intros x y H. now inversion H.
  - apply IH.
  - intros [vi ci] H1 H2. unfold enumerate in H1.
    rewrite positions_of_volume in H1.
    apply in_map_iff in H1. destruct H1 as [k [Hk _]]. inversion Hk; subst.
    apply positions_from in H2. lia.
Qed.

(** No position is visited twice. *)
Lemma NoDup_positions (vols : list Volume) : NoDup (map position (targets vols)).
Proof. apply NoDup_positions_from. Qed.

(** The targets come in document order. *)
Lemma targets_from_later (n : nat) (vols : list Volume) :
  forall (pre post : list (nat * Volume * nat)) (t : nat * Volume * nat),
    flat_map (fun '(vi, vol) =>
                map (fun '(ci, _) => (vi, vol, ci)) (enumerate (chapters vol)))
             (enumerate_from n vols)
    = pre ++ t :: post ->
    forall q, In q (map position post) -> precedes (position t) q.
Proof.
  revert n. induction vols as [|vol vols IH]; intros n pre post t H q Hq.
  - destruct pre; discriminate.
  - simpl in H. apply app_eq_middle in H.
    destruct H as [(post1 & Hvol & ->)|(pre2 & -> & Hrest)].
    + apply (f_equal (map position)) in Hvol.
      unfold enumerate in Hvol. rewrite positions_of_volume, map_app in Hvol.
      simpl in Hvol.
      apply map_eq_app in Hvol. destruct Hvol as (l1 & l2 & Hseq & _ & Hl2).
      destruct l2 as [|x l2]; [discriminate|]. simpl in Hl2.
      injection Hl2 as Ht Hpost1. rewrite <- Ht.
      rewrite map_app, in_app_iff in Hq. destruct Hq as [Hq|Hq].
      * rewrite <- Hpost1 in Hq. apply in_map_iff in Hq.
        destruct Hq as (y & <- & Hy). right. simpl.
        split; [reflexivity|]. eapply seq_split_later; eauto.
      * destruct q as [vj cj]. apply positions_from in Hq. left. simpl. lia.
    + eapply IH; eauto.
Qed.

Lemma targets_later (vols : list Volume) (pre post : list (nat * Volume * nat))
    (t : nat * Volume * nat) :
  targets vols = pre ++ t :: post ->
  forall q, In q (map position post) -> precedes (position t) q.
Proof. apply targets_from_later. Qed.

(** Every chapter of the book is a target. *)
Lemma in_targets (vols : list Volume) (vi ci : nat) (ch : Chapter) :
  chapter_at vols vi ci = Some ch ->
  exists vol, In (vi, vol, ci) (targets vols).
Proof.
  unfold chapter_at, targets. intro H.
  destruct (nth_error vols vi) as [vol|] eqn:Hvol; [|discriminate].
  exists vol. apply in_flat_map. exists (vi, vol). split.
  - apply in_enumerate_from. split; [lia|]. now rewrite Nat.sub_0_r.
  - apply in_map_iff. exists (ci, ch). split; [reflexivity|].
    apply in_enumerate_from. split; [lia|]. now rewrite Nat.sub_0_r.
Qed.

(** Two targets in a row are at adjacent positions. *)
Lemma targets_adjacent (vols : list Volume) (pre post : list (nat * Volume * nat))
    (t t' : nat * Volume * nat) :
  targets vols = pre ++ t :: t' :: post ->
  adjacent vols (position t) (position t').
Proof.
  intro H. split.
  - apply (targets_later vols pre (t' :: post) t H). now left.
  - intros v c ch Hch [Hafter Hbefore].
    destruct (in_targets vols v c ch Hch) as [vol Hin].
    rewrite H in Hin. apply in_app_iff in Hin.
    destruct Hin as [Hin|[Heq|[Heq|Hin]]].
    + apply in_split in Hin. destruct Hin as (l1 & l2 & ->).
      rewrite <- app_assoc in H. simpl in H.
      assert (Hp : precedes (v, c) (position t)).
      { apply (targets_later vols l1 (l2 ++ t :: t' :: post) (v, vol, c) H).
        rewrite map_app, in_app_iff. right. now left. }
      unfold precedes in *. simpl in *. lia.
    + subst t. unfold precedes in *. simpl in *. lia.
    + subst t'. unfold precedes in *. simpl in *. lia.
    + assert (Hp : precedes (position t') (v, c)).
      { apply (targets_later vols (pre ++ [t]) post t').
        - rewrite <- app_assoc. exact H.
        - apply in_map_iff. exists (v, vol, c). split; [reflexivity|exact Hin]. }
      unfold precedes in *. simpl in *. lia.
Qed.

(** A pass changes no chapter into none and makes none out of nothing:
    adjacent positions stay adjacent. *)
Lemma adjacent_rel (vols vols' : list Volume) (p q : nat * nat) :
  (forall v c, opt_rel chapter_rel (chapter_at vols v c) (chapter_at vols' v c)) ->
  adjacent vols p q -> adjacent vols' p q.
Proof.
  intros Hrel [Hpq Hnone]. split; [exact Hpq|].
  intros v c ch Hch. specialize (Hrel v c). rewrite Hch in Hrel.
  destruct (chapter_at vols v c) as [ch0|] eqn:E; [|contradiction].
  exact (Hnone v c ch0 E).
Qed.

(** ** The walk along the pages of one chapter *)

Lemma existsb_eqb_false (u : string) (l : list string) :
  existsb (String.eqb u) l = false <-> ~ In u l.
Proof.
  split.
  - intros H Hin. assert (existsb (String.eqb u) l = true); [|congruence].
    apply existsb_exists. exists u. split; [exact Hin|apply String.eqb_refl].
  - intro H. destruct (existsb (String.eqb u) l) eqn:E; [|reflexivity].
    apply existsb_exists in E. destruct E as [x [Hx Heq]].
    apply String.eqb_eq in Heq. subst. contradiction.
Qed.

(** Inside a set of pages of one chapter that the nextpage pointers do
    not leave, the walk finds no next chapter; it downloads addresses
    of the set it has not visited before, each once. *)
Lemma follow_nextpage_closed (pages : list string) (prev base a c : string) :
  (forall p, In p pages -> _extract_article_and_chapter p = Some (a, c)) ->
  (forall p d html d' q,
     In p pages ->
     download (full base p) d = (Ok html, d') ->
     nextpage_of html = Some q ->
     In q pages) ->
  forall (hops : nat) (visited : list string) (cur : string) (st : State),
    In cur pages ->
    NoDup visited ->
    incl visited (map (full base) pages) ->
    exists r st' new,
      follow hops prev base a c visited cur st = (Ok r, st')
      /\ (r = None \/ r = Some None)
      /\ requested st' = new ++ requested st
      /\ (List.length new <= hops)%nat
      /\ NoDup (new ++ visited)
      /\ incl (new ++ visited) (map (full base) pages).
Proof.
  intros Hids Hclosed.
  induction hops as [|hops IH]; intros visited cur st Hcur Hnodup Hincl.
  - exists None, st, []. repeat split; simpl; auto.
  - simpl.
    destruct (existsb (String.eqb (full base cur)) visited) eqn:Hvis.
    + run_resolver. eexists _, _, []. repeat split; simpl; auto with arith.
    + apply existsb_eqb_false in Hvis. run_resolver.
      assert (Hnodup' : NoDup (full base cur :: visited)) by now constructor.
      assert (Hincl' : incl (full base cur :: visited) (map (full base) pages)).
      { intros x [<-|Hx]; [now apply in_map|now apply Hincl]. }
      destruct (download (full base cur) (downloader st)) as [[html|e] d'] eqn:Hdl;
        [|eexists _, _, [_]; repeat split; simpl; auto with arith].
      destruct (nextpage_of html) as [next_path|] eqn:Hnext;
        [|eexists _, _, [_]; repeat split; simpl; auto with arith].
      assert (Hq : In next_path pages) by (eapply Hclosed; eauto).
      rewrite (Hids _ Hq), !String.eqb_refl. simpl.
      match goal with
      | |- context [follow hops prev base a c ?v ?u ?s] =>
          destruct (IH v u s Hq Hnodup' Hincl')
            as (r & st' & new & Hrun & Hr & Hreq & Hlen & Hnd & Hin)
      end.
      exists r, st', (new ++ [full base cur]).
      rewrite Hrun, Hreq. simpl. rewrite <- !app_assoc. simpl.
      repeat split; auto. rewrite length_app. simpl. lia.
Qed.

(** One iteration that stays in the chapter, and one that leaves it. *)
Lemma follow_nextpage_same_chapter (hops : nat) (prev base a c : string)
    (visited : list string) (cur : string) (st : State)
    (html : string) (d' : DS) (next_path : string) :
  ~ In (full base cur) visited ->
  download (full base cur) (downloader st) = (Ok html, d') ->
  nextpage_of html = Some next_path ->
  _extract_article_and_chapter next_path = Some (a, c) ->
  follow (S hops) prev base a c visited cur st
  = follow hops prev base a c (full base cur :: visited) next_path
      {| book := book st; downloader := d'; stdout := stdout st;
         requested := full base cur :: requested st |}.
Proof.
  intros Hvis Hdl Hnext Hids. apply existsb_eqb_false in Hvis.
  simpl. rewrite Hvis. run_resolver.
  now rewrite Hdl, Hnext, Hids, !String.eqb_refl.
Qed.

Lemma follow_nextpage_next_chapter (hops : nat) (prev base a c : string)
    (visited : list string) (cur : string) (st : State)
    (html : string) (d' : DS) (next_path c2 : string) :
  ~ In (full base cur) visited ->
  download (full base cur) (downloader st) = (Ok html, d') ->
  nextpage_of html = Some next_path ->
  _extract_article_and_chapter next_path = Some (a, c2) ->
  c2 <> c ->
  outcome (follow (S hops) prev base a c visited cur) st
  = Ok (Some (Some (urljoin base next_path))).
Proof.
  intros Hvis Hdl Hnext Hids Hc. apply existsb_eqb_false in Hvis.
  apply String.eqb_neq in Hc.
  unfold outcome. simpl. rewrite Hvis. run_resolver.
  now rewrite Hdl, Hnext, Hids, String.eqb_refl, Hc.
Qed.

(** ** The claims on [resolve_next_chapter_url] *)

(** Claim C4.  P1 is a page of chapter 262081 of book 4519; its
    nextpage is /novel/4519/262081_2.html (P2, the same chapter), whose
    nextpage is /novel/4519/262082.html (P3, the next chapter).  Called
    on the address of P1, with a budget of two hops or more,
    [resolve_next_chapter_url] returns the address of P3 joined to the
    base. *)
Theorem resolve_next_chapter_url_three_pages
    (base p1 html1 html2 : string) (max_hops : Z) (st : State) (d1 d2 : DS) :
  _extract_article_and_chapter p1 = Some ("4519", "262081") ->
  download (full base p1) (downloader st) = (Ok html1, d1) ->
  nextpage_of html1 = Some "/novel/4519/262081_2.html" ->
  urljoin base "/novel/4519/262081_2.html" <> full base p1 ->
  download (urljoin base "/novel/4519/262081_2.html") d1 = (Ok html2, d2) ->
  nextpage_of html2 = Some "/novel/4519/262082.html" ->
  2 <= max_hops ->
  outcome (resolve_next p1 base max_hops) st
  = Ok (Some (urljoin base "/novel/4519/262082.html")).
Proof.
  intros Hids Hdl1 Hnext1 Hnew Hdl2 Hnext2 Hhops.
  unfold outcome, resolve_next_chapter_url. rewrite Hids.
  destruct (Z.to_nat max_hops) as [|[|hops]] eqn:Hn; [lia|lia|].
  unfold bind.
  rewrite (follow_nextpage_same_chapter (S hops) p1 base "4519" "262081" [] p1 st
             html1 d1 "/novel/4519/262081_2.html" (fun H => H) Hdl1 Hnext1 eq_refl).
  assert (Hvis : ~ In (full base "/novel/4519/262081_2.html") [full base p1]).
  { intros [H|[]]. apply Hnew. symmetry. exact H. }
  pose proof (follow_nextpage_next_chapter hops p1 base "4519" "262081"
                [full base p1] "/novel/4519/262081_2.html"
                {| book := book st; downloader := d1; stdout := stdout st;
                   requested := full base p1 :: requested st |}
                html2 d2 "/novel/4519/262082.html" "262082"
                Hvis Hdl2 Hnext2 eq_refl) as Hstep.
  unfold outcome in Hstep.
  destruct (follow (S hops) p1 base "4519" "262081" [full base p1]
              "/novel/4519/262081_2.html" _) as [r s2].
  simpl in Hstep. rewrite Hstep by discriminate. reflexivity.
Qed.


(** ** A second pass over a site that does not change *)

Lemma follow_nextpage_stateless (hops : nat) (prev base a c : string) :
  stateless download ->
  forall (visited : list string) (cur : string) (st st' : State),
    outcome (follow hops prev base a c visited cur) st
    = outcome (follow hops prev base a c visited cur) st'.
Proof.
  intros [site Hsite]. unfold outcome.
  induction hops as [|hops IH]; intros visited cur st st'; simpl; [reflexivity|].
  destruct (existsb (String.eqb (full base cur)) visited); run_resolver;
    [reflexivity|].
  pose proof (Hsite (full base cur) (downloader st)) as H1.
  pose proof (Hsite (full base cur) (downloader st')) as H2.
  destruct (download (full base cur) (downloader st)) as [r1 d1].
  destruct (download (full base cur) (downloader st')) as [r2 d2].
  simpl in H1, H2. subst r1 r2.
  destruct (site (full base cur)) as [html|e]; [|reflexivity].
  destruct (nextpage_of html) as [next_path|]; [|reflexivity].
  destruct (_extract_article_and_chapter next_path) as [[a2 c2]|]; [|reflexivity].
  destruct (negb (String.eqb a2 a)); [reflexivity|].
  destruct (String.eqb c2 c); [apply IH|reflexivity].
Qed.

Lemma resolve_next_chapter_url_stateless (prev base : string) (max_hops : Z)
    (st st' : State) :
  stateless download ->
  outcome (resolve_next prev base max_hops) st
  = outcome (resolve_next prev base max_hops) st'.
Proof.
  intro Hsite. unfold outcome, resolve_next_chapter_url.
  destruct (_extract_article_and_chapter prev) as [[a c]|]; [|reflexivity].
  pose proof (follow_nextpage_stateless (Z.to_nat max_hops) prev base a c Hsite
                [] prev st st') as H.
  unfold outcome in H. unfold bind.
  destruct (follow (Z.to_nat max_hops) prev base a c [] prev st) as [r1 s1].
  destruct (follow (Z.to_nat max_hops) prev base a c [] prev st') as [r2 s2].
  simpl in H. subst r2. destruct r1 as [[r|]|e]; reflexivity.
Qed.

(** On a site that does not change, what a step does to the volumes
    depends on the chapter and on the chapters before it: a step that
    changes nothing changes nothing either where those are the same. *)
Lemma resolve_chapter_local (base : string) (vi ci : nat) (vol vol' : Volume)
    (st st' : State) :
  stateless download ->
  agree_before vi ci (volumes (book st)) (volumes (book st')) ->
  chapter_at (volumes (book st)) vi ci = chapter_at (volumes (book st')) vi ci ->
  volumes (book (exec (step base vi vol ci) st)) = volumes (book st) ->
  volumes (book (exec (step base vi vol' ci) st')) = volumes (book st').
Proof.
  intros Hsite Hagree Hsame.
  pose proof (find_prev_normal_chapter_ext _ _ _ _ Hagree) as Hfound.
  unfold exec, resolve_chapter. run_resolver.
  rewrite <- Hsame.
  destruct (chapter_at (volumes (book st)) vi ci) as [ch|] eqn:Hch; [|reflexivity].
  destruct (needs_resolve ch) eqn:Hneeds; simpl; [|reflexivity].
  rewrite <- Hfound.
  destruct (find_prev_normal_chapter (volumes (book st)) (Z.of_nat vi) (Z.of_nat ci))
    as [[[[pv pc] prev]|]|e]; [|reflexivity|reflexivity].
  destruct (String.eqb (url prev) EmptyString || String.eqb (url prev) PLACEHOLDER);
    [reflexivity|].
  pose proof (resolve_next_chapter_url_stateless (url prev) base DEFAULT_MAX_HOPS
                st st' Hsite) as Hpure.
  unfold outcome in Hpure.
  destruct (resolve_next_chapter_url_spec (url prev) base DEFAULT_MAX_HOPS st)
    as (r & s1 & new & Hrun & Hbook & _).
  destruct (resolve_next_chapter_url_spec (url prev) base DEFAULT_MAX_HOPS st')
    as (r' & s1' & new' & Hrun' & Hbook' & _).
  rewrite Hrun, Hrun' in *. simpl in Hpure. inversion Hpure; subst r'.
  destruct r as [resolved|]; simpl; [|now rewrite Hbook'].
  destruct (String.eqb resolved EmptyString); simpl; [now rewrite Hbook'|].
  rewrite !update_chapter_at_compose, Hbook. intro Hfixed.
  apply (f_equal (fun vols => chapter_at vols vi ci)) in Hfixed.
  rewrite chapter_at_update_same, Hch in Hfixed. simpl in Hfixed.
  inversion Hfixed as [Hch']. apply (f_equal needs_resolve) in Hch'.
  simpl in Hch'. congruence.
Qed.

Lemma agree_before_refl (vi ci : nat) (vols : list Volume) : agree_before vi ci vols vols.
Proof. split; auto. Qed.

(** On a site that does not change, the step made for a position
    changes nothing when made again. *)
Lemma resolve_chapter_again (base : string) (vi ci : nat) (vol vol' : Volume)
    (st s : State) :
  stateless download ->
  agree_before vi ci (volumes (book (exec (step base vi vol ci) st))) (volumes (book s)) ->
  chapter_at (volumes (book (exec (step base vi vol ci) st))) vi ci
  = chapter_at (volumes (book s)) vi ci ->
  volumes (book (exec (step base vi vol' ci) s)) = volumes (book s).
Proof.
  intros Hsite Hagree Hsame.
  destruct (resolve_chapter_spec base vi vol ci st) as (st' & Hrun & Hcases).
  assert (Hst' : exec (step base vi vol ci) st = st') by (unfold exec; now rewrite Hrun).
  rewrite Hst' in *.
  destruct Hcases as [Hbook|(ch & pv & pc & prev & r & sw & Hch & _ & _ & _ & _ & Hbook)].
  - (* the step changed nothing: it changes nothing either on [s] *)
    rewrite Hbook in Hagree, Hsame.
    apply (resolve_chapter_local base vi ci vol vol' st s Hsite Hagree Hsame).
    now rewrite Hst', Hbook.
  - (* the step resolved the chapter: it is passed over on [s] *)
    rewrite Hbook in Hsame. simpl in Hsame.
    rewrite chapter_at_update_same, Hch in Hsame. simpl in Hsame.
    unfold exec.
    rewrite (resolve_chapter_skip base vi vol' ci s (commit (url ch) r ch));
      [reflexivity|now symmetry|reflexivity].
Qed.

Lemma resolve_chapter_keeps_length (base : string) (vi : nat) (vol : Volume) (ci : nat)
    (st : State) :
  List.length (volumes (book (exec (step base vi vol ci) st)))
  = List.length (volumes (book st)).
Proof.
  unfold exec.
  destruct (resolve_chapter_spec base vi vol ci st) as (st' & Hrun & Hcases).
  rewrite Hrun. simpl.
  destruct Hcases as [->|(ch & pv & pc & prev & r & sw & _ & _ & _ & _ & _ & ->)];
    [reflexivity|].
  simpl. apply update_nth_length.
Qed.

Lemma pass_keeps_length (base : string) (ts : list (nat * Volume * nat)) :
  forall st : State,
    List.length (volumes (book (exec (for_each ts (visit base)) st)))
    = List.length (volumes (book st)).
Proof.
  induction ts as [|[[vi vol] ci] ts IH]; intro st; [reflexivity|].
  rewrite pass_cons, IH. apply resolve_chapter_keeps_length.
Qed.

Lemma resolve_chapter_keeps_names (base : string) (vi : nat) (vol : Volume) (ci : nat)
    (st : State) :
  name (book (exec (step base vi vol ci) st)) = name (book st)
  /\ book_id (book (exec (step base vi vol ci) st)) = book_id (book st)
  /\ map volume_name (volumes (book (exec (step base vi vol ci) st)))
     = map volume_name (volumes (book st)).
Proof.
  unfold exec.
  destruct (resolve_chapter_spec base vi vol ci st) as (st' & Hrun & Hcases).
  rewrite Hrun. simpl.
  destruct Hcases as [->|(ch & pv & pc & prev & r & sw & _ & _ & _ & _ & _ & ->)];
    [auto|].
  simpl. repeat split. unfold update_chapter_at.
  generalize (volumes (book st)). clear. intro vols. revert vi.
  induction vols as [|v vols IH]; intros [|vi]; simpl; auto. now rewrite IH.
Qed.

Lemma pass_keeps_names (base : string) (ts : list (nat * Volume * nat)) :
  forall st : State,
    name (book (exec (for_each ts (visit base)) st)) = name (book st)
    /\ book_id (book (exec (for_each ts (visit base)) st)) = book_id (book st)
    /\ map volume_name (volumes (book (exec (for_each ts (visit base)) st)))
       = map volume_name (volumes (book st)).
Proof.
  induction ts as [|[[vi vol] ci] ts IH]; intro st; [auto|].
  rewrite pass_cons.
  destruct (IH (exec (step base vi vol ci) st)) as (H1 & H2 & H3).
  destruct (resolve_chapter_keeps_names base vi vol ci st) as (K1 & K2 & K3).
  repeat split; congruence.
Qed.

Lemma precedes_irrefl (p q : nat * nat) : precedes p q -> ~ (q = p \/ precedes q p).
Proof.
  unfold precedes. destruct p as [a b], q as [c d]. simpl.
  intros H [Heq|H']; [inversion Heq|]; lia.
Qed.

(** After a pass over a site that does not change, no step changes the
    volumes any more. *)
Lemma resolve_chapter_settled (base : string) (st : State) (vi ci : nat)
    (vol' : Volume) (s : State) :
  stateless download ->
  volumes (book s) = volumes (book (exec (resolve_all base) st)) ->
  volumes (book (exec (step base vi vol' ci) s)) = volumes (book s).
Proof.
  intros Hsite Hs.
  assert (Hflat : exec (resolve_all base) st
                  = exec (for_each (targets (volumes (book st))) (visit base)) st)
    by (unfold exec; now rewrite resolve_all_special_chapters_flat).
  rewrite Hflat in Hs.
  destruct (chapter_at (volumes (book s)) vi ci) as [ch1|] eqn:Hch1.
  - pose proof (pass_rel base (targets (volumes (book st))) vi ci st) as Hrel.
    rewrite <- Hs, Hch1 in Hrel.
    destruct (chapter_at (volumes (book st)) vi ci) as [ch0|] eqn:Hch0;
      [|contradiction].
    destruct (in_targets _ _ _ _ Hch0) as [vol Hin].
    apply in_split in Hin. destruct Hin as (pre & post & Hsplit).
    rewrite Hsplit, pass_app, pass_cons in Hs.
    set (sp := exec (for_each pre (visit base)) st) in *.
    change (exec (visit base (vi, vol, ci)) sp) with (exec (step base vi vol ci) sp) in Hs.
    assert (Hlater : forall q, (q = (vi, ci) \/ precedes q (vi, ci)) ->
              ~ In q (map position post)).
    { intros q Hq Hin. apply (precedes_irrefl (vi, ci) q); [|exact Hq].
      apply (targets_later _ _ _ _ Hsplit q Hin). }
    apply (resolve_chapter_again base vi ci vol vol' sp s Hsite).
    + split.
      * rewrite Hs, pass_keeps_length. reflexivity.
      * intros v c Hvc. rewrite Hs.
        rewrite pass_frame; [reflexivity|]. apply Hlater. now right.
    + rewrite Hs. rewrite pass_frame; [reflexivity|]. apply Hlater. now left.
  - unfold exec, resolve_chapter. run_resolver. now rewrite Hch1.
Qed.

(** A second pass over a site that does not change leaves the book as
    the first pass left it. *)
Lemma second_pass_stateless (base : string) (st : State) :
  stateless download ->
  book (exec (resolve_all base) (exec (resolve_all base) st))
  = book (exec (resolve_all base) st).
Proof.
  intro Hsite. set (s1 := exec (resolve_all base) st).
  assert (Hflat : exec (resolve_all base) s1
                  = exec (for_each (targets (volumes (book s1))) (visit base)) s1)
    by (unfold exec; now rewrite resolve_all_special_chapters_flat).
  rewrite Hflat.
  assert (Hvols : forall ts s,
            volumes (book s) = volumes (book s1) ->
            volumes (book (exec (for_each ts (visit base)) s)) = volumes (book s1)).
  { induction ts as [|[[vi vol] ci] ts IH]; intros s Hs; [exact Hs|].
    rewrite pass_cons. apply IH.
    change (exec (visit base (vi, vol, ci)) s) with (exec (step base vi vol ci) s).
    rewrite (resolve_chapter_settled base st vi ci vol s Hsite Hs). exact Hs. }
  specialize (Hvols (targets (volumes (book s1))) s1 eq_refl).
  destruct (pass_keeps_names base (targets (volumes (book s1))) s1) as (Hn & Hid & _).
  destruct (book (exec (for_each (targets (volumes (book s1))) (visit base)) s1)),
    (book s1).
  simpl in *. congruence.
Qed.

(** ** The claims on [resolve_all_special_chapters] *)

(** Claim C8, as amended.  In a second run, every chapter that the
    first run left with [needs_resolve = False] is passed over: the
    step made for it changes nothing and downloads nothing, and the
    chapter is the same after the second run.  When the first run left
    no chapter to resolve, the second run changes nothing at all.  A
    chapter the first run could not resolve is tried again; the second
    run leaves the book unchanged all the same when the answer of the
    downloader depends on the address alone. *)
Theorem resolve_all_special_chapters_second_run (base : string) (st : State) :
  let s1 := exec (resolve_all base) st in
  let s2 := exec (resolve_all base) s1 in
  (forall vi ci ch,
     chapter_at (volumes (book s1)) vi ci = Some ch ->
     needs_resolve ch = false ->
     chapter_at (volumes (book s2)) vi ci = Some ch
     /\ forall vol (s : State),
          chapter_at (volumes (book s)) vi ci = Some ch ->
          step base vi vol ci s = (Ok tt, s))
  /\ (all_resolved (volumes (book s1)) -> resolve_all base s1 = (Ok tt, s1))
  /\ (stateless download -> book s2 = book s1).
Proof.
  intros s1 s2. split; [|split].
  - intros vi ci ch Hch Hneeds. split.
    + pose proof (pass_rel base (targets (volumes (book s1))) vi ci s1) as Hrel.
      unfold s2, exec at 1. rewrite resolve_all_special_chapters_flat.
      fold (exec (for_each (targets (volumes (book s1))) (visit base)) s1).
      rewrite Hch in Hrel.
      match goal with
      | |- ?entry = _ => destruct entry as [ch'|]
      end; simpl in Hrel; [|contradiction].
      destruct Hrel as [->|[Hcontra _]]; [reflexivity|congruence].
    + intros vol s Hs. eapply resolve_chapter_skip; eauto.
  - intro Hall. rewrite resolve_all_special_chapters_flat. now apply pass_skip.
  - intro Hsite. now apply second_pass_stateless.
Qed.

(** A walk that finds a next chapter started from an address that has
    the shape of a chapter address. *)
Lemma resolve_next_chapter_url_some (prev base : string) (max_hops : Z) (st : State)
    (resolved : string) :
  outcome (resolve_next prev base max_hops) st = Ok (Some resolved) ->
  _extract_article_and_chapter prev <> None.
Proof.
  unfold outcome, resolve_next_chapter_url.
  destruct (_extract_article_and_chapter prev); [discriminate|].
  run_resolver. discriminate.
Qed.

(** The step for a chapter to resolve that comes right after a resolved
    one, when the walk from the latter finds a next chapter. *)
Lemma resolve_chapter_after_resolved (base : string) (vi : nat) (vol : Volume)
    (ci : nat) (st : State) (ch prev : Chapter) (pv pc : nat) (resolved : string) :
  chapter_at (volumes (book st)) vi ci = Some ch ->
  needs_resolve ch = true ->
  chapter_at (volumes (book st)) pv pc = Some prev ->
  needs_resolve prev = false ->
  adjacent (volumes (book st)) (pv, pc) (vi, ci) ->
  outcome (resolve_next (url prev) base DEFAULT_MAX_HOPS) st = Ok (Some resolved) ->
  resolved <> EmptyString ->
  chapter_at (volumes (book (exec (step base vi vol ci) st))) vi ci
  = Some (resolved_chapter ch resolved).
Proof.
  intros Hch Hneeds Hprev Hprev_ok Hadj Hwalk Hresolved.
  pose proof (resolve_next_chapter_url_some _ _ _ _ _ Hwalk) as Hids.
  assert (Hurl : String.eqb (url prev) EmptyString || String.eqb (url prev) PLACEHOLDER
                 = false).
  { apply orb_false_iff. split; apply String.eqb_neq; intro Heq;
      rewrite Heq in Hids; now apply Hids. }
  pose proof (find_prev_normal_chapter_next _ _ _ _ _ _ _ Hprev Hprev_ok Hch Hadj)
    as Hfound.
  unfold exec, resolve_chapter. run_resolver.
  rewrite Hch, Hneeds. simpl.
  rewrite Hfound, Hurl.
  destruct (resolve_next_chapter_url_spec (url prev) base DEFAULT_MAX_HOPS st)
    as (r & s1 & new & Hrun & Hbook & _).
  unfold outcome in Hwalk. rewrite Hrun in *. simpl in Hwalk.
  inversion Hwalk; subst r.
  apply String.eqb_neq in Hresolved. rewrite Hresolved. simpl.
  rewrite !update_chapter_at_compose, Hbook.
  now rewrite chapter_at_update_same, Hch.
Qed.


(** ** Further properties of the walk *)

(** Property X7.  When the starting address has no chapter identity, or
    when the budget of hops is not positive, [resolve_next_chapter_url]
    returns [None] without calling the downloader: it only prints a
    line. *)
Theorem resolve_next_chapter_url_no_download (prev base : string) (max_hops : Z)
    (st : State) :
  _extract_article_and_chapter prev = None \/ max_hops <= 0 ->
  exists d,
    resolve_next prev base max_hops st
    = (Ok None, {| book := book st; downloader := downloader st;
                   stdout := stdout st ++ [d]; requested := requested st |}).
Proof.
  intro H. unfold resolve_next_chapter_url.
  destruct (_extract_article_and_chapter prev) as [[a c]|] eqn:Hids.
  - destruct H as [H|H]; [discriminate|].
    replace (Z.to_nat max_hops) with 0%nat by lia.
    run_resolver. eauto.
  - run_resolver. eauto.
Qed.

(** ** Further properties of the backward search and of the pass *)

(** Document order is total on positions. *)
Lemma precedes_total (p q : nat * nat) : precedes p q \/ p = q \/ precedes q p.
Proof.
  unfold precedes. destruct p as [a b], q as [c d]. simpl.
  destruct (lt_eq_lt_dec a c) as [[H|H]|H]; try lia.
  destruct (lt_eq_lt_dec b d) as [[H'|H']|H']; try lia.
  right. left. congruence.
Qed.

(** Property X8.  Called at the position of a chapter,
    [find_prev_normal_chapter] raises no [IndexError]; it returns the
    position and the object of the nearest chapter before that
    position, in document order and across volumes, that does not need
    resolving: every chapter in between needs resolving.  It returns
    [None] exactly when every chapter before the position needs
    resolving. *)
Theorem find_prev_normal_chapter_is_nearest (vols : list Volume) (vi ci : nat)
    (here : Chapter) :
  chapter_at vols vi ci = Some here ->
  (exists pv pc ch,
     find_prev_normal_chapter vols (Z.of_nat vi) (Z.of_nat ci)
     = Ok (Some (Z.of_nat pv, Z.of_nat pc, ch))
     /\ precedes (pv, pc) (vi, ci)
     /\ chapter_at vols pv pc = Some ch
     /\ needs_resolve ch = false
     /\ forall v c ch',
          precedes (pv, pc) (v, c) -> precedes (v, c) (vi, ci) ->
          chapter_at vols v c = Some ch' -> needs_resolve ch' = true)
  \/ (find_prev_normal_chapter vols (Z.of_nat vi) (Z.of_nat ci) = Ok None
      /\ forall v c ch',
           precedes (v, c) (vi, ci) ->
           chapter_at vols v c = Some ch' -> needs_resolve ch' = true).
Proof.
  intro Hhere.
  pose proof (find_prev_normal_chapter_nearest vols vi ci here Hhere) as Hfound.
  destruct (find_prev_normal_chapter vols (Z.of_nat vi) (Z.of_nat ci))
    as [[[[pv pc] ch]|]|e]; [| |contradiction].
  - left. destruct Hfound as (Hpv & Hpc & Hprec & Hat & Hres & Hbetween).
    exists (Z.to_nat pv), (Z.to_nat pc), ch.
    rewrite !Z2Nat.id by assumption. auto.
  - right. auto.
Qed.

(** The search finds a given chapter when that chapter does not need
    resolving and every chapter between it and the position does. *)
Lemma find_prev_normal_chapter_finds (vols : list Volume) (pv pc vi ci : nat)
    (prev here : Chapter) :
  chapter_at vols vi ci = Some here ->
  chapter_at vols pv pc = Some prev ->
  needs_resolve prev = false ->
  precedes (pv, pc) (vi, ci) ->
  (forall v c ch',
     precedes (pv, pc) (v, c) -> precedes (v, c) (vi, ci) ->
     chapter_at vols v c = Some ch' -> needs_resolve ch' = true) ->
  find_prev_normal_chapter vols (Z.of_nat vi) (Z.of_nat ci)
  = Ok (Some (Z.of_nat pv, Z.of_nat pc, prev)).
Proof.
  intros Hhere Hprev Hres Hbefore Hbetween.
  pose proof (find_prev_normal_chapter_nearest vols vi ci here Hhere) as Hfound.
  destruct (find_prev_normal_chapter vols (Z.of_nat vi) (Z.of_nat ci))
    as [[[[qv qc] ch]|]|e]; [| |contradiction].
  - destruct Hfound as (Hqv & Hqc & Hprec & Hat & Hch & Hbetween').
    destruct (precedes_total (Z.to_nat qv, Z.to_nat qc) (pv, pc)) as [H|[H|H]].
    + rewrite (Hbetween' pv pc prev H Hbefore Hprev) in Hres. discriminate.
    + inversion H; subst. rewrite Hat in Hprev. inversion Hprev; subst.
      now rewrite !Z2Nat.id.
    + rewrite (Hbetween _ _ _ H Hprec Hat) in Hch. discriminate.
  - rewrite (Hfound pv pc prev Hbefore Hprev) in Hres. discriminate.
Qed.

(** The step for a chapter to resolve, written out in terms of the
    nearest chapter before it that does not need resolving. *)
Lemma resolve_chapter_nearest_run (base : string) (vi : nat) (vol : Volume)
    (ci : nat) (st : State) (ch prev : Chapter) (pv pc : nat) :
  chapter_at (volumes (book st)) vi ci = Some ch ->
  needs_resolve ch = true ->
  chapter_at (volumes (book st)) pv pc = Some prev ->
  needs_resolve prev = false ->
  precedes (pv, pc) (vi, ci) ->
  (forall v c ch',
     precedes (pv, pc) (v, c) -> precedes (v, c) (vi, ci) ->
     chapter_at (volumes (book st)) v c = Some ch' -> needs_resolve ch' = true) ->
  url prev <> EmptyString ->
  url prev <> PLACEHOLDER ->
  exists r s1,
    resolve_next (url prev) base DEFAULT_MAX_HOPS st = (Ok r, s1)
    /\ book s1 = book st
    /\ step base vi vol ci st
       = match r with
         | Some resolved =>
             if String.eqb resolved EmptyString
             then print (ChapterNotResolved (title ch) (url ch)) s1
             else (update_book (update_chapter_at vi ci
                                  (set_original_url (Some (url ch)))) ;;
                   update_book (update_chapter_at vi ci (set_url resolved)) ;;
                   update_book (update_chapter_at vi ci (set_needs_resolve false)) ;;
                   print (ChapterUpdated (title ch) (url ch) resolved)) s1
         | None => print (ChapterNotResolved (title ch) (url ch)) s1
         end.
Proof.
  intros Hch Hneeds Hprev Hprev_ok Hbefore Hbetween Hurl1 Hurl2.
  pose proof (find_prev_normal_chapter_finds _ _ _ _ _ _ _ Hch Hprev Hprev_ok
                Hbefore Hbetween) as Hfound.
  apply String.eqb_neq in Hurl1, Hurl2.
  destruct (resolve_next_chapter_url_spec (url prev) base DEFAULT_MAX_HOPS st)
    as (r & s1 & new & Hrun & Hbook & _).
  exists r, s1. split; [exact Hrun|]. split; [exact Hbook|].
  unfold resolve_chapter. unfold bind at 1. unfold gets at 1. cbn beta iota.
  rewrite Hch, Hneeds. cbn [negb]. unfold bind at 1. cbn beta iota.
  rewrite Hfound. cbn beta iota. rewrite Hurl1, Hurl2. cbn [orb].
  unfold bind at 1. rewrite Hrun.
  destruct r as [resolved|]; [destruct (String.eqb resolved EmptyString)|];
    reflexivity.
Qed.

(** Property X9.  The step made for a chapter to resolve depends on the
    nearest chapter before it that does not need resolving, whether
    adjacent or not: when the walk from the address of that chapter
    returns an address, the chapter is resolved to it; when the walk
    returns [None], the book is left as it is.  The downloader is
    called by that walk only. *)
Theorem resolve_chapter_from_nearest (base : string) (vi : nat) (vol : Volume)
    (ci : nat) (st : State) (ch prev : Chapter) (pv pc : nat) :
  chapter_at (volumes (book st)) vi ci = Some ch ->
  needs_resolve ch = true ->
  chapter_at (volumes (book st)) pv pc = Some prev ->
  needs_resolve prev = false ->
  precedes (pv, pc) (vi, ci) ->
  (forall v c ch',
     precedes (pv, pc) (v, c) -> precedes (v, c) (vi, ci) ->
     chapter_at (volumes (book st)) v c = Some ch' -> needs_resolve ch' = true) ->
  url prev <> EmptyString ->
  url prev <> PLACEHOLDER ->
  let walk := resolve_next (url prev) base DEFAULT_MAX_HOPS in
  let st' := exec (step base vi vol ci) st in
  (forall resolved,
     outcome walk st = Ok (Some resolved) -> resolved <> EmptyString ->
     book st' = update_volumes (update_chapter_at vi ci (commit (url ch) resolved))
                  (book st)
     /\ chapter_at (volumes (book st')) vi ci = Some (resolved_chapter ch resolved))
  /\ (outcome walk st = Ok None -> book st' = book st)
  /\ requested st' = requested (exec walk st)
  /\ downloader st' = downloader (exec walk st).
Proof.
  intros Hch Hneeds Hprev Hprev_ok Hbefore Hbetween Hurl1 Hurl2 walk st'.
  destruct (resolve_chapter_nearest_run base vi vol ci st ch prev pv pc
              Hch Hneeds Hprev Hprev_ok Hbefore Hbetween Hurl1 Hurl2)
    as (r & s1 & Hrun & Hbook & Hstep).
  unfold st', walk, exec, outcome. rewrite Hstep, Hrun. cbn [fst snd].
  split; [|split].
  - intros resolved Hr Hne. inversion Hr; subst r.
    apply String.eqb_neq in Hne. rewrite Hne. run_resolver.
    rewrite update_volumes_commit, Hbook. split; [reflexivity|].
    simpl. now rewrite !chapter_at_update_same, Hch.
  - intro Hr. inversion Hr; subst r. run_resolver. exact Hbook.
  - destruct r as [resolved|]; [destruct (String.eqb resolved EmptyString)|];
      run_resolver; auto.
Qed.

Lemma precedes_trans (p q r : nat * nat) : precedes p q -> precedes q r -> precedes p r.
Proof.
  unfold precedes. destruct p as [a b], q as [c d], r as [e f]. simpl. lia.
Qed.

(** The step changes no chapter at or before a position up to which
    every chapter needs resolving. *)
Lemma resolve_chapter_keeps_leading (base : string) (vi : nat) (vol : Volume) (ci : nat)
    (st : State) (p : nat * nat) :
  (forall v c ch,
     (v, c) = p \/ precedes (v, c) p ->
     chapter_at (volumes (book st)) v c = Some ch -> needs_resolve ch = true) ->
  forall v c,
    (v, c) = p \/ precedes (v, c) p ->
    chapter_at (volumes (book (exec (step base vi vol ci) st))) v c
    = chapter_at (volumes (book st)) v c.
Proof.
  intros Hall v c Hvc.
  destruct (Nat.eq_dec vi v) as [->|Hv];
    [destruct (Nat.eq_dec ci c) as [->|Hc]|];
    try (apply resolve_chapter_frame; congruence).
  unfold exec.
  destruct (resolve_chapter_spec base v vol c st) as (st' & Hrun & Hcases).
  rewrite Hrun. simpl.
  destruct Hcases as [->|(ch & pv & pc & prev & r & s1 & Hch & _ & Hfound & _)];
    [reflexivity|].
  exfalso.
  pose proof (find_prev_normal_chapter_nearest _ _ _ _ Hch) as Hn.
  rewrite Hfound in Hn. destruct Hn as (_ & _ & Hprec & Hat & Hres & _).
  rewrite (Hall _ _ _ ltac:(right; destruct Hvc as [<-|Hvc];
                              [exact Hprec|exact (precedes_trans _ _ _ Hprec Hvc)]) Hat)
    in Hres.
  discriminate.
Qed.

(** Property X10.  The chapters at the head of the book that need
    resolving have no chapter to start from: when every chapter up to
    a position, that position included, needs resolving, the pass
    leaves the chapter at that position as it is. *)
Theorem leading_placeholders_stay (base : string) (st : State) (vi ci : nat) :
  (forall v c ch,
     (v, c) = (vi, ci) \/ precedes (v, c) (vi, ci) ->
     chapter_at (volumes (book st)) v c = Some ch -> needs_resolve ch = true) ->
  chapter_at (volumes (book (exec (resolve_all base) st))) vi ci
  = chapter_at (volumes (book st)) vi ci.
Proof.
  intro Hall. unfold exec at 1. rewrite resolve_all_special_chapters_flat.
  fold (exec (for_each (targets (volumes (book st))) (visit base)) st).
  generalize (targets (volumes (book st))) as ts.
  assert (Hpass : forall ts (s : State),
            (forall v c, (v, c) = (vi, ci) \/ precedes (v, c) (vi, ci) ->
               chapter_at (volumes (book s)) v c = chapter_at (volumes (book st)) v c) ->
            forall v c, (v, c) = (vi, ci) \/ precedes (v, c) (vi, ci) ->
              chapter_at (volumes (book (exec (for_each ts (visit base)) s))) v c
              = chapter_at (volumes (book st)) v c).
  { induction ts as [|[[tv tvol] tc] ts IH]; intros s Hs v c Hvc.
    - now apply Hs.
    - rewrite pass_cons. apply IH; [|exact Hvc].
      intros v' c' Hvc'. cbn beta iota.
      rewrite (resolve_chapter_keeps_leading base tv tvol tc s (vi, ci)).
      + now apply Hs.
      + intros v2 c2 ch Hvc2 Hch. rewrite (Hs _ _ Hvc2) in Hch. eauto.
      + exact Hvc'. }
  intro ts. apply (Hpass ts st); auto.
Qed.

Lemma printed_nil (s : State) : printed [] s = s.
Proof. destruct s. unfold printed. simpl. now rewrite app_nil_r. Qed.

Lemma printed_app (l1 l2 : list diag) (s : State) :
  printed l2 (printed l1 s) = printed (l1 ++ l2) s.
Proof. unfold printed. simpl. now rewrite app_assoc. Qed.

(** Property X11.  In a book in which every chapter needs resolving
    there is nothing to start from: the pass returns without calling
    the downloader and without changing the book; it prints one line
    per chapter, in document order, saying that the chapter has no
    predecessor. *)
Theorem resolve_all_special_chapters_nothing_to_start_from (base : string) (st : State) :
  (forall v c ch,
     chapter_at (volumes (book st)) v c = Some ch -> needs_resolve ch = true) ->
  resolve_all base st
  = (Ok tt,
     printed (flat_map (fun vol => map (fun ch => NoPrevChapter (volume_name vol) (title ch))
                                       (chapters vol))
                       (volumes (book st)))
             st).
Proof.
  intro Hall.
  (* one step *)
  assert (Hstep : forall vi vol ci ch lines,
            chapter_at (volumes (book st)) vi ci = Some ch ->
            step base vi vol ci (printed lines st)
            = (Ok tt, printed (lines ++ [NoPrevChapter (volume_name vol) (title ch)]) st)).
  { intros vi vol ci ch lines Hch.
    pose proof (find_prev_normal_chapter_nearest _ _ _ _ Hch) as Hn.
    unfold resolve_chapter. unfold bind at 1. unfold gets at 1. cbn beta iota.
    cbn [printed book]. rewrite Hch, (Hall _ _ _ Hch). cbn [negb].
    unfold bind at 1. cbn beta iota. cbn [printed book].
    destruct (find_prev_normal_chapter (volumes (book st)) (Z.of_nat vi) (Z.of_nat ci))
      as [[[[pv pc] prev]|]|e]; [| |contradiction].
    - destruct Hn as (_ & _ & _ & Hat & Hres & _).
      rewrite (Hall _ _ _ Hat) in Hres. discriminate.
    - rewrite print_run. now rewrite <- printed_app. }
  (* the inner loop, from chapter [k] of a volume on *)
  assert (Hinner : forall vi vol l k lines,
            (forall i ch, nth_error l i = Some ch ->
               chapter_at (volumes (book st)) vi (k + i) = Some ch) ->
            for_each (enumerate_from k l) (fun '(ci, _) => step base vi vol ci)
              (printed lines st)
            = (Ok tt,
               printed (lines ++ map (fun ch => NoPrevChapter (volume_name vol) (title ch)) l)
                 st)).
  { intros vi vol l. induction l as [|ch l IH]; intros k lines Hl.
    - simpl. now rewrite app_nil_r.
    - simpl. unfold bind.
      rewrite (Hstep vi vol k ch lines)
        by (rewrite <- (Nat.add_0_r k); now apply (Hl 0%nat)).
      rewrite IH.
      + now rewrite <- app_assoc.
      + intros i ch' Hi. replace (S k + i)%nat with (k + S i)%nat by lia.
        now apply Hl. }
  (* the outer loop, from volume [n] on *)
  assert (Houter : forall vols n lines,
            (forall j vol, nth_error vols j = Some vol ->
               nth_error (volumes (book st)) (n + j) = Some vol) ->
            for_each (enumerate_from n vols)
              (fun '(vi, vol) =>
                 for_each (enumerate (chapters vol)) (fun '(ci, _) => step base vi vol ci))
              (printed lines st)
            = (Ok tt,
               printed (lines ++ flat_map
                                   (fun vol =>
                                      map (fun ch => NoPrevChapter (volume_name vol) (title ch))
                                          (chapters vol)) vols)
                 st)).
  { induction vols as [|vol vols IH]; intros n lines Hv.
    - simpl. now rewrite app_nil_r.
    - simpl. unfold bind, enumerate.
      rewrite (Hinner n vol (chapters vol) 0%nat lines).
      + rewrite IH.
        * now rewrite <- app_assoc.
        * intros j vol' Hj. replace (S n + j)%nat with (n + S j)%nat by lia.
          now apply Hv.
      + intros i ch Hi. unfold chapter_at.
        rewrite <- (Nat.add_0_r n), (Hv 0%nat vol eq_refl). exact Hi. }
  unfold resolve_all_special_chapters. unfold bind at 1. unfold gets at 1.
  cbn beta iota.
  pose proof (Houter (volumes (book st)) 0%nat [] (fun j vol H => H)) as Hrun.
  rewrite printed_nil in Hrun. exact Hrun.
Qed.


(** ** The downloads of a pass *)

Lemma served_app (new1 new2 : list string) (d : DS) :
  served download (new1 ++ new2) d = served download new1 (served download new2 d).
Proof. unfold served. apply fold_right_app. Qed.

(** The walk hands the downloader at most [hops] addresses, one after
    the other, and does nothing else to it. *)
Lemma follow_nextpage_served (hops : nat) (prev base a c : string) :
  forall (visited : list string) (cur : string) (st : State),
  exists new,
    requested (exec (follow hops prev base a c visited cur) st) = new ++ requested st
    /\ (List.length new <= hops)%nat
    /\ downloader (exec (follow hops prev base a c visited cur) st)
       = served download new (downloader st).
Proof.
  unfold exec.
  induction hops as [|hops IH]; intros visited cur st.
  - exists []. repeat split; auto.
  - simpl.
    destruct (existsb (String.eqb (full base cur)) visited).
    + run_resolver. exists []. repeat split; simpl; auto with arith.
    + run_resolver.
      destruct (download (full base cur) (downloader st)) as [[html|e] d'] eqn:Hdl;
        [|exists [full base cur]; simpl; rewrite Hdl; auto with arith].
      destruct (nextpage_of html) as [next_path|];
        [|exists [full base cur]; simpl; rewrite Hdl; auto with arith].
      destruct (_extract_article_and_chapter next_path) as [[a2 c2]|];
        [|exists [full base cur]; simpl; rewrite Hdl; auto with arith].
      destruct (negb (String.eqb a2 a));
        [exists [full base cur]; simpl; rewrite Hdl; auto with arith|].
      destruct (String.eqb c2 c);
        [|exists [full base cur]; simpl; rewrite Hdl; auto with arith].
      match goal with
      | |- context [follow hops prev base a c ?v ?u ?s] =>
          destruct (IH v u s) as (new & Hreq & Hlen & Hd)
      end.
      exists (new ++ [full base cur]). rewrite Hreq, Hd, served_app. simpl.
      rewrite Hdl, <- app_assoc, length_app. simpl. repeat split. lia.
Qed.

Lemma resolve_next_chapter_url_served (prev base : string) (max_hops : Z) (st : State) :
  exists new,
    requested (exec (resolve_next prev base max_hops) st) = new ++ requested st
    /\ (List.length new <= Z.to_nat max_hops)%nat
    /\ downloader (exec (resolve_next prev base max_hops) st)
       = served download new (downloader st).
Proof.
  unfold exec, resolve_next_chapter_url.
  destruct (_extract_article_and_chapter prev) as [[a c]|].
  - run_resolver.
    destruct (follow_nextpage_served (Z.to_nat max_hops) prev base a c [] prev st)
      as (new & Hreq & Hlen & Hd).
    unfold exec in Hreq, Hd.
    destruct (follow (Z.to_nat max_hops) prev base a c [] prev st) as [[[returned|]|e] st'];
      exists new; simpl in *; auto.
  - run_resolver. exists []. repeat split; simpl; auto with arith.
Qed.

(** The step for a chapter that does not need resolving hands nothing
    to the downloader; the step for one that does hands it at most
    [DEFAULT_MAX_HOPS] addresses. *)
Lemma resolve_chapter_served (base : string) (vi : nat) (vol : Volume) (ci : nat)
    (st : State) :
  exists new,
    requested (exec (step base vi vol ci) st) = new ++ requested st
    /\ (List.length new
        <= if to_resolve (volumes (book st)) (vi, ci) then Z.to_nat DEFAULT_MAX_HOPS else 0)%nat
    /\ downloader (exec (step base vi vol ci) st) = served download new (downloader st).
Proof.
  unfold exec, resolve_chapter, to_resolve. run_resolver.
  destruct (chapter_at (volumes (book st)) vi ci) as [ch|] eqn:Hch;
    [|exists []; auto].
  destruct (needs_resolve ch) eqn:Hneeds; simpl; [|exists []; auto].
  destruct (find_prev_normal_chapter (volumes (book st)) (Z.of_nat vi) (Z.of_nat ci))
    as [[[[pv pc] prev]|]|e]; try (exists []; simpl; split; [reflexivity|split; [lia|reflexivity]]).
  destruct (String.eqb (url prev) EmptyString || String.eqb (url prev) PLACEHOLDER);
    [exists []; simpl; split; [reflexivity|split; [lia|reflexivity]]|].
  destruct (resolve_next_chapter_url_served (url prev) base DEFAULT_MAX_HOPS st)
    as (new & Hreq & Hlen & Hd).
  unfold exec in Hreq, Hd.
  destruct (resolve_next (url prev) base DEFAULT_MAX_HOPS st) as [[[resolved|]|e] s1];
    simpl in *; try solve [exists new; auto].
  destruct (String.eqb resolved EmptyString); exists new; auto.
Qed.

(** A step does not make a chapter need resolving. *)
Lemma resolve_chapter_to_resolve (base : string) (vi : nat) (vol : Volume) (ci : nat)
    (st : State) (p : nat * nat) :
  to_resolve (volumes (book (exec (step base vi vol ci) st))) p = true ->
  to_resolve (volumes (book st)) p = true.
Proof.
  unfold to_resolve. destruct p as [vj cj]. simpl.
  pose proof (resolve_chapter_rel base vi vol ci st vj cj) as Hrel.
  destruct (chapter_at (volumes (book st)) vj cj) as [ch|];
    destruct (chapter_at (volumes (book (exec (step base vi vol ci) st))) vj cj) as [ch'|];
    simpl in Hrel; try contradiction; auto.
  destruct Hrel as [->|(Hneeds & resolved & _ & ->)]; auto.
Qed.

(** A pass hands the downloader at most [DEFAULT_MAX_HOPS] addresses
    for each of its targets that needs resolving when the pass
    starts. *)
Lemma pass_served (base : string) (ts : list (nat * Volume * nat)) :
  forall st : State,
  exists new,
    requested (exec (for_each ts (visit base)) st) = new ++ requested st
    /\ (List.length new
        <= Z.to_nat DEFAULT_MAX_HOPS
           * List.length (filter (to_resolve (volumes (book st))) (map position ts)))%nat
    /\ downloader (exec (for_each ts (visit base)) st) = served download new (downloader st).
Proof.
  induction ts as [|[[vi vol] ci] ts IH]; intro st.
  - exists []. simpl. auto with arith.
  - rewrite pass_cons.
    destruct (resolve_chapter_served base vi vol ci st) as (new1 & Hreq1 & Hlen1 & Hd1).
    destruct (IH (exec (step base vi vol ci) st)) as (new2 & Hreq2 & Hlen2 & Hd2).
    exists (new2 ++ new1).
    rewrite Hreq2, Hreq1, Hd2, Hd1, served_app, app_assoc, length_app.
    split; [reflexivity|]. split; [|reflexivity].
    assert (Hmono :
      (List.length (filter (to_resolve (volumes (book (exec (step base vi vol ci) st))))
                      (map position ts))
       <= List.length (filter (to_resolve (volumes (book st))) (map position ts)))%nat).
    { clear. induction (map position ts) as [|p ps IHp]; simpl; [lia|].
      destruct (to_resolve (volumes (book (exec (step base vi vol ci) st))) p) eqn:Hp.
      - rewrite (resolve_chapter_to_resolve _ _ _ _ _ _ Hp). simpl. lia.
      - destruct (to_resolve (volumes (book st)) p); simpl; lia. }
    cbn [map position filter].
    destruct (to_resolve (volumes (book st)) (vi, ci)); simpl List.length; nia.
Qed.

(** The targets that need resolving are the chapters of the book that
    need resolving. *)
Lemma to_resolve_chapters (vols : list Volume) (vi : nat) (vol : Volume) :
  nth_error vols vi = Some vol ->
  forall (pre chs : list Chapter),
    chapters vol = pre ++ chs ->
    List.length
      (filter (to_resolve vols)
         (map position
            (map (fun '(ci, _) => (vi, vol, ci)) (enumerate_from (List.length pre) chs))))
    = List.length (filter needs_resolve chs).
Proof.
  intros Hvol pre chs. revert pre.
  induction chs as [|ch chs IH]; intros pre Hsplit; [reflexivity|].
  cbn [enumerate_from map position filter].
  assert (Hat : to_resolve vols (vi, List.length pre) = needs_resolve ch).
  { unfold to_resolve, chapter_at. simpl. rewrite Hvol, Hsplit.
    rewrite nth_error_app2 by lia. now rewrite Nat.sub_diag. }
  rewrite Hat.
  specialize (IH (pre ++ [ch])). rewrite length_app in IH. simpl in IH.
  rewrite Nat.add_1_r in IH.
  destruct (needs_resolve ch); simpl; rewrite IH; auto; now rewrite <- app_assoc.
Qed.

Lemma to_resolve_targets (vols : list Volume) :
  List.length (filter (to_resolve vols) (map position (targets vols)))
  = placeholders vols.
Proof.
  unfold targets, placeholders, enumerate.
  assert (Hgen : forall pre rest,
            vols = pre ++ rest ->
            List.length
              (filter (to_resolve vols)
                 (map position
                    (flat_map (fun '(vi, vol) =>
                                 map (fun '(ci, _) => (vi, vol, ci))
                                     (enumerate (chapters vol)))
                              (enumerate_from (List.length pre) rest))))
            = List.length (filter needs_resolve (flat_map chapters rest))).
  { intros pre rest. revert pre.
    induction rest as [|vol rest IH]; intros pre Hsplit; [reflexivity|].
    cbn [enumerate_from flat_map].
    rewrite map_app, !filter_app, !length_app.
    specialize (IH (pre ++ [vol])). rewrite length_app in IH. simpl in IH.
    rewrite Nat.add_1_r in IH. rewrite IH by now rewrite <- app_assoc.
    f_equal. apply (to_resolve_chapters vols (List.length pre) vol) with (pre := []).
    - rewrite Hsplit, nth_error_app2 by lia. now rewrite Nat.sub_diag.
    - reflexivity. }
  exact (Hgen [] vols eq_refl).
Qed.

(** Property X21.  A pass hands the downloader at most
    [DEFAULT_MAX_HOPS] = 20 addresses for each chapter of the book that
    needs resolving when the pass starts, and nothing for the others;
    the downloader it leaves behind is the one it was given after
    those downloads, made one after the other. *)
Theorem resolve_all_special_chapters_downloads (base : string) (st : State) :
  let st' := exec (resolve_all_special_chapters urljoin script_texts download base) st in
  exists new,
    requested st' = new ++ requested st
    /\ (List.length new <= 20 * placeholders (volumes (book st)))%nat
    /\ downloader st' = served download new (downloader st).
Proof.
  intro st'. unfold st', exec. rewrite resolve_all_special_chapters_flat.
  destruct (pass_served base (targets (volumes (book st))) st) as (new & Hreq & Hlen & Hd).
  rewrite to_resolve_targets in Hlen.
  exists new. split; [exact Hreq|]. split; [|exact Hd].
  change (Z.to_nat DEFAULT_MAX_HOPS) with 20%nat in Hlen. exact Hlen.
Qed.

End ResolverFacts.

(** ** The claims on the resolver, at concrete books and sites *)

Lemma resolve_next_chapter_url_three_pages_witness :
  outcome (resolve_next_chapter_url urljoin_root one_script (static_download book_4519)
             (SITE ++ "/novel/4519/262081.html") SITE 20)
          (start_with cascade_book tt)
  = Ok (Some (SITE ++ "/novel/4519/262082.html")%string).
Proof.
  apply (resolve_next_chapter_url_three_pages urljoin_root one_script unit
           (static_download book_4519) SITE (SITE ++ "/novel/4519/262081.html")
           (page_pointing_to "/novel/4519/262081_2.html")
           (page_pointing_to "/novel/4519/262082.html")
           20 (start_with cascade_book tt) tt tt).
  - reflexivity.
  - reflexivity.
  - reflexivity.
  - vm_compute. discriminate.
  - reflexivity.
  - reflexivity.
  - lia.
Defined.


Example looping_pages_two_downloads :
  let st' := exec (resolve_next_chapter_url urljoin_root one_script
                     (static_download looping_pages) "/novel/7/100.html" SITE 20)
                  (start_with cascade_book tt) in
  requested st' = [ (SITE ++ "/novel/7/100_2.html")%string;
                    (SITE ++ "/novel/7/100.html")%string ]
  /\ stdout st' = [ CycleDetected (SITE ++ "/novel/7/100.html") ].
Proof. vm_compute. auto. Qed.


Example static_download_is_stateless (site : string -> result string) :
  stateless (static_download site).
Proof. exists site. reflexivity. Qed.

Lemma resolve_all_special_chapters_second_run_witness :
  let run := resolve_all_special_chapters urljoin_root one_script
               (static_download book_4519) SITE in
  let s1 := exec run (start_with headless_book tt) in
  let s2 := exec run s1 in
  chapter_at (volumes (book s1)) 0 0 = Some (hidden_chapter 0 "c0")
  /\ chapter_at (volumes (book s1)) 0 2
     = Some (resolved_chapter (hidden_chapter 2 "c2") (SITE ++ "/novel/4519/262082.html"))
  /\ book s2 = book s1.
Proof.
  intros run s1 s2.
  split; [reflexivity|]. split; [reflexivity|].
  apply (resolve_all_special_chapters_second_run urljoin_root one_script unit
           (static_download book_4519) SITE (start_with headless_book tt)).
  apply static_download_is_stateless.
Defined.

(** Claim C8 as stated fails when the network answers differently the
    second time.  The first GET of this downloader fails, and it is
    built with one attempt per download: the first run leaves the
    hidden chapter as it is; the second run, on the book the first run
    produced, resolves it. *)
Lemma second_run_changes_book :
  let run := resolve_all_special_chapters urljoin_root one_script
               (fun full_url => download urljoin_root flaky_env full_url 30) SITE in
  let s1 := exec run (start_with short_book (fresh_downloader 1)) in
  let s2 := exec run s1 in
  book s1 = short_book
  /\ chapter_at (volumes (book s2)) 0 1
     = Some (resolved_chapter (hidden_chapter 1 "c1") (SITE ++ "/novel/4519/262082.html"))
  /\ book s2 <> book s1.
Proof.
  vm_compute. repeat split. discriminate.
Qed.

(** ** The further properties of the resolver, at concrete surroundings *)

Lemma resolve_next_chapter_url_no_download_witness :
  exists d,
    resolve_next_chapter_url urljoin_root one_script (static_download book_4519)
      PLACEHOLDER SITE 20 (start_with cascade_book tt)
    = (Ok None,
       {| book := cascade_book; downloader := tt; stdout := [] ++ [d]; requested := [] |}).
Proof.
  apply (resolve_next_chapter_url_no_download urljoin_root one_script unit
           (static_download book_4519) PLACEHOLDER SITE 20 (start_with cascade_book tt)).
  left. reflexivity.
Defined.

Lemma find_prev_normal_chapter_is_nearest_witness :
  (exists pv pc ch,
     find_prev_normal_chapter (volumes three_volume_book) (Z.of_nat 2) (Z.of_nat 0)
     = Ok (Some (Z.of_nat pv, Z.of_nat pc, ch))
     /\ precedes (pv, pc) (2, 0)%nat
     /\ chapter_at (volumes three_volume_book) pv pc = Some ch
     /\ needs_resolve ch = false
     /\ forall v c ch',
          precedes (pv, pc) (v, c) -> precedes (v, c) (2, 0)%nat ->
          chapter_at (volumes three_volume_book) v c = Some ch' ->
          needs_resolve ch' = true)
  \/ (find_prev_normal_chapter (volumes three_volume_book) (Z.of_nat 2) (Z.of_nat 0)
      = Ok None
      /\ forall v c ch',
           precedes (v, c) (2, 0)%nat ->
           chapter_at (volumes three_volume_book) v c = Some ch' ->
           needs_resolve ch' = true).
Proof.
  apply (find_prev_normal_chapter_is_nearest (volumes three_volume_book) 2 0
           (hidden_chapter 2 "c2")).
  reflexivity.
Defined.

(** The third volume of [three_volume_book] starts with a chapter to
    resolve; the nearest chapter to start from is the first chapter of
    the first volume, two chapters and an empty volume before. *)
Lemma resolve_chapter_from_nearest_witness :
  let st := start_with three_volume_book tt in
  let vol := {| volume_name := "volume 3";
                chapters := [ hidden_chapter 2 "c2"; hidden_chapter 3 "c3" ] |} in
  let st' := exec (resolve_chapter urljoin_root one_script (static_download book_4519)
                     SITE 2 vol 0) st in
  chapter_at (volumes (book st')) 2 0
  = Some (resolved_chapter (hidden_chapter 2 "c2") (SITE ++ "/novel/4519/262082.html")).
Proof.
  intros st vol st'.
  destruct (resolve_chapter_from_nearest urljoin_root one_script unit
              (static_download book_4519) SITE 2 vol 0 st
              (hidden_chapter 2 "c2")
              (listed_chapter 0 "c0" (SITE ++ "/novel/4519/262081.html")) 0 0)
    as [Hresolved _].
  - reflexivity.
  - reflexivity.
  - reflexivity.
  - reflexivity.
  - left. simpl. lia.
  - intros v c ch' Hafter Hbefore Hch.
    unfold precedes in Hafter, Hbefore. simpl in Hafter, Hbefore.
    destruct v as [|[|v]]; [| |lia].
    + destruct c as [|[|c]]; [lia| |destruct c; discriminate Hch].
      inversion Hch. reflexivity.
    + destruct c; discriminate Hch.
  - discriminate.
  - discriminate.
  - apply (Hresolved (SITE ++ "/novel/4519/262082.html")%string).
    + reflexivity.
    + discriminate.
Defined.

Lemma leading_placeholders_stay_witness :
  let st := start_with late_start_book tt in
  chapter_at (volumes (book (exec (resolve_all_special_chapters urljoin_root one_script
                                     (static_download book_4519) SITE) st))) 0 1
  = chapter_at (volumes (book st)) 0 1.
Proof.
  intro st.
  apply (leading_placeholders_stay urljoin_root one_script unit
           (static_download book_4519) SITE st 0 1).
  intros v c ch Hvc Hch.
  assert (Hv : v = 0%nat /\ (c = 0 \/ c = 1)%nat).
  { destruct Hvc as [Heq|Hlt].
    - inversion Heq. lia.
    - unfold precedes in Hlt. simpl in Hlt. lia. }
  destruct Hv as [-> [->| ->]]; inversion Hch; reflexivity.
Defined.

Lemma resolve_all_special_chapters_nothing_to_start_from_witness :
  resolve_all_special_chapters urljoin_root one_script (static_download book_4519) SITE
    (start_with unlisted_book tt)
  = (Ok tt,
     printed [NoPrevChapter "volume 1" "c0"; NoPrevChapter "volume 1" "c1"]
       (start_with unlisted_book tt)).
Proof.
  apply (resolve_all_special_chapters_nothing_to_start_from urljoin_root one_script unit
           (static_download book_4519) SITE (start_with unlisted_book tt)).
  intros v c ch Hch.
  destruct v as [|v]; [|destruct v; discriminate Hch].
  destruct c as [|[|c]]; [| |destruct c; discriminate Hch];
    inversion Hch; reflexivity.
Defined.


(* ===================================================================== *)
(** * Facts on the downloader *)
(* ===================================================================== *)

(** ** Properties kept by every step of a computation *)

Section Always.

Variable R : DState -> DState -> Prop.
Hypothesis R_refl : forall s, R s s.
Hypothesis R_trans : forall s1 s2 s3, R s1 s2 -> R s2 s3 -> R s1 s3.

Lemma always_ret {A : Type} (a : A) : always R (ret a).
Proof. intro s. apply R_refl. Qed.

Lemma always_raise {A : Type} (e : exn) : always R (@raise DState A e).
Proof. intro s. apply R_refl. Qed.

Lemma always_gets {A : Type} (f : DState -> A) : always R (gets f).
Proof. intro s. apply R_refl. Qed.

Lemma always_lift_result {A : Type} (r : result A) : always R (lift_result r).
Proof. intro s. apply R_refl. Qed.

Lemma always_bind {A B : Type} (m : M DState A) (f : A -> M DState B) :
  always R m -> (forall a, always R (f a)) -> always R (bind m f).
Proof.
  intros Hm Hf s. unfold exec, bind. specialize (Hm s). unfold exec in Hm.
  destruct (m s) as [[a|e] s1]; simpl in *; [|exact Hm].
  eapply R_trans; [exact Hm|]. apply Hf.
Qed.

Lemma always_try_except {A : Type} (body : M DState A) (class : exn -> bool)
    (handler : exn -> M DState A) :
  always R body -> (forall e, always R (handler e)) ->
  always R (try_except body class handler).
Proof.
  intros Hbody Hh s. unfold exec, try_except. specialize (Hbody s).
  unfold exec in Hbody.
  destruct (body s) as [[a|e] s1]; simpl in *; [exact Hbody|].
  destruct (class e); simpl; [|exact Hbody].
  eapply R_trans; [exact Hbody|]. apply Hh.
Qed.

End Always.

Lemma same_sent_refl (s : DState) : same_sent s s.
Proof. reflexivity. Qed.

Lemma same_sent_trans (s1 s2 s3 : DState) :
  same_sent s1 s2 -> same_sent s2 s3 -> same_sent s1 s3.
Proof. unfold same_sent. congruence. Qed.

Lemma trace_grows_refl (s : DState) : trace_grows s s.
Proof. exists []. now rewrite app_nil_r. Qed.

Lemma trace_grows_trans (s1 s2 s3 : DState) :
  trace_grows s1 s2 -> trace_grows s2 s3 -> trace_grows s1 s3.
Proof.
  intros [e1 H1] [e2 H2]. exists (e1 ++ e2). now rewrite H2, H1, app_assoc.
Qed.

Lemma free_bind {A B : Type} (m : M DState A) (f : A -> M DState B) :
  always same_sent m -> (forall a, always same_sent (f a)) -> always same_sent (bind m f).
Proof. apply always_bind. exact same_sent_trans. Qed.

Lemma free_try_except {A : Type} (body : M DState A) (class : exn -> bool)
    (handler : exn -> M DState A) :
  always same_sent body -> (forall e, always same_sent (handler e)) ->
  always same_sent (try_except body class handler).
Proof. apply always_try_except. exact same_sent_trans. Qed.

Lemma grows_bind {A B : Type} (m : M DState A) (f : A -> M DState B) :
  always trace_grows m -> (forall a, always trace_grows (f a)) ->
  always trace_grows (bind m f).
Proof. apply always_bind. exact trace_grows_trans. Qed.

Lemma grows_try_except {A : Type} (body : M DState A) (class : exn -> bool)
    (handler : exn -> M DState A) :
  always trace_grows body -> (forall e, always trace_grows (handler e)) ->
  always trace_grows (try_except body class handler).
Proof. apply always_try_except. exact trace_grows_trans. Qed.

Lemma sends_weaken {A : Type} (n n' : nat) (m : M DState A) :
  (n <= n')%nat -> sends n m -> sends n' m.
Proof. intros Hle Hm s. specialize (Hm s). lia. Qed.

Lemma sends_free {A : Type} (n : nat) (m : M DState A) :
  always same_sent m -> sends n m.
Proof. intros Hm s. rewrite (Hm s). lia. Qed.

Lemma sends_bind {A B : Type} (a b : nat) (m : M DState A) (f : A -> M DState B) :
  sends a m -> (forall x, sends b (f x)) -> sends (a + b) (bind m f).
Proof.
  intros Hm Hf s. unfold exec, bind. specialize (Hm s). unfold exec in Hm.
  destruct (m s) as [[x|e] s1]; simpl in *; [|lia].
  specialize (Hf x s1). unfold exec in Hf. lia.
Qed.

Lemma sends_try_except {A : Type} (a b : nat) (body : M DState A)
    (class : exn -> bool) (handler : exn -> M DState A) :
  sends a body -> (forall e, sends b (handler e)) ->
  sends (a + b) (try_except body class handler).
Proof.
  intros Hbody Hh s. unfold exec, try_except. specialize (Hbody s).
  unfold exec in Hbody.
  destruct (body s) as [[x|e] s1]; simpl in *; [lia|].
  destruct (class e); simpl; [|lia].
  specialize (Hh e s1). unfold exec in Hh. lia.
Qed.

Section DownloaderFacts.

Variable urljoin : string -> string -> string.
Variable env : Env.

(** *** What sends nothing *)

Ltac free_step :=
  first
    [ apply free_bind; [|intro]
    | apply free_try_except; [|intro]
    | match goal with
      | |- always _ (match ?x with _ => _ end) => destruct x
      end
    | intros ?; reflexivity ].

Lemma warn_free (w : warning) : always same_sent (warn w).
Proof. intro s. reflexivity. Qed.

Lemma time_sleep_free (secs : Q) : always same_sent (time_sleep env secs).
Proof. unfold time_sleep. repeat free_step. Qed.

Lemma random_uniform_free (a b : Q) : always same_sent (random_uniform env a b).
Proof. intro s. reflexivity. Qed.

Lemma random_choice_free (l : list string) : always same_sent (random_choice env l).
Proof. intro s. reflexivity. Qed.

Lemma raise_for_status_free (r : Response) : always same_sent (raise_for_status r).
Proof. unfold raise_for_status. repeat free_step. Qed.

Lemma _sleep_for_rate_limit_free : always same_sent (_sleep_for_rate_limit env).
Proof.
  unfold _sleep_for_rate_limit, time_monotonic.
  repeat first [apply time_sleep_free | apply random_uniform_free | free_step].
Qed.

Lemma on_request_exception_free (url : string) (attempt : Z) (e : exn) :
  always same_sent (on_request_exception env url attempt e).
Proof.
  unfold on_request_exception.
  repeat first [apply time_sleep_free | apply warn_free | free_step].
Qed.

Ltac free :=
  repeat first
    [ apply warn_free | apply time_sleep_free | apply random_uniform_free
    | apply random_choice_free | apply raise_for_status_free
    | apply _sleep_for_rate_limit_free | apply on_request_exception_free
    | free_step ].

(** *** The GETs of one attempt *)

Lemma sends_bind_free_l {A B : Type} (n : nat) (m : M DState A) (f : A -> M DState B) :
  always same_sent m -> (forall x, sends n (f x)) -> sends n (bind m f).
Proof.
  intros Hm Hf. apply (sends_bind 0 n); [now apply sends_free|exact Hf].
Qed.

Lemma sends_bind_free_r {A B : Type} (n : nat) (m : M DState A) (f : A -> M DState B) :
  sends n m -> (forall x, always same_sent (f x)) -> sends n (bind m f).
Proof.
  intros Hm Hf. apply (sends_weaken (n + 0)); [lia|].
  apply sends_bind; [exact Hm|]. intro x. now apply sends_free.
Qed.

Lemma session_get_sends (url : string) (timeout : Z) (hs : Headers) :
  sends 1 (session_get env url timeout hs).
Proof. intro s. simpl. lia. Qed.

(** After a GET, what follows is run on an answer of the network. *)
Lemma session_get_then {B : Type} (n : nat) (url : string) (timeout : Z) (hs : Headers)
    (f : Response -> M DState B) :
  (forall k r, net_get env k url timeout hs = Ok r -> sends n (f r)) ->
  sends (1 + n) (bind (session_get env url timeout hs) f).
Proof.
  intros Hf s. unfold exec, bind, session_get.
  destruct (net_get env (sent (world s)) url timeout hs) as [r|e] eqn:Hnet; simpl.
  - specialize (Hf _ _ Hnet). unfold sends, exec in Hf.
    match goal with |- context [f r ?s1] => specialize (Hf s1) end.
    simpl in Hf. lia.
  - lia.
Qed.

Lemma get_without_compression_sends (url : string) (timeout : Z) :
  sends 1 (get_without_compression env url timeout).
Proof.
  unfold get_without_compression.
  apply sends_bind_free_l; [free|]. intro me.
  apply sends_bind_free_r; [apply session_get_sends|]. intro r. free.
Qed.

Lemma decode_body_sends (url : string) (timeout : Z) (r : Response) (ce : string) :
  sends 1 (decode_body env url timeout r ce).
Proof.
  unfold decode_body.
  destruct (negb (String.eqb ce EmptyString)); [|apply sends_free; free].
  destruct (contains "br" ce); [|apply sends_free; free].
  apply (sends_try_except 0 1).
  - apply sends_free. free.
  - intro e. destruct (is_ImportError e);
      (apply sends_bind_free_l; [free|]; intros _;
       apply get_without_compression_sends).
Qed.

Lemma decode_body_free (url : string) (timeout : Z) (r : Response) (ce : string) :
  contains "br" ce = false -> always same_sent (decode_body env url timeout r ce).
Proof.
  intro Hbr. unfold decode_body. rewrite Hbr. free.
Qed.

(** What follows the decoding in [receive] sends nothing. *)
Lemma receive_tail_free (ce : string) (decoded : Response * string) :
  always same_sent
    (let '(response, text_content) := decoded in
     (if negb (startswith (strip text_content) "<!") &&
         negb (startswith (strip text_content) "<html")
      then warn (ContentNotHtml (substring 0 100 text_content)) else ret tt) ;;
     text_content <-
       (match truthy (apparent_encoding response) with
        | Some enc =>
            if negb (contains "br" ce) then
              try_except
                (lift_result (bytes_decode env (content response) enc))
                any_Exception
                (fun _ => ret text_content)
            else ret text_content
        | None => ret text_content
        end) ;;
     now <- time_monotonic ;;
     modify (fun s => {| self := set_last_request_ts now (self s); world := world s |}) ;;
     ret text_content).
Proof. unfold time_monotonic. free. Qed.

Lemma receive_sends (url : string) (timeout : Z) (r : Response) :
  sends 1 (receive env url timeout r).
Proof.
  unfold receive.
  apply sends_bind_free_l; [free|]. intros _.
  apply sends_bind_free_l; [free|]. intros _.
  apply sends_bind_free_r; [apply decode_body_sends|].
  intro decoded. apply receive_tail_free.
Qed.

Lemma receive_free (url : string) (timeout : Z) (r : Response) :
  not_brotli r -> always same_sent (receive env url timeout r).
Proof.
  intro Hbr. unfold receive.
  apply free_bind; [free|]. intros _.
  apply free_bind; [free|]. intros _.
  apply free_bind; [now apply decode_body_free|].
  intro decoded. apply receive_tail_free.
Qed.

Lemma attempt_body_sends (url : string) (timeout : Z) :
  sends 2 (attempt_body env url timeout).
Proof.
  unfold attempt_body.
  apply sends_bind_free_l; [free|]. intros _.
  apply sends_bind_free_l; [free|]. intro me.
  apply sends_bind_free_l; [free|]. intro user_agent.
  apply (sends_bind 1 1); [apply session_get_sends|].
  intro r. apply receive_sends.
Qed.

Lemma attempt_body_sends_plain (url : string) (timeout : Z) :
  (forall k u t hs r, net_get env k u t hs = Ok r -> not_brotli r) ->
  sends 1 (attempt_body env url timeout).
Proof.
  intro Hplain. unfold attempt_body.
  apply sends_bind_free_l; [free|]. intros _.
  apply sends_bind_free_l; [free|]. intro me.
  apply sends_bind_free_l; [free|]. intro user_agent.
  apply (session_get_then 0). intros k r Hnet.
  apply sends_free, receive_free. eapply Hplain; eauto.
Qed.

(** The loop sends what its attempts send. *)
Lemma download_attempts_sends (n : nat) (url : string) (timeout : Z) :
  sends n (attempt_body env url timeout) ->
  forall (attempts : list Z) (last : option exn),
    sends (n * List.length attempts) (download_attempts env url timeout attempts last).
Proof.
  intro Hbody. induction attempts as [|attempt rest IH]; intro last.
  - apply sends_free. simpl. free.
  - simpl. replace (n * S (List.length rest))%nat with (n + n * List.length rest)%nat by lia.
    apply sends_bind.
    + apply (sends_weaken (n + 0)); [lia|]. apply sends_try_except.
      * apply sends_bind_free_r; [exact Hbody|]. intro x. free.
      * intro e. apply sends_free. free.
    + intros [text_content|e]; [apply sends_free; free|apply IH].
Qed.

(** *** The record of events only grows *)

Ltac grows_step :=
  first
    [ apply grows_bind; [|intro]
    | apply grows_try_except; [|intro]
    | match goal with
      | |- always _ (match ?x with _ => _ end) => destruct x
      end
    | intros ?; apply trace_grows_refl
    | intros ?; exists []; symmetry; apply app_nil_r
    | intros ?; eexists; reflexivity ].

Lemma time_sleep_grows (secs : Q) : always trace_grows (time_sleep env secs).
Proof. unfold time_sleep. repeat grows_step. Qed.

Lemma session_get_grows (url : string) (timeout : Z) (hs : Headers) :
  always trace_grows (session_get env url timeout hs).
Proof. intro s. eexists. reflexivity. Qed.

Lemma warn_grows (w : warning) : always trace_grows (warn w).
Proof. intro s. eexists. reflexivity. Qed.

Ltac grows :=
  repeat first
    [ apply warn_grows | apply time_sleep_grows | apply session_get_grows
    | grows_step ].

Lemma receive_grows (url : string) (timeout : Z) (r : Response) :
  always trace_grows (receive env url timeout r).
Proof.
  unfold receive, decode_body, get_without_compression, raise_for_status,
    time_monotonic.
  grows.
Qed.

Lemma on_request_exception_grows (url : string) (attempt : Z) (e : exn) :
  always trace_grows (on_request_exception env url attempt e).
Proof. unfold on_request_exception. grows. Qed.

Lemma attempt_body_grows (url : string) (timeout : Z) :
  always trace_grows (attempt_body env url timeout).
Proof.
  unfold attempt_body, _sleep_for_rate_limit, time_monotonic.
  repeat first [apply receive_grows | apply warn_grows | apply time_sleep_grows
               | apply session_get_grows | grows_step].
Qed.

Lemma download_attempts_grows (url : string) (timeout : Z) (attempts : list Z) :
  forall last : option exn,
    always trace_grows (download_attempts env url timeout attempts last).
Proof.
  induction attempts as [|attempt rest IH]; intro last; simpl.
  - grows.
  - apply grows_bind.
    + apply grows_try_except.
      * apply grows_bind; [apply attempt_body_grows|]. intro x. grows.
      * intro e. apply grows_bind; [apply on_request_exception_grows|]. intro x. grows.
    + intros [text_content|e]; [grows|apply IH].
Qed.

(** *** Comparisons of rationals *)

Lemma Qltb_true (x y : Q) : Qltb x y = true <-> (x < y)%Q.
Proof.
  unfold Qltb. rewrite negb_true_iff. split.
  - intro H. apply Qnot_le_lt. intro Hle. apply Qle_bool_iff in Hle. congruence.
  - intro H. destruct (Qle_bool y x) eqn:E; [|reflexivity].
    apply Qle_bool_iff in E. apply Qlt_not_le in H. contradiction.
Qed.

Lemma Qltb_false (x y : Q) : Qltb x y = false <-> (y <= x)%Q.
Proof.
  unfold Qltb. rewrite negb_false_iff. apply Qle_bool_iff.
Qed.

Lemma Qle_bool_false (x y : Q) : Qle_bool x y = false <-> (y < x)%Q.
Proof.
  split.
  - intro H. apply Qnot_le_lt. intro Hle. apply Qle_bool_iff in Hle. congruence.
  - intro H. destruct (Qle_bool x y) eqn:E; [|reflexivity].
    apply Qle_bool_iff in E. apply Qlt_not_le in H. contradiction.
Qed.

Lemma inject_Z_nonneg (z : Z) : 0 <= z -> (0 <= inject_Z z)%Q.
Proof. intro H. unfold Qle. simpl. lia. Qed.

(** *** The rate gate *)

(** After a completed request, the gate returns no earlier than the
    interval after it, and sends nothing. *)
Lemma _sleep_for_rate_limit_spec (s : DState) :
  (0 < _last_request_ts (self s))%Q ->
  (0 <= interval_jitter (self s))%Q ->
  (0 <= random_random env (draws (world s)))%Q ->
  (0 <= took env (blocked (world s)))%Q ->
  exists s_a pre,
    _sleep_for_rate_limit env s = (Ok tt, s_a)
    /\ self s_a = self s
    /\ trace (world s_a) = trace (world s) ++ pre
    /\ first_get_time pre = None
    /\ (_last_request_ts (self s) + base_interval (self s)
        + interval_jitter (self s) * random_random env (draws (world s))
        <= clock (world s_a))%Q.
Proof.
  intros Hlast Hjitter Hrand Htook.
  unfold _sleep_for_rate_limit, time_monotonic, random_uniform. run_monad.
  apply Qle_bool_false in Hlast. rewrite Hlast.
  set (jitter := (0 + (interval_jitter (self s) - 0)
                      * random_random env (draws (world s)))%Q).
  set (interval := (base_interval (self s) + jitter)%Q).
  set (elapsed := (clock (world s) - _last_request_ts (self s))%Q).
  destruct (Qltb elapsed interval) eqn:Hcmp.
  - apply Qltb_true in Hcmp. unfold time_sleep.
    assert (Hsecs : Qltb (interval - elapsed) 0 = false)
      by (apply Qltb_false; lra).
    rewrite Hsecs. run_monad.
    eexists _, [_]. repeat split; simpl.
    unfold interval, elapsed, jitter in *. lra.
  - apply Qltb_false in Hcmp. exists {| self := self s; world := next_draw (world s) |}, [].
    repeat split; simpl.
    + now rewrite app_nil_r.
    + unfold interval, elapsed, jitter in *. lra.
Qed.

Lemma first_get_time_app (pre evs : list event) :
  first_get_time pre = None -> first_get_time (pre ++ evs) = first_get_time evs.
Proof.
  induction pre as [|[t u hs|t d|w] pre IH]; simpl; auto. discriminate.
Qed.

(** An attempt made after a completed request either stops before any
    GET because the random choice failed, or sends its first GET after
    the interval. *)
Lemma attempt_body_first_get (url : string) (timeout : Z) (s : DState) :
  (0 < _last_request_ts (self s))%Q ->
  (0 <= interval_jitter (self s))%Q ->
  (0 <= random_random env (draws (world s)))%Q ->
  (0 <= took env (blocked (world s)))%Q ->
  exists res s_e pre,
    attempt_body env url timeout s = (res, s_e)
    /\ first_get_time pre = None
    /\ ((res = Raise IndexError /\ trace (world s_e) = trace (world s) ++ pre)
        \/ exists t0 u hs more,
             trace (world s_e) = trace (world s) ++ pre ++ Get t0 u hs :: more
             /\ (_last_request_ts (self s) + base_interval (self s)
                 + interval_jitter (self s) * random_random env (draws (world s))
                 <= t0)%Q).
Proof.
  intros Hlast Hjitter Hrand Htook.
  destruct (_sleep_for_rate_limit_spec s Hlast Hjitter Hrand Htook)
    as (s_a & pre & Hgate & Hself & Htrace & Hpre & Hclock).
  unfold attempt_body. unfold bind at 1. rewrite Hgate.
  unfold bind at 1. unfold gets at 1. cbn beta iota.
  unfold bind at 1. unfold random_choice at 1. cbn beta iota zeta.
  destruct (nth_error USER_AGENTS _) as [user_agent|].
  - unfold bind at 1. unfold session_get at 1. cbn beta iota zeta.
    set (hs := headers_set "User-Agent" user_agent (session_headers (self s_a))).
    destruct (net_get env _ url timeout hs) as [r|e].
    + match goal with
      | |- context [receive env url timeout r ?sg] => set (s_g := sg)
      end.
      destruct (receive_grows url timeout r s_g) as [more Hmore].
      unfold exec in Hmore.
      destruct (receive env url timeout r s_g) as [res s_e].
      exists res, s_e, pre. split; [reflexivity|]. split; [exact Hpre|]. right.
      exists (clock (world s_a)), url, hs, more. split; [|exact Hclock].
      simpl in Hmore. rewrite Hmore. simpl. rewrite Htrace.
      now rewrite <- !app_assoc.
    + eexists (Raise e), _, pre. split; [reflexivity|]. split; [exact Hpre|]. right.
      exists (clock (world s_a)), url, hs, []. split; [|exact Hclock].
      simpl. rewrite Htrace. now rewrite <- !app_assoc.
  - eexists _, _, pre. split; [reflexivity|]. split; [exact Hpre|]. left.
    split; [reflexivity|]. simpl. exact Htrace.
Qed.

(** The first GET of the attempts made after a completed request. *)
Lemma download_attempts_first_get (url : string) (timeout : Z) (attempts : list Z)
    (last : option exn) (s : DState) :
  (0 < _last_request_ts (self s))%Q ->
  (0 <= interval_jitter (self s))%Q ->
  (0 <= random_random env (draws (world s)))%Q ->
  (0 <= took env (blocked (world s)))%Q ->
  exists evs,
    trace (world (exec (download_attempts env url timeout attempts last) s))
    = trace (world s) ++ evs
    /\ forall t,
         first_get_time evs = Some t ->
         (_last_request_ts (self s) + base_interval (self s)
          + interval_jitter (self s) * random_random env (draws (world s)) <= t)%Q.
Proof.
  intros Hlast Hjitter Hrand Htook.
  destruct attempts as [|attempt rest].
  - exists []. split; [|discriminate].
    unfold exec. simpl. destruct last; simpl; now rewrite app_nil_r.
  - destruct (attempt_body_first_get url timeout s Hlast Hjitter Hrand Htook)
      as (res & s_e & pre & Hbody & Hpre & Hcases).
    unfold exec. cbn [download_attempts].
    unfold bind at 1. unfold try_except at 1. unfold bind at 1. rewrite Hbody.
    destruct Hcases as [[-> Htrace]|(t0 & u & hs & more & Htrace & Hbound)].
    + simpl. exists pre. split; [exact Htrace|]. intros t Ht. congruence.
    + assert (Hend : forall final more',
                trace (world final) = trace (world s_e) ++ more' ->
                exists evs,
                  trace (world final) = trace (world s) ++ evs
                  /\ forall t,
                       first_get_time evs = Some t ->
                       (_last_request_ts (self s) + base_interval (self s)
                        + interval_jitter (self s)
                          * random_random env (draws (world s)) <= t)%Q).
      { intros final more' Hfinal.
        exists (pre ++ Get t0 u hs :: more ++ more'). split.
        - rewrite Hfinal, Htrace. repeat (rewrite <- app_assoc; simpl). reflexivity.
        - intros t Ht. rewrite first_get_time_app in Ht by exact Hpre.
          simpl in Ht. inversion Ht; subst. exact Hbound. }
      destruct res as [text_content|e]; simpl.
      * apply (Hend _ []). now rewrite app_nil_r.
      * destruct (is_RequestException e); simpl;
          [|apply (Hend _ []); now rewrite app_nil_r].
        unfold bind at 1.
        destruct (on_request_exception_grows url attempt e s_e) as [m1 Hm1].
        unfold exec in Hm1.
        destruct (on_request_exception env url attempt e s_e) as [[[]|e'] s1];
          simpl in *.
        -- destruct (download_attempts_grows url timeout rest (Some e) s1) as [m2 Hm2].
           apply (Hend _ (m1 ++ m2)). unfold exec in Hm2.
           now rewrite Hm2, Hm1, app_assoc.
        -- now apply (Hend _ m1).
Qed.

(** *** The instant a download records *)

Lemma bind_ok_inv {S A B : Type} (m : M S A) (f : A -> M S B) (s s1 : S) (b : B) :
  bind m f s = (Ok b, s1) ->
  exists a s', m s = (Ok a, s') /\ f a s' = (Ok b, s1).
Proof.
  unfold bind. destruct (m s) as [[a|e] s']; [eauto|discriminate].
Qed.

(** A request that returns has just recorded the reading of the clock. *)
Lemma receive_records_completion (url : string) (timeout : Z) (r : Response)
    (s s1 : DState) (text_content : string) :
  receive env url timeout r s = (Ok text_content, s1) ->
  _last_request_ts (self s1) = clock (world s1).
Proof.
  unfold receive. intro H.
  apply bind_ok_inv in H as (? & ? & _ & H).
  apply bind_ok_inv in H as (? & ? & _ & H).
  apply bind_ok_inv in H as ([r' t'] & ? & _ & H).
  apply bind_ok_inv in H as (? & ? & _ & H).
  apply bind_ok_inv in H as (? & ? & _ & H).
  unfold time_monotonic in H. run_monad. inversion H. reflexivity.
Qed.

Lemma attempt_body_records_completion (url : string) (timeout : Z)
    (s s1 : DState) (text_content : string) :
  attempt_body env url timeout s = (Ok text_content, s1) ->
  _last_request_ts (self s1) = clock (world s1).
Proof.
  unfold attempt_body. intro H.
  apply bind_ok_inv in H as (? & ? & _ & H).
  apply bind_ok_inv in H as (? & ? & _ & H).
  apply bind_ok_inv in H as (? & ? & _ & H).
  apply bind_ok_inv in H as (? & ? & _ & H).
  eapply receive_records_completion; eauto.
Qed.

Lemma download_attempts_records_completion (url : string) (timeout : Z)
    (attempts : list Z) :
  forall (last : option exn) (s s1 : DState) (text_content : string),
    download_attempts env url timeout attempts last s = (Ok text_content, s1) ->
    _last_request_ts (self s1) = clock (world s1).
Proof.
  induction attempts as [|attempt rest IH]; intros last s s1 text_content H.
  - simpl in H. destruct last; discriminate.
  - cbn [download_attempts] in H.
    apply bind_ok_inv in H as (outcome & s' & Htry & H).
    destruct outcome as [text'|e].
    + unfold ret in H. inversion H; subst. clear H.
      unfold try_except in Htry.
      destruct ((text_content0 <- attempt_body env url timeout;;
                 ret (inl text_content0)) s) as [[o|e] sb] eqn:Hbody.
      * inversion Htry; subst.
        apply bind_ok_inv in Hbody as (t & sb' & Hbody & Hret).
        unfold ret in Hret. inversion Hret; subst.
        eapply attempt_body_records_completion; eauto.
      * destruct (is_RequestException e); [|discriminate].
        apply bind_ok_inv in Htry as (? & ? & _ & Hret).
        unfold ret in Hret. discriminate.
    + eapply IH; eauto.
Qed.

(** ** The claims on [download] *)

(** Claim C1, as amended.  A downloader built with [retry_times = k],
    [k >= 1], makes at most [k] attempts per [download]; an attempt
    sends one GET and, when the answer is declared Brotli-compressed
    and cannot be decompressed, one more without Accept-Encoding.  So a
    [download] sends at most [2 k] GETs, and at most [k] when no answer
    of the network is declared Brotli-compressed. *)
Theorem download_sends_at_most (url : string) (timeout : Z) (s : DState) :
  1 <= retry_times (self s) ->
  let s' := exec (download urljoin env url timeout) s in
  Z.of_nat (sent (world s')) <= Z.of_nat (sent (world s)) + 2 * retry_times (self s)
  /\ ((forall k u t hs r, net_get env k u t hs = Ok r -> not_brotli r) ->
      Z.of_nat (sent (world s')) <= Z.of_nat (sent (world s)) + retry_times (self s)).
Proof.
  intros Hk s'.
  assert (Hlen : List.length (range (retry_times (self s))) = Z.to_nat (retry_times (self s)))
    by (unfold range; now rewrite length_map, length_seq).
  assert (Hrun : forall n, sends n (attempt_body env
                   (if negb (startswith url "http")
                    then urljoin (base_url (self s)) url else url) timeout) ->
            (sent (world s') <= sent (world s) + n * Z.to_nat (retry_times (self s)))%nat).
  { intros n Hn. rewrite <- Hlen.
    apply (download_attempts_sends n _ _ Hn (range (retry_times (self s))) None s). }
  split.
  - specialize (Hrun 2%nat (attempt_body_sends _ _)). lia.
  - intro Hplain. specialize (Hrun 1%nat (attempt_body_sends_plain _ _ Hplain)). lia.
Qed.

(** Claim C3, as amended.  A [download] has returned content, at a
    positive reading [c] of the clock.  The first GET of the next
    [download] on the same object, whenever it is called, is sent no
    earlier than [c + base_interval + jitter], where the jitter is
    [interval_jitter] times the draw of [random.random()], hence no
    earlier than [c + base_interval] -- provided [interval_jitter] is
    not negative, no draw is negative and no blocking call takes a
    negative time. *)
Theorem pacing_after_a_completed_download
    (url0 : string) (timeout0 : Z) (s0 s1 : DState) (text_content : string)
    (url : string) (timeout : Z) (s : DState) :
  download urljoin env url0 timeout0 s0 = (Ok text_content, s1) ->
  (0 < clock (world s1))%Q ->
  self s = self s1 ->
  (0 <= interval_jitter (self s1))%Q ->
  (forall n, 0 <= random_random env n)%Q ->
  (forall n, 0 <= took env n)%Q ->
  exists evs,
    trace (world (exec (download urljoin env url timeout) s)) = trace (world s) ++ evs
    /\ forall t,
         first_get_time evs = Some t ->
         (clock (world s1) + base_interval (self s1)
          + interval_jitter (self s1) * random_random env (draws (world s)) <= t)%Q
         /\ (clock (world s1) + base_interval (self s1) <= t)%Q.
Proof.
  intros Hdone Hclock Hself Hjitter Hrand Htook.
  assert (Hts : _last_request_ts (self s1) = clock (world s1)).
  { unfold download in Hdone. apply bind_ok_inv in Hdone as (me & s' & _ & Hdone).
    eapply download_attempts_records_completion; eauto. }
  unfold exec, download. unfold bind at 1. unfold gets at 1. cbn beta iota.
  destruct (download_attempts_first_get
              (if negb (startswith url "http") then urljoin (base_url (self s)) url
               else url)
              timeout (range (retry_times (self s))) None s)
    as (evs & Htrace & Hfirst).
  - rewrite Hself, Hts. exact Hclock.
  - rewrite Hself. exact Hjitter.
  - apply Hrand.
  - apply Htook.
  - exists evs. split; [exact Htrace|].
    intros t Ht. specialize (Hfirst t Ht). rewrite Hself, Hts in Hfirst.
    split; [exact Hfirst|].
    pose proof (Hrand (draws (world s))) as Hr.
    assert (0 <= interval_jitter (self s1) * random_random env (draws (world s)))%Q
      by (apply Qmult_le_0_compat; assumption).
    lra.
Qed.

(** ** Further properties of the downloader *)

(** *** What [download] does to the object *)

Lemma same_self_trans (s1 s2 s3 : DState) :
  same_self s1 s2 -> same_self s2 s3 -> same_self s1 s3.
Proof. unfold same_self. congruence. Qed.

Ltac unchanged_step :=
  first
    [ apply (always_bind same_self same_self_trans); [|intro]
    | apply (always_try_except same_self same_self_trans); [|intro]
    | match goal with
      | |- always _ (match ?x with _ => _ end) => destruct x
      end
    | intros ?; reflexivity ].

Ltac unchanged :=
  unfold decode_body, get_without_compression, _sleep_for_rate_limit,
    on_request_exception, time_monotonic, time_sleep, raise_for_status;
  repeat unchanged_step.

Lemma settles_bind_l {A B : Type} (m : M DState A) (f : A -> M DState B) :
  always same_self m -> (forall a, settles (f a)) -> settles (bind m f).
Proof.
  intros Hm Hf s. unfold bind. specialize (Hm s). unfold same_self, exec in Hm.
  destruct (m s) as [[a|e] s1]; simpl in Hm; [|exact Hm].
  specialize (Hf a s1). destruct (f a s1) as [[b|e] s2]; now rewrite Hf, Hm.
Qed.

Lemma settles_record {A : Type} (a : A) :
  settles (now <- time_monotonic ;;
           modify (fun s => {| self := set_last_request_ts now (self s);
                               world := world s |}) ;;
           ret a).
Proof. intro s. reflexivity. Qed.

Ltac settle :=
  repeat first
    [ apply settles_record
    | apply settles_bind_l; [solve [unchanged]|intro]
    | match goal with
      | |- settles (let '(_, _) := ?d in _) => destruct d
      end ].

Lemma attempt_body_settles (url : string) (timeout : Z) :
  settles (attempt_body env url timeout).
Proof. unfold attempt_body, receive. settle. Qed.

Lemma download_attempts_settles (url : string) (timeout : Z) (attempts : list Z) :
  forall last : option exn, settles (download_attempts env url timeout attempts last).
Proof.
  induction attempts as [|attempt rest IH]; intros last s.
  - simpl. destruct last; reflexivity.
  - cbn [download_attempts]. unfold bind at 1. unfold try_except at 1.
    unfold bind at 1.
    pose proof (attempt_body_settles url timeout s) as Hbody.
    destruct (attempt_body env url timeout s) as [[text_content|e] s1].
    + exact Hbody.
    + destruct (is_RequestException e); [|exact Hbody].
      unfold bind at 1.
      assert (Hh : always same_self (on_request_exception env url attempt e))
        by unchanged.
      specialize (Hh s1). unfold same_self, exec in Hh.
      destruct (on_request_exception env url attempt e s1) as [[[]|e'] s2];
        simpl in Hh.
      * cbn [ret]. specialize (IH (Some e) s2).
        destruct (download_attempts env url timeout rest (Some e) s2) as [[t|e'] s3];
          now rewrite IH, Hh, Hbody.
      * now rewrite Hh.
Qed.

(** Property X13.  A [download] that raises leaves the [Downloader]
    object exactly as it was.  One that returns changes nothing but
    [_last_request_ts], which it sets to the reading of the monotonic
    clock at completion: the address of the site, the retry and pacing
    settings and the headers of the session are never modified. *)
Theorem download_keeps_the_object (url : string) (timeout : Z) (s : DState) :
  let s' := exec (download urljoin env url timeout) s in
  match outcome (download urljoin env url timeout) s with
  | Ok _ => self s' = set_last_request_ts (clock (world s')) (self s)
  | Raise _ => self s' = self s
  end.
Proof.
  unfold exec, outcome, download, bind, gets. cbn beta iota zeta.
  set (full_url := if negb (startswith url "http")
                   then urljoin (base_url (self s)) url else url).
  pose proof (download_attempts_settles full_url timeout
                (range (retry_times (self s))) None s) as H.
  destruct (download_attempts env full_url timeout (range (retry_times (self s))) None s)
    as [[text_content|e] s'].
  - exact H.
  - exact H.
Qed.

(** *** The rate gate in every state *)

(** The gate returns, sends nothing and leaves the object alone; what
    it adds to the record is at most one sleep. *)
Lemma _sleep_for_rate_limit_returns (s : DState) :
  exists s_a pre,
    _sleep_for_rate_limit env s = (Ok tt, s_a)
    /\ self s_a = self s
    /\ sent (world s_a) = sent (world s)
    /\ trace (world s_a) = trace (world s) ++ pre
    /\ first_get_time pre = None
    /\ ((_last_request_ts (self s) <= 0)%Q -> s_a = s).
Proof.
  unfold _sleep_for_rate_limit, time_monotonic, random_uniform. run_monad.
  destruct (Qle_bool (_last_request_ts (self s)) 0) eqn:Hts.
  - exists s, []. rewrite app_nil_r. repeat split; auto.
  - apply Qle_bool_false in Hts.
    assert (Hnot : (_last_request_ts (self s) <= 0)%Q -> False) by (intro; lra).
    match goal with
    | |- context [if Qltb ?elapsed ?interval then _ else _] =>
        destruct (Qltb elapsed interval) eqn:Hcmp;
        [apply Qltb_true in Hcmp; unfold time_sleep;
         assert (Hsecs : Qltb (interval - elapsed) 0 = false)
           by (apply Qltb_false; lra);
         rewrite Hsecs|]
    end.
    + run_monad. eexists _, [_]. repeat split; simpl; auto. intro H. now apply Hnot in H.
    + eexists _, []. rewrite app_nil_r. repeat split; simpl; auto.
      intro H. now apply Hnot in H.
Qed.

(** *** The handler of the failed attempts *)

(** One turn of the loop whose attempt raised a [RequestException]. *)
Lemma download_attempts_failed (url : string) (timeout : Z) (attempt : Z)
    (rest : list Z) (last : option exn) (s s1 : DState) (e : exn) :
  attempt_body env url timeout s = (Raise e, s1) ->
  is_RequestException e = true ->
  download_attempts env url timeout (attempt :: rest) last s
  = match on_request_exception env url attempt e s1 with
    | (Ok _, s2) => download_attempts env url timeout rest (Some e) s2
    | (Raise e', s2) => (Raise e', s2)
    end.
Proof.
  intros Hbody Hclass. cbn [download_attempts]. unfold bind at 1. unfold try_except.
  unfold bind at 1. rewrite Hbody, Hclass. unfold bind at 1.
  destruct (on_request_exception env url attempt e s1) as [[[]|e'] s2]; reflexivity.
Qed.

(** *** One attempt, step by step *)

Lemma range_cons (n : Z) : 1 <= n -> exists rest, range n = 0 :: rest.
Proof.
  intro H. unfold range.
  destruct (Z.to_nat n) as [|k] eqn:E; [lia|]. simpl. eauto.
Qed.

(** An attempt goes through the gate, chooses a User-Agent of the pool
    and sends its GET; what follows is run on the answer. *)
Lemma attempt_body_run (url : string) (timeout : Z) (s : DState) :
  (forall n, (random_below env n (List.length USER_AGENTS) < List.length USER_AGENTS)%nat) ->
  exists s_a pre user_agent,
    _sleep_for_rate_limit env s = (Ok tt, s_a)
    /\ self s_a = self s
    /\ sent (world s_a) = sent (world s)
    /\ trace (world s_a) = trace (world s) ++ pre
    /\ first_get_time pre = None
    /\ ((_last_request_ts (self s) <= 0)%Q -> s_a = s)
    /\ In user_agent USER_AGENTS
    /\ attempt_body env url timeout s
       = match net_get env (sent (world s)) url timeout
                 (headers_set "User-Agent" user_agent (session_headers (self s))) with
         | Ok r =>
             receive env url timeout r
               (after_get env url
                  (headers_set "User-Agent" user_agent (session_headers (self s))) s_a)
         | Raise e =>
             (Raise e,
              after_get env url
                (headers_set "User-Agent" user_agent (session_headers (self s))) s_a)
         end.
Proof.
  intro Hrand.
  destruct (_sleep_for_rate_limit_returns s)
    as (s_a & pre & Hgate & Hself & Hsent & Htrace & Hpre & Hfresh).
  specialize (Hrand (draws (world s_a))).
  destruct (nth_error USER_AGENTS
              (random_below env (draws (world s_a)) (List.length USER_AGENTS)))
    as [user_agent|] eqn:Hua; [|apply nth_error_None in Hua; lia].
  exists s_a, pre, user_agent.
  repeat (split; [assumption|]). split; [eapply nth_error_In; eauto|].
  unfold attempt_body. unfold bind at 1. rewrite Hgate.
  unfold bind at 1. unfold gets at 1. cbn beta iota.
  unfold bind at 1. unfold random_choice at 1. cbn beta iota zeta.
  rewrite Hua. unfold bind at 1. unfold session_get at 1. cbn beta iota zeta.
  unfold after_get.
  cbn [self world sent next_draw clock blocked draws trace]. rewrite Hself, Hsent.
  destruct (net_get env (sent (world s)) url timeout _); reflexivity.
Qed.


(** What follows an attempt in its turn of the loop only adds to the
    record. *)
Lemma download_attempts_turn_grows (url : string) (timeout : Z) (attempt : Z)
    (rest : list Z) (last : option exn) (s s_e : DState) (res : result string) :
  attempt_body env url timeout s = (res, s_e) ->
  trace_grows s_e (exec (download_attempts env url timeout (attempt :: rest) last) s).
Proof.
  intro Hbody. unfold exec. cbn [download_attempts].
  unfold bind at 1. unfold try_except at 1. unfold bind at 1. rewrite Hbody.
  destruct res as [text_content|e]; simpl; [apply trace_grows_refl|].
  destruct (is_RequestException e); simpl; [|apply trace_grows_refl].
  unfold bind at 1.
  pose proof (on_request_exception_grows url attempt e s_e) as H1.
  unfold exec in H1.
  destruct (on_request_exception env url attempt e s_e) as [[[]|e'] s1]; simpl in *.
  - eapply trace_grows_trans; [exact H1|].
    apply (download_attempts_grows url timeout rest (Some e) s1).
  - exact H1.
Qed.


(** *** A response that is not declared Brotli-compressed *)

Lemma outcome_bind {A B : Type} (m : M DState A) (f : A -> M DState B) (a : A) (b : B) :
  (forall s, outcome m s = Ok a) ->
  (forall s, outcome (f a) s = Ok b) ->
  forall s, outcome (bind m f) s = Ok b.
Proof.
  intros Hm Hf s. unfold outcome, bind. specialize (Hm s). unfold outcome in Hm.
  destruct (m s) as [[a'|e] s1]; simpl in Hm; inversion Hm; subst. apply Hf.
Qed.

(** The text [receive] returns for such a response. *)
Lemma receive_plain (url : string) (timeout : Z) (r : Response) :
  status_code r < 400 \/ 600 <= status_code r ->
  not_brotli r ->
  forall s, outcome (receive env url timeout r) s = Ok (sniffed_text env r).
Proof.
  intros Hstatus Hbr. unfold not_brotli in Hbr. unfold receive.
  apply (outcome_bind _ _ tt).
  { intro s. unfold raise_for_status.
    replace ((400 <=? status_code r) && (status_code r <? 600)) with false; [reflexivity|].
    symmetry. apply andb_false_iff.
    destruct Hstatus; [left; apply Z.leb_gt|right; apply Z.ltb_ge]; lia. }
  apply (outcome_bind _ _ tt).
  { intro s. destruct (negb (contains "text/html" _)); reflexivity. }
  apply (outcome_bind _ _ (r, text r)).
  { intro s. unfold decode_body. rewrite Hbr.
    destruct (negb (String.eqb _ EmptyString)); reflexivity. }
  cbn beta iota zeta.
  apply (outcome_bind _ _ tt).
  { intro s. destruct (negb _ && negb _); reflexivity. }
  apply (outcome_bind _ _ (sniffed_text env r)).
  { intro s. unfold sniffed_text. rewrite Hbr.
    destruct (truthy (apparent_encoding r)) as [enc|]; [|reflexivity].
    cbn [negb]. unfold outcome, try_except, lift_result.
    destruct (bytes_decode env (content r) enc); reflexivity. }
  intro s. reflexivity.
Qed.


(** *** The requests of a download *)

Section Requests.

Variable H : Headers.
Variable u : string.

Lemma requests_refl (s : DState) : requests H u s s.
Proof. intro Hs. split; [exact Hs|]. exists []. now rewrite app_nil_r. Qed.

Lemma requests_trans (s1 s2 s3 : DState) :
  requests H u s1 s2 -> requests H u s2 s3 -> requests H u s1 s3.
Proof.
  intros H12 H23 Hs. destruct (H12 Hs) as (Hs2 & e1 & Ht1 & Hf1).
  destruct (H23 Hs2) as (Hs3 & e2 & Ht2 & Hf2). split; [exact Hs3|].
  exists (e1 ++ e2). rewrite Ht2, Ht1, app_assoc. split; [reflexivity|].
  now apply Forall_app.
Qed.

(** What records no GET and leaves the headers of the session alone. *)
Lemma requests_quiet (s s' : DState) (evs : list event) :
  session_headers (self s') = session_headers (self s) ->
  trace (world s') = trace (world s) ++ evs ->
  (forall t v hs, ~ In (Get t v hs) evs) ->
  requests H u s s'.
Proof.
  intros Hh Ht Hno Hs. split; [congruence|]. exists evs. split; [exact Ht|].
  apply Forall_forall. intros [t v hs|t d|w] Hin; simpl; auto.
  exfalso. exact (Hno _ _ _ Hin).
Qed.

Ltac quiet :=
  let st := fresh "st" in
  intros st;
  first
    [ apply requests_refl
    | apply (requests_quiet st _ []);
      [reflexivity|simpl; now rewrite app_nil_r|intros ? ? ? []]
    | eapply (requests_quiet st);
      [reflexivity|reflexivity|intros ? ? ? [Heq|[]]; discriminate Heq] ].

Ltac requests_step :=
  first
    [ apply (always_bind (requests H u) requests_trans); [|intro]
    | apply (always_try_except (requests H u) requests_trans); [|intro]
    | match goal with
      | |- always _ (match ?x with _ => _ end) => destruct x
      end
    | quiet ].

Lemma session_get_requests (timeout : Z) (hs : Headers) :
  (exists ua, In ua USER_AGENTS /\ hs = headers_set "User-Agent" ua H)
  \/ hs = headers_pop "Accept-Encoding" H ->
  always (requests H u) (session_get env u timeout hs).
Proof.
  intros Hhs s Hs. split; [exact Hs|].
  exists [Get (clock (world s)) u hs]. split; [reflexivity|].
  constructor; [|constructor]. simpl. auto.
Qed.

Lemma gets_self_requests {A : Type} (f : Downloader -> M DState A) :
  (forall me, session_headers me = H -> always (requests H u) (f me)) ->
  always (requests H u) (bind (gets self) f).
Proof.
  intros Hf s Hs. unfold exec, bind, gets. apply (Hf (self s) Hs s Hs).
Qed.

Lemma random_choice_requests {A : Type} (f : string -> M DState A) :
  (forall ua, In ua USER_AGENTS -> always (requests H u) (f ua)) ->
  always (requests H u) (bind (random_choice env USER_AGENTS) f).
Proof.
  intros Hf s. unfold exec, bind, random_choice. cbn beta iota zeta.
  destruct (nth_error USER_AGENTS _) as [ua|] eqn:Hua.
  - eapply requests_trans; [|apply (Hf ua (nth_error_In _ _ Hua))].
    apply (requests_quiet s _ []);
      [reflexivity|simpl; now rewrite app_nil_r|intros ? ? ? []].
  - apply (requests_quiet s _ []);
      [reflexivity|simpl; now rewrite app_nil_r|intros ? ? ? []].
Qed.

Lemma get_without_compression_requests (timeout : Z) :
  always (requests H u) (get_without_compression env u timeout).
Proof.
  unfold get_without_compression. apply gets_self_requests. intros me Hme.
  apply (always_bind (requests H u) requests_trans).
  - apply session_get_requests. right. now rewrite Hme.
  - intro r. unfold raise_for_status. repeat requests_step.
Qed.

Lemma receive_requests (timeout : Z) (r : Response) :
  always (requests H u) (receive env u timeout r).
Proof.
  unfold receive, decode_body, raise_for_status, time_monotonic, warn.
  repeat first [apply get_without_compression_requests | requests_step].
Qed.

Lemma attempt_body_requests (timeout : Z) :
  always (requests H u) (attempt_body env u timeout).
Proof.
  unfold attempt_body.
  apply (always_bind (requests H u) requests_trans).
  { intro s. destruct (_sleep_for_rate_limit_returns s)
      as (s_a & pre & Hgate & Hself & _ & Htrace & Hpre & _).
    unfold exec. rewrite Hgate. simpl. intro Hs. split; [now rewrite Hself|].
    exists pre. split; [exact Htrace|].
    apply Forall_forall. intros [t v hs|t d|w] Hin; simpl; auto.
    exfalso. apply in_split in Hin. destruct Hin as (l1 & l2 & ->).
    clear - Hpre. induction l1 as [|[t' v' hs'|t' d'|w'] l1 IH]; simpl in Hpre;
      try discriminate; auto. }
  intros _. apply gets_self_requests. intros me Hme.
  apply random_choice_requests. intros ua Hua.
  apply (always_bind (requests H u) requests_trans).
  - apply session_get_requests. left. exists ua. now rewrite Hme.
  - intro r. apply receive_requests.
Qed.

Lemma on_request_exception_requests (attempt : Z) (e : exn) :
  always (requests H u) (on_request_exception env u attempt e).
Proof.
  unfold on_request_exception, time_sleep, warn. repeat requests_step.
Qed.

Lemma download_attempts_requests (timeout : Z) (attempts : list Z) :
  forall last : option exn,
    always (requests H u) (download_attempts env u timeout attempts last).
Proof.
  induction attempts as [|attempt rest IH]; intro last.
  - simpl. repeat requests_step.
  - cbn [download_attempts].
    apply (always_bind (requests H u) requests_trans).
    + apply (always_try_except (requests H u) requests_trans).
      * apply (always_bind (requests H u) requests_trans);
          [apply attempt_body_requests|intro; quiet].
      * intro e. apply (always_bind (requests H u) requests_trans);
          [apply on_request_exception_requests|intro; quiet].
    + intros [text_content|e]; [quiet|apply IH].
Qed.

End Requests.

(** Property X20.  Every GET of a [download] goes to the same address,
    the one asked for (joined to [base_url] unless it starts with
    http).  On a downloader with the session headers [__init__] sets,
    the headers handed to [session.get] either hold gzip, deflate as
    Accept-Encoding and a User-Agent of the pool, or, for the
    re-request of the Brotli branch, hold no Accept-Encoding entry and
    the User-Agent of the session: br is never asked for. *)
Theorem download_request_headers (url : string) (timeout : Z) (s : DState)
    (site : string) (k : Z) (delay interval jitter : Q) (session_agent : string) :
  session_headers (self s)
  = session_headers (Downloader__init__ site k delay interval jitter session_agent) ->
  let full_url := if negb (startswith url "http")
                  then urljoin (base_url (self s)) url else url in
  exists evs,
    trace (world (exec (download urljoin env url timeout) s)) = trace (world s) ++ evs
    /\ forall t v hs,
         In (Get t v hs) evs ->
         v = full_url
         /\ ((headers_get hs "Accept-Encoding" EmptyString = "gzip, deflate"
              /\ In (headers_get hs "User-Agent" EmptyString) USER_AGENTS)
             \/ (headers_get hs "Accept-Encoding" EmptyString = EmptyString
                 /\ headers_get hs "User-Agent" EmptyString = session_agent)).
Proof.
  intros Hh full_url.
  pose proof (download_attempts_requests (session_headers (self s)) full_url timeout
                (range (retry_times (self s))) None s eq_refl) as [_ (evs & Htrace & Hall)].
  exists evs. split.
  - unfold exec, download, bind, gets. cbn beta iota zeta. exact Htrace.
  - intros t v hs Hin. rewrite Forall_forall in Hall.
    specialize (Hall _ Hin). simpl in Hall. destruct Hall as [-> Hhs].
    split; [reflexivity|]. rewrite Hh in Hhs.
    destruct Hhs as [(ua & Hua & ->)| ->].
    + left. split; [reflexivity|exact Hua].
    + right. split; reflexivity.
Qed.

(** *** The resolver on this downloader *)

Lemma download_run_sends (url : string) (timeout : Z) (s : DState) :
  let s' := exec (download urljoin env url timeout) s in
  (sent (world s') <= sent (world s) + 2 * Z.to_nat (retry_times (self s)))%nat
  /\ retry_times (self s') = retry_times (self s).
Proof.
  unfold exec, download, bind, gets. cbn beta iota zeta.
  set (full_url := if negb (startswith url "http")
                   then urljoin (base_url (self s)) url else url).
  split.
  - assert (Hlen : List.length (range (retry_times (self s)))
                   = Z.to_nat (retry_times (self s)))
      by (unfold range; now rewrite length_map, length_seq).
    rewrite <- Hlen.
    exact (download_attempts_sends 2 full_url timeout (attempt_body_sends _ _)
             (range (retry_times (self s))) None s).
  - pose proof (download_attempts_settles full_url timeout
                  (range (retry_times (self s))) None s) as H.
    destruct (download_attempts env full_url timeout (range (retry_times (self s))) None s)
      as [[text_content|e] s']; simpl; now rewrite H.
Qed.

(** Downloads made one after the other send at most two GETs per
    attempt allowed, each. *)
Lemma served_sends (timeout : Z) (new : list string) (d : DState) :
  let d' := served (fun u => download urljoin env u timeout) new d in
  (sent (world d')
   <= sent (world d) + 2 * Z.to_nat (retry_times (self d)) * List.length new)%nat
  /\ retry_times (self d') = retry_times (self d).
Proof.
  induction new as [|u new [IHsent IHk]]; simpl; [split; [lia|reflexivity]|].
  destruct (download_run_sends u timeout
              (served (fun u => download urljoin env u timeout) new d)) as [Hsent Hk].
  unfold exec in Hsent, Hk. rewrite Hk, IHk. split; [|reflexivity].
  rewrite IHk in Hsent. nia.
Qed.

(** Property X22.  A pass of [resolve_all_special_chapters] over a
    book, run with a [Downloader], sends at most
    2 * [retry_times] * 20 GETs for each chapter that needs resolving
    when the pass starts (none when [retry_times] is not positive),
    whatever the site answers; it leaves [retry_times] as it was. *)
Theorem resolve_all_special_chapters_sends (script_texts : string -> list string)
    (base : string) (st : RState DState) :
  let pass := resolve_all_special_chapters urljoin script_texts
                (fun u => download urljoin env u 30) base in
  let attempts := Z.to_nat (retry_times (self (downloader st))) in
  (sent (world (downloader (exec pass st)))
   <= sent (world (downloader st))
      + 2 * attempts * (20 * placeholders (volumes (book st))))%nat
  /\ retry_times (self (downloader (exec pass st))) = retry_times (self (downloader st)).
Proof.
  intros pass attempts. unfold pass, exec.
  rewrite resolve_all_special_chapters_flat.
  destruct (pass_served urljoin script_texts DState
              (fun u => download urljoin env u 30) base
              (targets (volumes (book st))) st) as (new & _ & Hlen & Hd).
  rewrite to_resolve_targets in Hlen.
  change (Z.to_nat DEFAULT_MAX_HOPS) with 20%nat in Hlen.
  unfold exec in Hd. rewrite Hd.
  destruct (served_sends 30 new (downloader st)) as [Hsent Hk].
  split; [|exact Hk]. unfold attempts. nia.
Qed.

End DownloaderFacts.

(** ** The claims on the downloader, at concrete surroundings *)

(** Claim C1 as stated fails on the Brotli branch: with one attempt
    allowed, an answer declared Brotli-compressed that cannot be
    decompressed makes the attempt send a second GET. *)
Lemma one_attempt_two_gets :
  let s := fresh_downloader 1 in
  let s' := exec (download urljoin_root brotli_env "/novel/4519/262081.html" 30) s in
  retry_times (self s) = 1
  /\ sent (world s) = 0%nat
  /\ sent (world s') = 2%nat
  /\ ~ (Z.of_nat (sent (world s')) <= Z.of_nat (sent (world s)) + retry_times (self s)).
Proof.
  vm_compute. repeat split. intro H. apply H. reflexivity.
Qed.

Lemma download_sends_at_most_witness :
  let s := fresh_downloader 3 in
  let s' := exec (download urljoin_root steady_env "/novel/4519/262081.html" 30) s in
  1 <= retry_times (self s)
  /\ Z.of_nat (sent (world s')) <= Z.of_nat (sent (world s)) + 2 * retry_times (self s)
  /\ ((forall k u t hs r, net_get steady_env k u t hs = Ok r -> not_brotli r) ->
      Z.of_nat (sent (world s')) <= Z.of_nat (sent (world s)) + retry_times (self s)).
Proof.
  intros s s'.
  assert (H : 1 <= retry_times (self s)) by (simpl; lia).
  split; [exact H|].
  exact (download_sends_at_most urljoin_root steady_env "/novel/4519/262081.html" 30 s H).
Defined.

Example steady_env_is_not_brotli :
  forall k u t hs r, net_get steady_env k u t hs = Ok r -> not_brotli r.
Proof.
  intros k u t hs r. simpl. unfold serve.
  destruct (book_4519 u); [|discriminate].
  intro H. inversion H. reflexivity.
Qed.

(** Claim C3 as stated fails after a download that failed: nothing is
    recorded on that path, and the next download sends its GET at
    once.  Here the connection always fails and one attempt is allowed
    per download; the second download sends its GET at the very reading
    of the clock at which the first one raised, although
    [base_interval] is one second. *)
Lemma failed_download_is_not_paced :
  let call := download urljoin_root unreachable_env "/novel/4519/262081.html" 30 in
  let s1 := exec call (fresh_downloader 1) in
  let s2 := exec call s1 in
  outcome call (fresh_downloader 1) = Raise (RequestException None)
  /\ base_interval (self s1) = 1%Q
  /\ exists evs t,
       trace (world s2) = trace (world s1) ++ evs
       /\ first_get_time evs = Some t
       /\ ~ (clock (world s1) + base_interval (self s1) <= t)%Q.
Proof.
  split; [reflexivity|]. split; [reflexivity|].
  eexists [_], _. split; [vm_compute; reflexivity|].
  split; [reflexivity|]. vm_compute. intro H. apply H. reflexivity.
Qed.

Lemma pacing_after_a_completed_download_witness :
  let call := download urljoin_root steady_env "/novel/4519/262081.html" 30 in
  let s1 := exec call (fresh_downloader 3) in
  exists evs,
    trace (world (exec call s1)) = trace (world s1) ++ evs
    /\ forall t,
         first_get_time evs = Some t ->
         (clock (world s1) + base_interval (self s1)
          + interval_jitter (self s1) * random_random steady_env (draws (world s1)) <= t)%Q
         /\ (clock (world s1) + base_interval (self s1) <= t)%Q.
Proof.
  intros call s1.
  apply (pacing_after_a_completed_download urljoin_root steady_env
           "/novel/4519/262081.html" 30 (fresh_downloader 3) s1
           (page_pointing_to "/novel/4519/262081_2.html")
           "/novel/4519/262081.html" 30 s1).
  - vm_compute. reflexivity.
  - vm_compute. reflexivity.
  - reflexivity.
  - vm_compute. discriminate.
  - intro n. vm_compute. discriminate.
  - intro n. vm_compute. discriminate.
Defined.

Example steady_downloads_are_paced :
  let call := download urljoin_root steady_env "/novel/4519/262081.html" 30 in
  let s1 := exec call (fresh_downloader 3) in
  clock (world s1) = 100%Q
  /\ first_get_time (skipn (List.length (trace (world s1))) (trace (world (exec call s1))))
     = Some (203 # 2)%Q.
Proof.
  vm_compute. auto.
Qed.

(** ** Further properties of the downloader, at concrete surroundings *)




Lemma download_request_headers_witness :
  let s := fresh_downloader 1 in
  exists evs,
    trace (world (exec (download urljoin_root brotli_env "/novel/4519/262081.html" 30) s))
    = trace (world s) ++ evs
    /\ forall t v hs,
         In (Get t v hs) evs ->
         v = (SITE ++ "/novel/4519/262081.html")%string
         /\ ((headers_get hs "Accept-Encoding" EmptyString = "gzip, deflate"
              /\ In (headers_get hs "User-Agent" EmptyString) USER_AGENTS)
             \/ (headers_get hs "Accept-Encoding" EmptyString = EmptyString
                 /\ headers_get hs "User-Agent" EmptyString = "Mozilla/5.0")).
Proof.
  intro s.
  apply (download_request_headers urljoin_root brotli_env
           "/novel/4519/262081.html" 30 s SITE 1 1 1 1 "Mozilla/5.0").
  reflexivity.
Defined.

(* ===================================================================== *)
(** * Facts on the resolver with the errors of urljoin *)
(* ===================================================================== *)

Section ResolverErrorFacts.

Variable urljoin : string -> string -> string.
Variable urljoin_raises : string -> string -> bool.
Variable script_texts : string -> list string.
Variable DS : Type.
Variable download : string -> M DS string.

Local Abbreviation State := (RState DS).
Local Abbreviation follow := (follow_nextpage urljoin script_texts download).
Local Abbreviation follow_err :=
  (follow_nextpage_err urljoin urljoin_raises script_texts download).
Local Abbreviation walk := (resolve_next_chapter_url urljoin script_texts download).
Local Abbreviation walk_err :=
  (resolve_next_chapter_url_err urljoin urljoin_raises script_texts download).
Local Abbreviation step := (resolve_chapter urljoin script_texts download).
Local Abbreviation step_err :=
  (resolve_chapter_err urljoin urljoin_raises script_texts download).
Local Abbreviation pass_err :=
  (resolve_all_special_chapters_err urljoin urljoin_raises script_texts download).
Local Abbreviation nextpage_of := (_extract_nextpage_path script_texts).
Local Abbreviation full := (full_address urljoin).
Local Abbreviation succeeds :=
  (resolution_succeeds urljoin urljoin_raises script_texts download).

#[local] Arguments full_address : simpl never.

(** [urljoin] refuses some address joined to the base. *)
Local Abbreviation refused base := (exists u : string, urljoin_raises base u = true).

Ltac run_resolver :=
  unfold print, update_book, downloader_download in *; run_monad.

(** ** The walk *)

(** The address of the page of an iteration: the join is refused, or it
    is the address the walk above works with. *)
Lemma full_url_err (base cur : string) (st : State) :
  (if negb (startswith cur "http")
   then checked_urljoin urljoin urljoin_raises base cur
   else ret cur) st
  = if negb (startswith cur "http") && urljoin_raises base cur
    then (Raise ValueError, st)
    else (Ok (full base cur), st).
Proof.
  unfold checked_urljoin, full_address.
  destruct (negb (startswith cur "http")); [|reflexivity].
  destruct (urljoin_raises base cur); reflexivity.
Qed.

(** Where [urljoin] raises nothing the walk is the walk above; where it
    raises, the [ValueError] leaves the loop, and nothing has been
    printed or changed in the book. *)
Lemma follow_nextpage_err_sim (hops : nat) (prev base a c : string) :
  forall (visited : list string) (cur : string) (st : State),
    follow_err hops prev base a c visited cur st = follow hops prev base a c visited cur st
    \/ exists st',
         follow_err hops prev base a c visited cur st = (Raise ValueError, st')
         /\ book st' = book st
         /\ stdout st' = stdout st
         /\ refused base.
Proof.
  induction hops as [|hops IH]; intros visited cur st; [left; reflexivity|].
  cbn [follow_nextpage_err follow_nextpage].
  destruct (negb (startswith cur "http") && urljoin_raises base cur) eqn:Hj.
  - right. exists st. unfold bind at 1. rewrite full_url_err, Hj. repeat split.
    apply andb_prop in Hj. exists cur. apply Hj.
  - unfold bind at 1. rewrite full_url_err, Hj.
    assert (Hfirst : forall f : string -> M State (option (option string)),
              bind (if negb (startswith cur "http")
                    then checked_urljoin urljoin urljoin_raises base cur
                    else ret cur) f st
              = f (full base cur) st)
      by (intro f; unfold bind; now rewrite full_url_err, Hj).
    try rewrite Hfirst. clear Hj Hfirst.
    destruct (existsb (String.eqb (full base cur)) visited);
      [left; reflexivity|].
    run_resolver.
    destruct (download (full base cur) (downloader st)) as [[html|e] d'];
      [|left; reflexivity].
    destruct (nextpage_of html) as [next_path|]; [|left; reflexivity].
    destruct (_extract_article_and_chapter next_path) as [[a2 c2]|];
      [|left; reflexivity].
    destruct (negb (String.eqb a2 a)); [left; reflexivity|].
    destruct (String.eqb c2 c).
    + match goal with
      | |- context [follow_nextpage_err _ _ _ _ hops prev base a c ?v ?u ?s] =>
          destruct (IH v u s) as [Heq|(st' & Hrun & Hbook & Hout & Href)]
      end.
      * left. exact Heq.
      * right. exists st'. auto.
    + unfold checked_urljoin.
      destruct (urljoin_raises base next_path) eqn:Hn.
      * right. eexists. repeat split. now exists next_path.
      * left. reflexivity.
Qed.

(** What every run of the loop does. *)
Lemma follow_nextpage_err_walk (hops : nat) (prev base a c : string) :
  forall (visited : list string) (cur : string) (st : State),
  exists r st' new ds,
    follow_err hops prev base a c visited cur st = (r, st')
    /\ book st' = book st
    /\ requested st' = new ++ requested st
    /\ (List.length new <= hops)%nat
    /\ NoDup new
    /\ (forall u, In u new -> ~ In u visited)
    /\ stdout st' = stdout st ++ ds
    /\ match r with
       | Ok None => ds = []
       | Ok (Some None) => exists d, ds = [d] /\ walk_failure d = true
       | Ok (Some (Some resolved)) =>
           ds = [NextChapterFound prev resolved]
           /\ exists next_path c2 last earlier d html,
                resolved = urljoin base next_path
                /\ _extract_article_and_chapter next_path = Some (a, c2)
                /\ c2 <> c
                /\ new = last :: earlier
                /\ download last d = (Ok html, downloader st')
                /\ nextpage_of html = Some next_path
                /\ urljoin_raises base next_path = false
       | Raise e => e = ValueError /\ ds = [] /\ refused base
       end.
Proof.
  induction hops as [|hops IH]; intros visited cur st.
  - exists (Ok None), st, [], []. rewrite app_nil_r.
    repeat split; auto; try constructor; try (intros u []).
  - cbn [follow_nextpage_err]. unfold bind at 1. rewrite full_url_err.
    destruct (negb (startswith cur "http") && urljoin_raises base cur) eqn:Hj.
    { exists (Raise ValueError), st, [], []. rewrite app_nil_r.
      repeat split; auto with arith; try constructor; try (intros u []).
      apply andb_prop in Hj. exists cur. apply Hj. }
    clear Hj.
    destruct (existsb (String.eqb (full base cur)) visited) eqn:Hvis.
    + run_resolver. eexists _, _, [], [_].
      repeat split; simpl; eauto with arith; try constructor; try (intros u []).
    + apply existsb_eqb_false in Hvis. run_resolver.
      assert (Hone : NoDup [full base cur]) by (constructor; [intros []|constructor]).
      assert (Hfresh : forall u, In u [full base cur] -> ~ In u visited)
        by (intros u [<-|[]]; exact Hvis).
      destruct (download (full base cur) (downloader st)) as [[html|e] d'] eqn:Hdl;
        [|eexists _, _, [_], [_]; repeat split; simpl; eauto with arith].
      destruct (nextpage_of html) as [next_path|] eqn:Hnext;
        [|eexists _, _, [_], [_]; repeat split; simpl; eauto with arith].
      destruct (_extract_article_and_chapter next_path) as [[a2 c2]|] eqn:Hids;
        [|eexists _, _, [_], [_]; repeat split; simpl; eauto with arith].
      destruct (String.eqb_spec a2 a) as [->|Ha]; simpl;
        [|eexists _, _, [_], [_]; repeat split; simpl; eauto with arith].
      destruct (String.eqb_spec c2 c) as [->|Hc].
      * match goal with
        | |- context [follow_nextpage_err _ _ _ _ hops prev base a c ?v ?u ?s] =>
            destruct (IH v u s)
              as (r & st' & new & ds & Hrun & Hbook & Hreq & Hlen & Hnd & Hnew & Hout & Hr)
        end.
        exists r, st', (new ++ [full base cur]), ds.
        rewrite Hrun, Hbook, Hreq. simpl. rewrite <- app_assoc.
        split; [reflexivity|]. split; [reflexivity|]. split; [reflexivity|].
        split; [rewrite length_app; simpl; lia|].
        split.
        { apply NoDup_app; auto. intros u Hu [<-|[]]. apply (Hnew _ Hu). now left. }
        split.
        { intros u Hu Hv. apply in_app_iff in Hu. destruct Hu as [Hu|[<-|[]]].
          - apply (Hnew _ Hu). now right.
          - now apply Hvis. }
        split; [exact Hout|].
        destruct r as [[[resolved|]|]|e]; auto.
        destruct Hr as (Hds & np & c3 & last & earlier & d & h & ? & ? & ? & -> & ? & ? & ?).
        split; [exact Hds|].
        exists np, c3, last, (earlier ++ [full base cur]), d, h. auto 12.
      * unfold checked_urljoin.
        destruct (urljoin_raises base next_path) eqn:Hn; run_resolver.
        -- eexists _, _, [_], []. rewrite app_nil_r.
           repeat split; simpl; eauto with arith.
        -- eexists _, _, [_], [_]. repeat split; simpl; eauto with arith.
           exists next_path, c2, (full base cur), [], (downloader st), html. auto 12.
Qed.

Lemma resolve_next_chapter_url_err_sim (prev base : string) (max_hops : Z) (st : State) :
  walk_err prev base max_hops st = walk prev base max_hops st
  \/ exists st',
       walk_err prev base max_hops st = (Raise ValueError, st')
       /\ book st' = book st
       /\ stdout st' = stdout st
       /\ refused base.
Proof.
  unfold resolve_next_chapter_url_err, resolve_next_chapter_url.
  destruct (_extract_article_and_chapter prev) as [[a c]|]; [|left; reflexivity].
  unfold bind.
  destruct (follow_nextpage_err_sim (Z.to_nat max_hops) prev base a c [] prev st)
    as [Heq|(st' & Hrun & Hbook & Hout & Href)].
  - left. now rewrite Heq.
  - right. exists st'. rewrite Hrun. auto.
Qed.

(** What every walk does. *)
Lemma resolve_next_chapter_url_err_spec (prev base : string) (max_hops : Z) (st : State) :
  exists r st' new,
    walk_err prev base max_hops st = (r, st')
    /\ book st' = book st
    /\ requested st' = new ++ requested st
    /\ (List.length new <= Z.to_nat max_hops)%nat
    /\ NoDup new
    /\ match r with
       | Ok (Some resolved) => stdout st' = stdout st ++ [NextChapterFound prev resolved]
       | Ok None => exists d, stdout st' = stdout st ++ [d] /\ walk_failure d = true
       | Raise e => e = ValueError /\ stdout st' = stdout st /\ refused base
       end.
Proof.
  unfold resolve_next_chapter_url_err.
  destruct (_extract_article_and_chapter prev) as [[a c]|].
  - unfold bind.
    destruct (follow_nextpage_err_walk (Z.to_nat max_hops) prev base a c [] prev st)
      as (r & st' & new & ds & Hrun & Hbook & Hreq & Hlen & Hnd & _ & Hout & Hr).
    rewrite Hrun. destruct r as [[[resolved|]|]|e].
    + destruct Hr as (-> & _). exists (Ok (Some resolved)), st', new. auto 10.
    + destruct Hr as (d & -> & Hd). exists (Ok None), st', new.
      repeat split; auto. now exists d.
    + subst ds. run_resolver. eexists (Ok None), _, new.
      rewrite app_nil_r in Hout. repeat split; simpl; auto.
      eexists. rewrite Hout. split; reflexivity.
    + destruct Hr as (-> & -> & Href). exists (Raise ValueError), st', new.
      rewrite app_nil_r in Hout. auto 10.
  - run_resolver. eexists (Ok None), _, []. repeat split; simpl; auto with arith.
    + constructor.
    + eexists. split; reflexivity.
Qed.

(** Property X5.  Whatever the downloader does,
    [resolve_next_chapter_url] leaves the book as it is and hands at
    most [max_hops] addresses to the downloader, no address twice.  It
    raises nothing but the [ValueError] of a [urljoin] that refuses an
    address, and then it has printed nothing.  When it returns it has
    printed exactly one line: the one that announces the next chapter
    when it returns an address, the report of a failure when it returns
    [None]. *)
Theorem resolve_next_chapter_url_walk (prev base : string) (max_hops : Z) (st : State) :
  let r := outcome (resolve_next_chapter_url_err urljoin urljoin_raises script_texts
                      download prev base max_hops) st in
  let st' := exec (resolve_next_chapter_url_err urljoin urljoin_raises script_texts
                     download prev base max_hops) st in
  book st' = book st
  /\ (exists new,
        requested st' = new ++ requested st
        /\ (List.length new <= Z.to_nat max_hops)%nat
        /\ NoDup new)
  /\ match r with
     | Ok (Some resolved) => stdout st' = stdout st ++ [NextChapterFound prev resolved]
     | Ok None => exists d, stdout st' = stdout st ++ [d] /\ walk_failure d = true
     | Raise e =>
         e = ValueError /\ stdout st' = stdout st
         /\ exists u, urljoin_raises base u = true
     end.
Proof.
  intros r st'. unfold r, st', outcome, exec.
  destruct (resolve_next_chapter_url_err_spec prev base max_hops st)
    as (r0 & s0 & new & Hrun & Hbook & Hreq & Hlen & Hnd & Hr).
  rewrite Hrun. cbn [fst snd].
  split; [exact Hbook|]. split; [|exact Hr].
  exists new. auto.
Qed.

(** Property X6.  An address returned by [resolve_next_chapter_url] is
    the join of the base and of the nextpage pointer of the page
    downloaded last, a pointer that [urljoin] accepts; the chapter
    pattern reads that pointer as the article of the starting address
    and another chapter.  The line printed is the one that announces
    the next chapter.  What the join makes of the pointer is up to
    [urljoin]. *)
Theorem resolve_next_chapter_url_result (prev base : string) (max_hops : Z)
    (st : State) (resolved : string) :
  outcome (resolve_next_chapter_url_err urljoin urljoin_raises script_texts download
             prev base max_hops) st = Ok (Some resolved) ->
  let st' := exec (resolve_next_chapter_url_err urljoin urljoin_raises script_texts
                     download prev base max_hops) st in
  exists a c next_path c2 last earlier d html,
    _extract_article_and_chapter prev = Some (a, c)
    /\ urljoin_raises base next_path = false
    /\ resolved = urljoin base next_path
    /\ _extract_article_and_chapter next_path = Some (a, c2)
    /\ c2 <> c
    /\ requested st' = last :: earlier ++ requested st
    /\ download last d = (Ok html, downloader st')
    /\ nextpage_of html = Some next_path
    /\ stdout st' = stdout st ++ [NextChapterFound prev resolved].
Proof.
  unfold outcome, exec, resolve_next_chapter_url_err.
  destruct (_extract_article_and_chapter prev) as [[a c]|];
    [|unfold print, modify; run_monad; discriminate].
  unfold bind.
  destruct (follow_nextpage_err_walk (Z.to_nat max_hops) prev base a c [] prev st)
    as (r & st' & new & ds & Hrun & Hbook & Hreq & Hlen & Hnd & _ & Hout & Hr).
  rewrite Hrun. destruct r as [[[r|]|]|e]; simpl; intro H; try discriminate.
  inversion H; subst r.
  destruct Hr as (-> & np & c2 & last & earlier & d & html & ? & ? & ? & -> & ? & ? & ?).
  exists a, c, np, c2, last, earlier, d, html. auto 12.
Qed.

(** ** The step made for a target *)

Lemma resolve_chapter_err_sim (base : string) (vi : nat) (vol : Volume) (ci : nat)
    (st : State) :
  step_err base vi vol ci st = step base vi vol ci st
  \/ exists st',
       step_err base vi vol ci st = (Raise ValueError, st')
       /\ book st' = book st
       /\ refused base.
Proof.
  unfold resolve_chapter_err, resolve_chapter, bind, gets. cbn beta iota.
  destruct (chapter_at (volumes (book st)) vi ci) as [ch|]; [|left; reflexivity].
  destruct (negb (needs_resolve ch)); [left; reflexivity|].
  destruct (find_prev_normal_chapter (volumes (book st)) (Z.of_nat vi) (Z.of_nat ci))
    as [[[[pv pc] prev]|]|e]; try (left; reflexivity).
  destruct (String.eqb (url prev) EmptyString || String.eqb (url prev) PLACEHOLDER);
    [left; reflexivity|].
  destruct (resolve_next_chapter_url_err_sim (url prev) base DEFAULT_MAX_HOPS st)
    as [Heq|(st' & Hrun & Hbook & _ & Href)].
  - left. now rewrite Heq.
  - right. exists st'. rewrite Hrun. auto.
Qed.

(** The step for a target, by what the resolution of the target does:
    it is written when the resolution succeeds, with the address the
    walk returned, and in no other case; the step raises only when the
    walk does. *)
Lemma resolve_chapter_err_cases (base : string) (vi : nat) (vol : Volume) (ci : nat)
    (st : State) :
  let r := outcome (step_err base vi vol ci) st in
  let st' := exec (step_err base vi vol ci) st in
  (r = Ok tt \/ (r = Raise ValueError /\ refused base))
  /\ ((forall resolved, ~ succeeds base st vi ci resolved) -> book st' = book st)
  /\ (forall ch resolved,
        chapter_at (volumes (book st)) vi ci = Some ch ->
        needs_resolve ch = true ->
        succeeds base st vi ci resolved ->
        r = Ok tt
        /\ book st'
           = update_volumes (update_chapter_at vi ci (commit (url ch) resolved)) (book st))
  /\ (forall ch,
        chapter_at (volumes (book st)) vi ci = Some ch ->
        needs_resolve ch = false ->
        r = Ok tt /\ st' = st).
Proof.
  intros r st'. unfold r, st', resolution_succeeds. unfold outcome, exec. clear r st'.
  destruct (step_err base vi vol ci st) as [r0 s0] eqn:Hstep. cbn [fst snd].
  unfold resolve_chapter_err, bind, gets in Hstep. cbn beta iota in Hstep.
  destruct (chapter_at (volumes (book st)) vi ci) as [ch|] eqn:Hch.
  2:{ inversion Hstep; subst.
      split; [now left|]. split; [reflexivity|]. split; intros; discriminate. }
  assert (Hsame : forall ch0 : Chapter, Some ch = Some ch0 -> ch0 = ch)
    by (intros ch0 H; now inversion H).
  destruct (needs_resolve ch) eqn:Hneeds; cbn [negb] in Hstep.
  2:{ inversion Hstep; subst.
      split; [now left|]. split; [reflexivity|]. split; [|auto].
      intros ch0 r0 H0 H1. apply Hsame in H0. subst. congruence. }
  destruct (find_prev_normal_chapter_total _ _ _ _ Hch) as [found Hfound].
  rewrite Hfound in Hstep |- *. cbn beta iota in Hstep.
  assert (Hwalk : forall resolved,
            (exists pv0 pc0 prev0,
               Ok found = Ok (Some (pv0, pc0, prev0))
               /\ url prev0 <> EmptyString
               /\ url prev0 <> PLACEHOLDER
               /\ fst (walk_err (url prev0) base DEFAULT_MAX_HOPS st) = Ok (Some resolved)
               /\ resolved <> EmptyString) ->
            exists prev0,
               (exists pv0 pc0, found = Some (pv0, pc0, prev0))
               /\ url prev0 <> EmptyString
               /\ url prev0 <> PLACEHOLDER
               /\ fst (walk_err (url prev0) base DEFAULT_MAX_HOPS st) = Ok (Some resolved)
               /\ resolved <> EmptyString).
  { intros resolved (pv0 & pc0 & prev0 & H & Hrest). exists prev0.
    inversion H. eauto. }
  destruct found as [[[pv pc] prev]|].
  2:{ unfold print, modify in Hstep. inversion Hstep; subst. cbn.
      split; [now left|]. split; [reflexivity|]. split.
      - intros ch0 r0 _ _ Hs. apply Hwalk in Hs.
        destruct Hs as (? & (? & ? & H) & _). discriminate H.
      - intros ch0 H0 H1. exfalso. apply Hsame in H0. subst. congruence. }
  assert (Hprev : forall resolved,
            (exists pv0 pc0 prev0,
               Ok (Some (pv, pc, prev)) = Ok (Some (pv0, pc0, prev0))
               /\ url prev0 <> EmptyString
               /\ url prev0 <> PLACEHOLDER
               /\ fst (walk_err (url prev0) base DEFAULT_MAX_HOPS st) = Ok (Some resolved)
               /\ resolved <> EmptyString) ->
            url prev <> EmptyString
            /\ url prev <> PLACEHOLDER
            /\ fst (walk_err (url prev) base DEFAULT_MAX_HOPS st) = Ok (Some resolved)
            /\ resolved <> EmptyString).
  { intros resolved Hs. apply Hwalk in Hs.
    destruct Hs as (prev0 & (pv0 & pc0 & H) & Hrest). inversion H; subst. exact Hrest. }
  clear Hwalk.
  destruct (String.eqb_spec (url prev) EmptyString) as [Hempty|Hempty];
    cbn [orb] in Hstep.
  { unfold print, modify in Hstep. inversion Hstep; subst. cbn.
    split; [now left|]. split; [reflexivity|]. split.
    - intros ch0 r0 _ _ Hs. apply Hprev in Hs. destruct Hs as (Hne & _). congruence.
    - intros ch0 H0 H1. exfalso. apply Hsame in H0. subst. congruence. }
  destruct (String.eqb_spec (url prev) PLACEHOLDER) as [Hplace|Hplace].
  { unfold print, modify in Hstep. inversion Hstep; subst. cbn.
    split; [now left|]. split; [reflexivity|]. split.
    - intros ch0 r0 _ _ Hs. apply Hprev in Hs. destruct Hs as (_ & Hne & _). congruence.
    - intros ch0 H0 H1. exfalso. apply Hsame in H0. subst. congruence. }
  destruct (resolve_next_chapter_url_err_spec (url prev) base DEFAULT_MAX_HOPS st)
    as (rw & sw & new & Hrun & Hbook & _ & _ & _ & Hrw).
  rewrite Hrun in Hstep.
  assert (Hwalk : forall resolved,
            (exists pv0 pc0 prev0,
               Ok (Some (pv, pc, prev)) = Ok (Some (pv0, pc0, prev0))
               /\ url prev0 <> EmptyString
               /\ url prev0 <> PLACEHOLDER
               /\ fst (walk_err (url prev0) base DEFAULT_MAX_HOPS st) = Ok (Some resolved)
               /\ resolved <> EmptyString) ->
            rw = Ok (Some resolved) /\ resolved <> EmptyString).
  { intros resolved Hs. apply Hprev in Hs. destruct Hs as (_ & _ & Hw & Hne).
    rewrite Hrun in Hw. auto. }
  clear Hprev.
  destruct rw as [[resolved|]|e].
  - destruct (String.eqb_spec resolved EmptyString) as [Hres|Hres].
    + unfold print, modify in Hstep. inversion Hstep; subst. cbn. rewrite Hbook.
      split; [now left|]. split; [reflexivity|]. split.
      * intros ch0 r0 _ _ Hs. apply Hwalk in Hs. destruct Hs as [Hs Hne].
        inversion Hs; subst. congruence.
      * intros ch0 H0 H1. exfalso. apply Hsame in H0. subst. congruence.
    + unfold print, update_book, modify in Hstep. cbn in Hstep.
      inversion Hstep; subst. cbn. rewrite update_volumes_commit, Hbook.
      split; [now left|]. split; [|split].
      * intro Hnone. exfalso. apply (Hnone resolved).
        exists pv, pc, prev. rewrite Hrun. auto.
      * intros ch0 r0 H0 _ Hs. apply Hwalk in Hs. destruct Hs as [Hs _].
        apply Hsame in H0. inversion Hs; subst. auto.
      * intros ch0 H0 H1. exfalso. apply Hsame in H0. subst. congruence.
  - unfold print, modify in Hstep. inversion Hstep; subst. cbn. rewrite Hbook.
    split; [now left|]. split; [reflexivity|]. split.
    + intros ch0 r0 _ _ Hs. apply Hwalk in Hs. destruct Hs as [Hs _]. discriminate Hs.
    + intros ch0 H0 H1. exfalso. apply Hsame in H0. subst. congruence.
  - destruct Hrw as (-> & _ & Href). inversion Hstep; subst. rewrite Hbook.
    split; [right; auto|]. split; [reflexivity|]. split.
    + intros ch0 r0 _ _ Hs. apply Hwalk in Hs. destruct Hs as [Hs _]. discriminate Hs.
    + intros ch0 H0 H1. exfalso. apply Hsame in H0. subst. congruence.
Qed.

(** The step raises only what the walk raised. *)
Lemma resolve_chapter_err_raise (base : string) (vi : nat) (vol : Volume) (ci : nat)
    (st : State) (e : exn) :
  outcome (step_err base vi vol ci) st = Raise e ->
  exists pv pc prev,
    find_prev_normal_chapter (volumes (book st)) (Z.of_nat vi) (Z.of_nat ci)
    = Ok (Some (pv, pc, prev))
    /\ outcome (walk_err (url prev) base DEFAULT_MAX_HOPS) st = Raise e.
Proof.
  unfold outcome. unfold resolve_chapter_err, bind, gets. cbn beta iota.
  destruct (chapter_at (volumes (book st)) vi ci) as [ch|] eqn:Hch; [|discriminate].
  destruct (negb (needs_resolve ch)); [discriminate|].
  destruct (find_prev_normal_chapter_total _ _ _ _ Hch) as [found Hfound].
  rewrite Hfound. cbn beta iota.
  destruct found as [[[pv pc] prev]|]; [|discriminate].
  destruct (String.eqb (url prev) EmptyString || String.eqb (url prev) PLACEHOLDER);
    [discriminate|].
  destruct (walk_err (url prev) base DEFAULT_MAX_HOPS st) as [[[resolved|]|e0] sw] eqn:Hrun.
  - destruct (String.eqb resolved EmptyString); discriminate.
  - discriminate.
  - cbn. intro H. inversion H; subst. exists pv, pc, prev. rewrite Hrun. auto.
Qed.

(** To the book, the step does what the step over a [urljoin] that
    accepts everything does, or nothing. *)
Lemma resolve_chapter_err_book (base : string) (vi : nat) (vol : Volume) (ci : nat)
    (st : State) :
  book (exec (step_err base vi vol ci) st) = book (exec (step base vi vol ci) st)
  \/ book (exec (step_err base vi vol ci) st) = book st.
Proof.
  unfold exec.
  destruct (resolve_chapter_err_sim base vi vol ci st) as [->|(st' & -> & Hbook & _)];
    [now left|now right].
Qed.

(** What a relation between two books needs for every step to keep it. *)
Lemma resolve_chapter_err_keeps (R : BookStructure -> BookStructure -> Prop)
    (base : string) (vi : nat) (vol : Volume) (ci : nat) (st : State) :
  R (book st) (book st) ->
  R (book st) (book (exec (step base vi vol ci) st)) ->
  R (book st) (book (exec (step_err base vi vol ci) st)).
Proof.
  intros Hrefl Hstep.
  destruct (resolve_chapter_err_book base vi vol ci st) as [-> | ->]; assumption.
Qed.

(** ** The pass as a sequence of steps *)

Local Abbreviation visit_err base :=
  (fun t : nat * Volume * nat => let '(vi, vol, ci) := t in step_err base vi vol ci).

Lemma resolve_all_special_chapters_err_flat (base : string) (st : State) :
  pass_err base st = for_each (targets (volumes (book st))) (visit_err base) st.
Proof.
  unfold resolve_all_special_chapters_err, targets. run_monad.
  rewrite for_each_flat_map. apply for_each_ext.
  intros [vi vol] s _. rewrite for_each_map. apply for_each_ext.
  now intros [ci ch] s' _.
Qed.

(** Where [urljoin] accepts every address, the pass is the pass over a
    [urljoin] without errors. *)
Lemma resolve_all_special_chapters_err_plain (base : string) (st : State) :
  (forall u, urljoin_raises base u = false) ->
  pass_err base st = resolve_all_special_chapters urljoin script_texts download base st.
Proof.
  intro Hok.
  rewrite resolve_all_special_chapters_err_flat,
    (resolve_all_special_chapters_flat urljoin script_texts DS download).
  apply for_each_ext. intros [[vi vol] ci] s _.
  destruct (resolve_chapter_err_sim base vi vol ci s) as [H|(st' & _ & _ & u & Hu)];
    [exact H|].
  rewrite Hok in Hu. discriminate.
Qed.

(** A loop keeps what each of its steps keeps, also when a step stops
    it. *)
Lemma for_each_keeps {S A : Type} (R : S -> S -> Prop) (body : A -> M S unit)
    (l : list A) :
  (forall s, R s s) ->
  (forall a b c, R a b -> R b c -> R a c) ->
  (forall a s, R s (exec (body a) s)) ->
  forall s, R s (exec (for_each l body) s).
Proof.
  intros Hrefl Htrans Hstep. induction l as [|a l IH]; intro s.
  - apply Hrefl.
  - unfold exec. simpl. unfold bind.
    specialize (Hstep a s). unfold exec in Hstep.
    destruct (body a s) as [[[]|e] s1]; simpl in *.
    + eapply Htrans; [exact Hstep|apply IH].
    + exact Hstep.
Qed.

(** A loop raises only what one of its steps raises. *)
Lemma for_each_raises {S A : Type} (P : exn -> Prop) (body : A -> M S unit)
    (l : list A) :
  (forall a s e, outcome (body a) s = Raise e -> P e) ->
  forall s e, outcome (for_each l body) s = Raise e -> P e.
Proof.
  intro Hstep. induction l as [|a l IH]; intros s e.
  - discriminate.
  - unfold outcome. simpl. unfold bind.
    specialize (Hstep a s). unfold outcome in Hstep.
    destruct (body a s) as [[[]|e0] s1]; simpl in *.
    + apply IH.
    + intro H. inversion H; subst. now apply Hstep.
Qed.

Lemma pass_err_keeps (R : BookStructure -> BookStructure -> Prop) (base : string)
    (ts : list (nat * Volume * nat)) :
  (forall b, R b b) ->
  (forall a b c, R a b -> R b c -> R a c) ->
  (forall vi vol ci (s : State), R (book s) (book (exec (step base vi vol ci) s))) ->
  forall st : State, R (book st) (book (exec (for_each ts (visit_err base)) st)).
Proof.
  intros Hrefl Htrans Hstep.
  apply (for_each_keeps (fun s s' : State => R (book s) (book s'))).
  - intro s. apply Hrefl.
  - intros a b c. apply Htrans.
  - intros [[vi vol] ci] s. apply resolve_chapter_err_keeps; auto.
Qed.

(** A chapter that needs no resolving is left as it is, by every step
    and by the pass. *)
Lemma resolve_chapter_err_keeps_resolved (base : string) (vi : nat) (vol : Volume)
    (ci : nat) (st : State) (vj cj : nat) (ch : Chapter) :
  chapter_at (volumes (book st)) vj cj = Some ch ->
  needs_resolve ch = false ->
  chapter_at (volumes (book (exec (step_err base vi vol ci) st))) vj cj = Some ch.
Proof.
  intros Hch Hneeds.
  apply (resolve_chapter_err_keeps
           (fun b b' => chapter_at (volumes b') vj cj = Some ch)); [exact Hch|].
  pose proof (resolve_chapter_rel urljoin script_texts DS download base vi vol ci st vj cj)
    as Hrel.
  rewrite Hch in Hrel.
  destruct (chapter_at (volumes (book (exec (step base vi vol ci) st))) vj cj) as [ch'|];
    [|contradiction].
  simpl in Hrel. destruct Hrel as [->|[Hflag _]]; [reflexivity|congruence].
Qed.

Lemma pass_err_keeps_resolved (base : string) (ts : list (nat * Volume * nat))
    (vj cj : nat) (ch : Chapter) (st : State) :
  chapter_at (volumes (book st)) vj cj = Some ch ->
  needs_resolve ch = false ->
  chapter_at (volumes (book (exec (for_each ts (visit_err base)) st))) vj cj = Some ch.
Proof.
  intros Hch Hneeds.
  apply (for_each_keeps
           (fun s s' : State =>
              chapter_at (volumes (book s)) vj cj = Some ch ->
              chapter_at (volumes (book s')) vj cj = Some ch)); auto.
  intros [[vi vol] ci] s Hs. now apply resolve_chapter_err_keeps_resolved.
Qed.

(** The step changes no other chapter. *)
Lemma resolve_chapter_err_frame (base : string) (vi : nat) (vol : Volume) (ci : nat)
    (st : State) (vj cj : nat) :
  (vi, ci) <> (vj, cj) ->
  chapter_at (volumes (book (exec (step_err base vi vol ci) st))) vj cj
  = chapter_at (volumes (book st)) vj cj.
Proof.
  intro Hne.
  apply (resolve_chapter_err_keeps
           (fun b b' => chapter_at (volumes b') vj cj = chapter_at (volumes b) vj cj));
    [reflexivity|].
  now apply resolve_chapter_frame.
Qed.

(** ** The claims on the pass *)



End ResolverErrorFacts.

(** ** The claims of this part, at concrete surroundings *)


Lemma resolve_next_chapter_url_result_witness :
  let run := resolve_next_chapter_url_err urljoin_root unpaired_bracket one_script
               (static_download book_4519) (SITE ++ "/novel/4519/262081.html") SITE 20 in
  let st := start_with cascade_book tt in
  let st' := exec run st in
  exists a c next_path c2 last earlier d html,
    _extract_article_and_chapter (SITE ++ "/novel/4519/262081.html") = Some (a, c)
    /\ unpaired_bracket SITE next_path = false
    /\ (SITE ++ "/novel/4519/262082.html")%string = urljoin_root SITE next_path
    /\ _extract_article_and_chapter next_path = Some (a, c2)
    /\ c2 <> c
    /\ requested st' = last :: earlier ++ requested st
    /\ static_download book_4519 last d = (Ok html, downloader st')
    /\ _extract_nextpage_path one_script html = Some next_path
    /\ stdout st'
       = stdout st ++ [NextChapterFound (SITE ++ "/novel/4519/262081.html")
                         (SITE ++ "/novel/4519/262082.html")].
Proof.
  intros run st.
  apply (resolve_next_chapter_url_result urljoin_root unpaired_bracket one_script unit
           (static_download book_4519) (SITE ++ "/novel/4519/262081.html") SITE 20 st
           (SITE ++ "/novel/4519/262082.html")).
  reflexivity.
Defined.


(* ===================================================================== *)
(** * Facts on the downloader with the errors of urljoin and of
      time.sleep *)
(* ===================================================================== *)

Section DownloaderErrorFacts.

Variable urljoin : string -> string -> string.
Variable urljoin_raises : string -> string -> bool.
Variable too_long : Q -> bool.
Variable sleep_error : exn.
Variable env : Env.

(** A sleep of a duration that is not negative and that [time.sleep]
    takes. *)
Lemma time_sleep_err_run (secs : Q) (s : DState) :
  (0 <= secs)%Q ->
  too_long secs = false ->
  exists s',
    time_sleep_err too_long sleep_error env secs s = (Ok tt, s')
    /\ self s' = self s
    /\ sent (world s') = sent (world s)
    /\ trace (world s') = trace (world s) ++ [Sleep (clock (world s)) secs]
    /\ clock (world s') = (clock (world s) + secs + took env (blocked (world s)))%Q.
Proof.
  intros Hsecs Hfits. unfold time_sleep_err.
  assert (Hneg : Qltb secs 0 = false) by now apply Qltb_false.
  rewrite Hneg, Hfits. eexists. repeat split.
Qed.

(** Claim C10, as amended.  With [retry_times <= 0] the loop has no
    iteration and [download] sends nothing and changes nothing.  For
    an address that starts with http, or that [urljoin] accepts, it
    ends in [raise last_exception] with [last_exception] still [None],
    which raises a [TypeError]; for a relative address that [urljoin]
    refuses, the [ValueError] of line 113 comes first.  Neither is a
    [RequestException]. *)
Theorem download_without_attempts (url : string) (timeout : Z) (s : DState) :
  retry_times (self s) <= 0 ->
  (startswith url "http" = true \/ urljoin_raises (base_url (self s)) url = false ->
   download_err urljoin urljoin_raises too_long sleep_error env url timeout s = (Raise TypeError, s))
  /\ (startswith url "http" = false -> urljoin_raises (base_url (self s)) url = true ->
      download_err urljoin urljoin_raises too_long sleep_error env url timeout s
      = (Raise ValueError, s))
  /\ is_RequestException TypeError = false
  /\ is_RequestException ValueError = false.
Proof.
  intro Hk.
  assert (Hrange : range (retry_times (self s)) = [])
    by (unfold range; now replace (Z.to_nat (retry_times (self s))) with 0%nat by lia).
  split; [|split; [|split; reflexivity]].
  - intro Hurl. unfold download_err. run_monad. rewrite Hrange.
    destruct (startswith url "http"); simpl; [reflexivity|].
    destruct Hurl as [Hurl| ->]; [discriminate Hurl|reflexivity].
  - intros Hrel Hraises. unfold download_err. run_monad.
    now rewrite Hrel, Hraises.
Qed.

(** *** The handler of the failed attempts *)

(** One turn of the loop whose attempt raised a [RequestException]. *)
Lemma download_attempts_err_failed (url : string) (timeout : Z) (attempt : Z)
    (rest : list Z) (last : option exn) (s s1 : DState) (e : exn) :
  attempt_body_err too_long sleep_error env url timeout s = (Raise e, s1) ->
  is_RequestException e = true ->
  download_attempts_err too_long sleep_error env url timeout (attempt :: rest) last s
  = match on_request_exception_err too_long sleep_error env url attempt e s1 with
    | (Ok _, s2) => download_attempts_err too_long sleep_error env url timeout rest (Some e) s2
    | (Raise e', s2) => (Raise e', s2)
    end.
Proof.
  intros Hbody Hclass. cbn [download_attempts_err]. unfold bind at 1. unfold try_except.
  unfold bind at 1. rewrite Hbody, Hclass. unfold bind at 1.
  destruct (on_request_exception_err too_long sleep_error env url attempt e s1) as [[[]|e'] s2];
    reflexivity.
Qed.

(** The handler on a 429 whose wait [time.sleep] takes. *)
Lemma on_request_exception_err_429 (url : string) (attempt : Z) (e : exn) (s1 : DState) :
  status_of e = Some 429 ->
  (0 <= retry_delay (self s1))%Q ->
  0 <= attempt ->
  let wait_time := wait_time_429 (retry_after_of e) (retry_delay (self s1)) attempt in
  too_long wait_time = false ->
  (retry_delay (self s1) * inject_Z (attempt + 1) * 3 <= wait_time)%Q
  /\ exists s2,
       on_request_exception_err too_long sleep_error env url attempt e s1 = (Ok tt, s2)
       /\ self s2 = self s1
       /\ trace (world s2)
          = trace (world s1)
            ++ [Print (TooManyRequests wait_time url); Sleep (clock (world s1)) wait_time]
       /\ clock (world s2)
          = (clock (world s1) + wait_time + took env (blocked (world s1)))%Q.
Proof.
  intros Hstatus Hdelay Hattempt wait_time Hfits.
  assert (Hbackoff : (0 <= retry_delay (self s1) * inject_Z (attempt + 1) * 3)%Q).
  { pose proof (inject_Z_nonneg (attempt + 1) ltac:(lia)) as Hz.
    apply Qmult_le_0_compat; [apply Qmult_le_0_compat; assumption|lra]. }
  assert (Hle : (retry_delay (self s1) * inject_Z (attempt + 1) * 3 <= wait_time)%Q).
  { unfold wait_time, wait_time_429, py_max.
    destruct (Qltb (inject_Z (retry_after_of e))
                (retry_delay (self s1) * inject_Z (attempt + 1) * 3)) eqn:Hcmp.
    - lra.
    - now apply Qltb_false in Hcmp. }
  split; [exact Hle|].
  assert (Hwait : Qltb wait_time 0 = false) by (apply Qltb_false; lra).
  unfold on_request_exception_err. unfold bind at 1. unfold gets at 1.
  cbn beta iota. rewrite Hstatus. change (429 =? 429) with true. cbn iota.
  fold wait_time. unfold time_sleep_err, warn. rewrite Hwait, Hfits. run_monad.
  eexists. split; [reflexivity|]. simpl. rewrite <- app_assoc. auto.
Qed.


(** Property X14.  [_sleep_for_rate_limit] sends nothing and does not
    change the object, and the only thing it can raise is the error
    of [time.sleep] for a duration that is too long for it: the
    duration it asks for is never negative.  Before the first
    completed request it does nothing at all; after it, it sleeps for
    what is left of the interval (base interval plus the jitter drawn)
    when the time elapsed is shorter, and does not sleep otherwise. *)
Theorem rate_gate_outcome (s : DState) :
  let interval :=
    (base_interval (self s)
     + (0 + (interval_jitter (self s) - 0) * random_random env (draws (world s))))%Q in
  let elapsed := (clock (world s) - _last_request_ts (self s))%Q in
  let r := outcome (_sleep_for_rate_limit_err too_long sleep_error env) s in
  let s' := exec (_sleep_for_rate_limit_err too_long sleep_error env) s in
  same_self s s'
  /\ same_sent s s'
  /\ ((_last_request_ts (self s) <= 0)%Q -> r = Ok tt /\ s' = s)
  /\ ((0 < _last_request_ts (self s))%Q -> (elapsed < interval)%Q ->
      if too_long (interval - elapsed)
      then r = Raise sleep_error /\ world s' = next_draw (world s)
      else r = Ok tt
           /\ trace (world s')
              = trace (world s) ++ [Sleep (clock (world s)) (interval - elapsed)]
           /\ clock (world s')
              = (clock (world s) + (interval - elapsed) + took env (blocked (world s)))%Q)
  /\ ((0 < _last_request_ts (self s))%Q -> (interval <= elapsed)%Q ->
      r = Ok tt /\ world s' = next_draw (world s)).
Proof.
  intros interval elapsed r s'. unfold r, s', outcome, exec.
  unfold _sleep_for_rate_limit_err, time_monotonic, random_uniform. run_monad.
  destruct (Qle_bool (_last_request_ts (self s)) 0) eqn:Hts.
  - apply Qle_bool_iff in Hts. simpl.
    repeat split; auto; intros; lra.
  - apply Qle_bool_false in Hts.
    match goal with
    | |- context [if Qltb ?el ?iv then _ else _] => destruct (Qltb el iv) eqn:Hcmp
    end.
    + apply Qltb_true in Hcmp. unfold time_sleep_err.
      match goal with
      | |- context [Qltb ?secs 0] =>
          assert (Hsecs : Qltb secs 0 = false) by (apply Qltb_false; lra);
          rewrite Hsecs
      end.
      unfold interval, elapsed.
      match goal with
      | |- context [too_long ?d] => destruct (too_long d) eqn:Hlong
      end; run_monad; repeat split; auto; intros; lra.
    + apply Qltb_false in Hcmp. unfold interval, elapsed. simpl.
      repeat split; auto; intros; lra.
Qed.

(** Property X15.  An attempt that fails with a [RequestException]
    other than a 429 (a connection error, a timeout, another HTTP
    error status) is followed by a sleep of
    [retry_delay * (attempt + 1)] and by the next attempt, as long as
    it is not the last one and the sleep is one [time.sleep] takes; on
    the last attempt, [attempt = retry_times - 1], the exception is
    raised again at once, without sleeping.  ([retry_delay] is not
    negative.) *)
Theorem ordinary_failure_backs_off
    (url : string) (timeout : Z) (attempt : Z) (rest : list Z) (last : option exn)
    (s s1 : DState) (e : exn) :
  attempt_body_err too_long sleep_error env url timeout s = (Raise e, s1) ->
  is_RequestException e = true ->
  status_of e <> Some 429 ->
  (0 <= retry_delay (self s1))%Q ->
  0 <= attempt ->
  let wait_time := (retry_delay (self s1) * inject_Z (attempt + 1))%Q in
  (attempt < retry_times (self s1) - 1 ->
   too_long wait_time = false ->
   exists s2,
     on_request_exception_err too_long sleep_error env url attempt e s1 = (Ok tt, s2)
     /\ self s2 = self s1
     /\ trace (world s2) = trace (world s1) ++ [Sleep (clock (world s1)) wait_time]
     /\ clock (world s2)
        = (clock (world s1) + wait_time + took env (blocked (world s1)))%Q
     /\ download_attempts_err too_long sleep_error env url timeout (attempt :: rest) last s
        = download_attempts_err too_long sleep_error env url timeout rest (Some e) s2)
  /\ (retry_times (self s1) - 1 <= attempt ->
      download_attempts_err too_long sleep_error env url timeout (attempt :: rest) last s
      = (Raise e, s1)).
Proof.
  intros Hbody Hclass Hstatus Hdelay Hattempt wait_time.
  rewrite (download_attempts_err_failed url timeout attempt rest last s s1 e Hbody Hclass).
  assert (Hnot : match status_of e with Some status => status =? 429 | None => false end
                 = false).
  { destruct (status_of e) as [status|]; [|reflexivity].
    apply Z.eqb_neq. congruence. }
  assert (Hwait : (0 <= wait_time)%Q).
  { unfold wait_time.
    pose proof (inject_Z_nonneg (attempt + 1) ltac:(lia)).
    now apply Qmult_le_0_compat. }
  split.
  - intros Hlt Hfits. apply Z.ltb_lt in Hlt.
    destruct (time_sleep_err_run wait_time s1 Hwait Hfits)
      as (s2 & Hrun & Hself & _ & Htrace & Hclock).
    assert (Hhandler : on_request_exception_err too_long sleep_error env url attempt e s1 = (Ok tt, s2)).
    { unfold on_request_exception_err. unfold bind at 1. unfold gets at 1.
      cbn beta iota. rewrite Hnot, Hlt. exact Hrun. }
    exists s2. rewrite Hhandler. auto.
  - intro Hge. apply Z.ltb_ge in Hge.
    unfold on_request_exception_err. unfold bind at 1. unfold gets at 1.
    cbn beta iota. rewrite Hnot, Hge. reflexivity.
Qed.


(** *** Where nothing is refused *)

(** When [time.sleep] takes every duration and [urljoin] every
    address, this downloader is the one of the sections above. *)
Lemma download_err_plain (url : string) (timeout : Z) (s : DState) :
  (forall secs, too_long secs = false) ->
  (forall base u, urljoin_raises base u = false) ->
  download_err urljoin urljoin_raises too_long sleep_error env url timeout s
  = download urljoin env url timeout s.
Proof.
  intros Hsleep Hjoin.
  assert (Hts : forall secs s0, time_sleep_err too_long sleep_error env secs s0 = time_sleep env secs s0).
  { intros secs s0. unfold time_sleep_err, time_sleep. rewrite Hsleep. reflexivity. }
  assert (Hgate : forall s0, _sleep_for_rate_limit_err too_long sleep_error env s0
                             = _sleep_for_rate_limit env s0).
  { intro s0. unfold _sleep_for_rate_limit_err, _sleep_for_rate_limit, bind.
    destruct (time_monotonic s0) as [[now|e] sa]; [|reflexivity].
    destruct (gets self sa) as [[me|e] sb]; [|reflexivity].
    destruct (Qle_bool (_last_request_ts me) 0); [reflexivity|].
    destruct (random_uniform env 0 (interval_jitter me) sb) as [[jitter|e] sc];
      [|reflexivity].
    destruct (Qltb _ _); [apply Hts|reflexivity]. }
  assert (Hbody : forall u s0, attempt_body_err too_long sleep_error env u timeout s0
                               = attempt_body env u timeout s0).
  { intros u s0. unfold attempt_body_err, attempt_body, bind.
    now rewrite Hgate. }
  assert (Hhandler : forall u attempt e s0,
            on_request_exception_err too_long sleep_error env u attempt e s0
            = on_request_exception env u attempt e s0).
  { intros u attempt e s0. unfold on_request_exception_err, on_request_exception, bind.
    destruct (gets self s0) as [[me|e'] sa]; [|reflexivity].
    destruct (match status_of e with Some status => status =? 429 | None => false end).
    - destruct (warn _ sa) as [[[]|e'] sb]; [apply Hts|reflexivity].
    - destruct (attempt <? retry_times me - 1); [apply Hts|reflexivity]. }
  assert (Hloop : forall u attempts last s0,
            download_attempts_err too_long sleep_error env u timeout attempts last s0
            = download_attempts env u timeout attempts last s0).
  { intros u attempts. induction attempts as [|attempt rest IH]; intros last s0;
      [reflexivity|].
    cbn [download_attempts_err download_attempts]. unfold bind, try_except.
    rewrite Hbody.
    destruct (attempt_body env u timeout s0) as [[text_content|e] sa]; [reflexivity|].
    destruct (is_RequestException e); [|reflexivity].
    rewrite Hhandler.
    destruct (on_request_exception env u attempt e sa) as [[[]|e'] sb];
      [apply IH|reflexivity]. }
  unfold download_err, download, bind, gets. cbn beta iota zeta.
  destruct (negb (startswith url "http")); cbn beta iota; [rewrite Hjoin|];
    apply Hloop.
Qed.

End DownloaderErrorFacts.

(** ** The claims and the properties of this part, at concrete
       surroundings *)

(** Claim C10 as stated fails on a relative address that [urljoin]
    refuses: with no attempt allowed, the call ends at line 113 in a
    [ValueError], and the statement after the loop is not reached. *)
Lemma refused_address_without_attempts :
  let s := fresh_downloader 0 in
  let call := download_err urljoin_root unpaired_bracket past_the_clock OverflowError steady_env
                "//[x" 30 in
  retry_times (self s) <= 0
  /\ call s = (Raise ValueError, s)
  /\ ~ (outcome call s = Raise TypeError).
Proof.
  vm_compute. repeat split; discriminate.
Qed.

Lemma download_without_attempts_witness :
  let s := fresh_downloader 0 in
  retry_times (self s) <= 0
  /\ (startswith "/novel/4519/262081.html" "http" = true
      \/ unpaired_bracket (base_url (self s)) "/novel/4519/262081.html" = false ->
      download_err urljoin_root unpaired_bracket past_the_clock OverflowError steady_env
        "/novel/4519/262081.html" 30 s
      = (Raise TypeError, s))
  /\ (startswith "/novel/4519/262081.html" "http" = false ->
      unpaired_bracket (base_url (self s)) "/novel/4519/262081.html" = true ->
      download_err urljoin_root unpaired_bracket past_the_clock OverflowError steady_env
        "/novel/4519/262081.html" 30 s
      = (Raise ValueError, s))
  /\ is_RequestException TypeError = false
  /\ is_RequestException ValueError = false.
Proof.
  intro s.
  assert (H : retry_times (self s) <= 0) by (simpl; lia).
  split; [exact H|].
  exact (download_without_attempts urljoin_root unpaired_bracket past_the_clock OverflowError steady_env
           "/novel/4519/262081.html" 30 s H).
Defined.



(** A hint of ten thousand million seconds is more than [time.sleep]
    takes: the handler raises, and the 429 is not waited out. *)
Example overlong_hint_is_not_waited_out :
  let url := (SITE ++ "/novel/4519/262081.html")%string in
  let e := RequestException (Some (too_many_requests "10000000000")) in
  outcome (on_request_exception_err past_the_clock OverflowError steady_env url 0 e) (fresh_downloader 3)
  = Raise OverflowError.
Proof. vm_compute. reflexivity. Qed.

Lemma ordinary_failure_backs_off_witness :
  let url := (SITE ++ "/novel/4519/262081.html")%string in
  let s := fresh_downloader 3 in
  let e := RequestException None in
  let s1 := exec (attempt_body_err past_the_clock OverflowError unreachable_env url 30) s in
  let wait_time := (retry_delay (self s1) * inject_Z (0 + 1))%Q in
  (0 < retry_times (self s1) - 1 ->
   past_the_clock wait_time = false ->
   exists s2,
     on_request_exception_err past_the_clock OverflowError unreachable_env url 0 e s1 = (Ok tt, s2)
     /\ self s2 = self s1
     /\ trace (world s2) = trace (world s1) ++ [Sleep (clock (world s1)) wait_time]
     /\ clock (world s2)
        = (clock (world s1) + wait_time + took unreachable_env (blocked (world s1)))%Q
     /\ download_attempts_err past_the_clock OverflowError unreachable_env url 30 [0; 1; 2] None s
        = download_attempts_err past_the_clock OverflowError unreachable_env url 30 [1; 2] (Some e) s2)
  /\ (retry_times (self s1) - 1 <= 0 ->
      download_attempts_err past_the_clock OverflowError unreachable_env url 30 [0; 1; 2] None s
      = (Raise e, s1)).
Proof.
  intros url s e s1.
  apply (ordinary_failure_backs_off past_the_clock OverflowError unreachable_env url 30 0 [1; 2] None
           s s1 e).
  - vm_compute. reflexivity.
  - reflexivity.
  - discriminate.
  - vm_compute. discriminate.
  - lia.
Defined.


(* ===================================================================== *)
(** * Facts on the catalogue parser *)
(* ===================================================================== *)

(** ** The address of the catalogue *)

Lemma catalog_id_match_sound (s : string) (caps : list string) :
  rmatch CATALOG_ID_PATTERN s [] (fun _ caps => Some caps) = Some caps ->
  exists id post,
    caps = [id] /\ is_number id
    /\ s = ("/novel/" ++ id ++ "/catalog" ++ post)%string.
Proof.
  unfold CATALOG_ID_PATTERN. cbn [seqs rmatch]. intro H.
  destruct (strip_prefix "/novel/" s) as [r1|] eqn:E1; [|discriminate].
  apply strip_prefix_sound in E1. subst s.
  destruct r1 as [|a1 r1]; [discriminate|].
  destruct (is_digit a1) eqn:Ha1; [|discriminate].
  apply star_k_sound in H. destruct H as (pre1 & rest1 & -> & Hpre1 & H).
  destruct (strip_prefix "/catalog" rest1) as [post|] eqn:E2; [|discriminate].
  apply strip_prefix_sound in E2. subst rest1.
  change (String a1 (pre1 ++ "/catalog" ++ post))%string
    with (String a1 pre1 ++ "/catalog" ++ post)%string in H.
  rewrite consumed_app in H. inversion H; subst.
  exists (String a1 pre1), post. split; [reflexivity|]. split; [|reflexivity].
  split; [discriminate|]. simpl. now rewrite Ha1.
Qed.

Lemma catalog_id_match_complete (id post : string) :
  is_number id ->
  rmatch CATALOG_ID_PATTERN ("/novel/" ++ id ++ "/catalog" ++ post)
    [] (fun _ caps => Some caps)
  = Some [id].
Proof.
  intro N. apply is_number_inv in N. destruct N as (a1 & a' & -> & Ha1 & Ha').
  unfold CATALOG_ID_PATTERN. cbn [seqs].
  rewrite rmatch_Seq, rmatch_Lit_app, rmatch_Seq.
  apply rmatch_Group_Plus_longest; [exact Ha1|exact Ha'|reflexivity|].
  now rewrite rmatch_Lit_app.
Qed.

Lemma search_catalog_past_prefix (pre rest : string) :
  contains "/novel" pre = false ->
  search CATALOG_ID_PATTERN (pre ++ "/novel/" ++ rest)
  = search CATALOG_ID_PATTERN ("/novel/" ++ rest).
Proof.
  induction pre as [|a pre IH]; intro H; [reflexivity|].
  apply contains_cons in H. destruct H as [Hhere Hlater].
  change (String a pre ++ "/novel/" ++ rest)%string
    with (String a (pre ++ "/novel/" ++ rest)).
  rewrite search_skip; [now apply IH|].
  unfold CATALOG_ID_PATTERN. cbn [seqs]. rewrite rmatch_Seq.
  apply rmatch_Lit_fail. now apply novel_not_inside.
Qed.

(** Property X23.  When a non-empty, plain ASCII [catalog_url] is
    given, [parse_catalog] works with that address and with the book
    id read from it, whatever [book_id] was passed: the id is a
    non-empty run of the digits 0 to 9 that stands in the address
    between /novel/ and /catalog. *)
Theorem catalog_address_reads_the_url (base_url : string) (book_id : option string)
    (catalog_url id address : string) :
  catalog_url <> EmptyString ->
  plain_ascii catalog_url ->
  catalog_address base_url book_id (Some catalog_url) = Ok (id, address) ->
  address = catalog_url
  /\ is_number id
  /\ exists pre post,
       catalog_url = (pre ++ "/novel/" ++ id ++ "/catalog" ++ post)%string.
Proof.
  intros Hurl _ H. unfold catalog_address in H.
  assert (Htruthy : truthy (Some catalog_url) = Some catalog_url)
    by (destruct catalog_url; [congruence|reflexivity]).
  rewrite Htruthy in H.
  assert (Hsearch : match search CATALOG_ID_PATTERN catalog_url with
                    | Some [g1] => Ok (g1, catalog_url)
                    | _ => Raise ValueError
                    end = Ok (id, address))
    by (destruct (truthy book_id); exact H).
  clear H.
  destruct (search CATALOG_ID_PATTERN catalog_url) as [caps|] eqn:E; [|discriminate].
  apply search_sound in E. destruct E as (pre & s' & -> & Hm).
  apply catalog_id_match_sound in Hm. destruct Hm as (id' & post & -> & N & ->).
  inversion Hsearch; subst. split; [reflexivity|]. split; [exact N|].
  now exists pre, post.
Qed.

(** Property X24.  The address [parse_catalog] builds from a book id is
    read back to the same id: for an id that is a non-empty run of
    digits (and a base address in which /novel does not occur), the
    call with the id alone works with [base_url]/novel/id/catalog, and
    the call with that address, with or without an id, works with the
    same id and the same address. *)
Theorem catalog_address_round_trip (base_url id : string) :
  is_number id ->
  contains "/novel" base_url = false ->
  let address := (base_url ++ "/novel/" ++ id ++ "/catalog")%string in
  catalog_address base_url (Some id) None = Ok (id, address)
  /\ forall other : option string,
       catalog_address base_url other (Some address) = Ok (id, address).
Proof.
  intros N Hbase address. split.
  - unfold catalog_address. destruct N as [Hne _].
    destruct id; [congruence|reflexivity].
  - intro other. unfold catalog_address.
    assert (Htruthy : truthy (Some address) = Some address)
      by (unfold address; destruct base_url; reflexivity).
    rewrite Htruthy.
    assert (Hsearch : search CATALOG_ID_PATTERN address = Some [id]).
    { unfold address. rewrite search_catalog_past_prefix by exact Hbase.
      apply search_here.
      change ("/novel/" ++ id ++ "/catalog")%string
        with ("/novel/" ++ id ++ "/catalog" ++ EmptyString)%string.
      now apply catalog_id_match_complete. }
    rewrite Hsearch. now destruct (truthy other).
Qed.

Section CatalogParserFacts.

Variable urljoin : string -> string -> string.
Variable urljoin_raises : string -> string -> bool.
Variable env : Env.

Local Abbreviation kept := (is_kept urljoin_raises).

(** ** The download of the catalogue *)

(** Property X25.  Steps 1 and 2 of [parse_catalog], called with a
    [catalog_url] that is plain ASCII when there is one, end in one of
    three ways.  Unusable arguments raise a [ValueError] before
    anything is requested.  A page is returned only if [download]
    returned it and it has at least 100 characters.  Everything else,
    whatever [download] raises included, reaches the caller as a
    [ParseError], never as a [RequestException].  The downloader is
    left as the one [download] leaves. *)
Theorem parse_catalog_download_outcome (base_url : string)
    (book_id catalog_url : option string) (s : DState) :
  (forall address, catalog_url = Some address -> plain_ascii address) ->
  let run := parse_catalog_download urljoin env base_url book_id catalog_url in
  match catalog_address base_url book_id catalog_url with
  | Raise e => e = ValueError /\ run s = (Raise ValueError, s)
  | Ok (id, address) =>
      exec run s = exec (download urljoin env address 30) s
      /\ match outcome run s with
         | Ok (id', html_content) =>
             id' = id
             /\ outcome (download urljoin env address 30) s = Ok html_content
             /\ (100 <= py_len html_content)%nat
         | Raise e => e = ParseError
         end
  end.
Proof.
  intros _ run. unfold run, parse_catalog_download, exec, outcome.
  unfold bind, lift_result, try_except, raise, ret.
  destruct (catalog_address base_url book_id catalog_url) as [[id address]|e] eqn:Haddr.
  - destruct (download urljoin env address 30 s) as [[html_content|e] s1]; simpl;
      [|auto].
    destruct (String.eqb html_content EmptyString) eqn:Hempty; simpl; [auto|].
    destruct (Z.of_nat (py_len html_content) <? 100) eqn:Hlen; simpl; [auto|].
    apply Z.ltb_ge in Hlen.
    destruct (negb (startswith (strip html_content) "<!")); simpl;
      [destruct (contains "error" (lower html_content)
                 || contains "403" html_content || contains "404" html_content);
       simpl|];
      auto; repeat split; auto; lia.
  - assert (He : e = ValueError).
    { unfold catalog_address in Haddr.
      destruct (truthy book_id), (truthy catalog_url) as [u|];
        try destruct (search CATALOG_ID_PATTERN u) as [[|g1 [|g2 caps]]|]; congruence. }
    subst e. split; reflexivity.
Qed.

(** ** The volumes and the chapters of the catalogue *)

Lemma numbers_from_shift (first : Z) (a n : nat) :
  map (fun i => first + Z.of_nat i) (seq a n) = numbers_from (first + Z.of_nat a) n.
Proof.
  unfold numbers_from. revert a. induction n as [|n IH]; intro a; [reflexivity|].
  cbn [seq map]. f_equal; [lia|].
  rewrite IH, <- seq_shift, map_map. apply map_ext. intro i. lia.
Qed.

Lemma numbers_from_app (first : Z) (n m : nat) :
  numbers_from first (n + m)
  = numbers_from first n ++ numbers_from (first + Z.of_nat n) m.
Proof.
  unfold numbers_from at 1 2. rewrite seq_app, map_app. f_equal.
  apply numbers_from_shift.
Qed.

(** One turn of the inner loop. *)
Lemma chapters_of_links_cons (base_url : string) (n : Z) (l : ChapterLink)
    (links : list ChapterLink) :
  fst (chapters_of_links urljoin urljoin_raises base_url n (l :: links))
  = if kept base_url l
    then {| index := n;
            title := link_text l;
            url := if String.eqb (href_of l) PLACEHOLDER
                   then href_of l else urljoin base_url (href_of l);
            needs_resolve := String.eqb (href_of l) PLACEHOLDER;
            original_url := None |}
         :: fst (chapters_of_links urljoin urljoin_raises base_url (n + 1) links)
    else fst (chapters_of_links urljoin urljoin_raises base_url n links).
Proof.
  cbn [chapters_of_links]. unfold is_kept, PLACEHOLDER.
  destruct (String.eqb (href_of l) "javascript:cid(0)"); simpl;
    [reflexivity|].
  destruct (urljoin_raises base_url (href_of l)); reflexivity.
Qed.

Lemma chapters_of_links_length (base_url : string) (links : list ChapterLink) :
  forall n,
    List.length (fst (chapters_of_links urljoin urljoin_raises base_url n links))
    = List.length (filter (kept base_url) links).
Proof.
  induction links as [|l links IH]; intro n; [reflexivity|].
  rewrite chapters_of_links_cons. cbn [filter].
  destruct (kept base_url l); simpl; now rewrite IH.
Qed.

Lemma chapters_of_links_index (base_url : string) (links : list ChapterLink) :
  forall n,
    map index (fst (chapters_of_links urljoin urljoin_raises base_url n links))
    = numbers_from n (List.length (filter (kept base_url) links)).
Proof.
  induction links as [|l links IH]; intro n; [reflexivity|].
  rewrite chapters_of_links_cons. cbn [filter].
  destruct (kept base_url l); [|apply IH].
  change (List.length (l :: filter (kept base_url) links))
    with (1 + List.length (filter (kept base_url) links))%nat.
  rewrite numbers_from_app. cbn [map index].
  rewrite IH. unfold numbers_from at 2. simpl. f_equal. lia.
Qed.

Lemma chapters_of_links_title (base_url : string) (links : list ChapterLink) :
  forall n,
    map title (fst (chapters_of_links urljoin urljoin_raises base_url n links))
    = map link_text (filter (kept base_url) links).
Proof.
  induction links as [|l links IH]; intro n; [reflexivity|].
  rewrite chapters_of_links_cons. cbn [filter].
  destruct (kept base_url l); [|apply IH].
  cbn [map title]. now rewrite IH.
Qed.

(** One turn of the outer loop, for a volume element with a name. *)
Lemma volumes_of_divs_named (base_url : string) (n : Z) (d : VolumeDiv)
    (volume_divs : list VolumeDiv) (volume_name : string) :
  h2_text d = Some volume_name ->
  let found := fst (chapters_of_links urljoin urljoin_raises base_url n (chapter_links d)) in
  map parsed (fst (volumes_of_divs urljoin urljoin_raises base_url n (d :: volume_divs)))
  = match found with
    | [] => map parsed (fst (volumes_of_divs urljoin urljoin_raises base_url n volume_divs))
    | _ :: _ =>
        {| volume_name := volume_name; chapters := found |}
        :: map parsed
             (fst (volumes_of_divs urljoin urljoin_raises base_url
                     (n + Z.of_nat (List.length found)) volume_divs))
    end.
Proof.
  intros Hname found. cbn [volumes_of_divs]. rewrite Hname. fold found.
  destruct found; reflexivity.
Qed.

Lemma volumes_of_divs_unnamed (base_url : string) (n : Z) (d : VolumeDiv)
    (volume_divs : list VolumeDiv) :
  h2_text d = None ->
  map parsed (fst (volumes_of_divs urljoin urljoin_raises base_url n (d :: volume_divs)))
  = map parsed (fst (volumes_of_divs urljoin urljoin_raises base_url n volume_divs)).
Proof. intro Hname. cbn [volumes_of_divs]. now rewrite Hname. Qed.

Lemma filter_nil_length {A : Type} (f : A -> bool) (l : list A) :
  List.length (filter f l) = 0%nat -> filter f l = [].
Proof. destruct (filter f l); [reflexivity|discriminate]. Qed.

Lemma volumes_of_divs_index (base_url : string) (volume_divs : list VolumeDiv) :
  forall n,
    let all := flat_map chapters
                 (map parsed
                    (fst (volumes_of_divs urljoin urljoin_raises base_url n volume_divs))) in
    map index all = numbers_from n (List.length all)
    /\ map title all = map link_text (filter (kept base_url) (named_links volume_divs)).
Proof.
  unfold named_links.
  induction volume_divs as [|d volume_divs IH]; intro n; [split; reflexivity|].
  cbn [filter]. unfold has_name at 1.
  destruct (h2_text d) as [volume_name|] eqn:Hname; cbn [flat_map].
  - rewrite (volumes_of_divs_named base_url n d volume_divs volume_name Hname).
    pose proof (chapters_of_links_length base_url (chapter_links d) n) as Hlen.
    pose proof (chapters_of_links_index base_url (chapter_links d) n) as Hidx.
    pose proof (chapters_of_links_title base_url (chapter_links d) n) as Htitle.
    rewrite filter_app, map_app.
    destruct (fst (chapters_of_links urljoin urljoin_raises base_url n (chapter_links d)))
      as [|c cs] eqn:Hcs.
    + symmetry in Hlen. apply filter_nil_length in Hlen. rewrite Hlen.
      exact (IH n).
    + destruct (IH (n + Z.of_nat (List.length (c :: cs)))) as [IHidx IHtitle].
      cbn [flat_map chapters].
      rewrite !map_app, length_app, numbers_from_app, IHidx, IHtitle, <- Htitle.
      split; [|reflexivity]. f_equal. rewrite Hidx, <- Hlen. reflexivity.
  - rewrite (volumes_of_divs_unnamed base_url n d volume_divs Hname). exact (IH n).
Qed.

(** Property X26.  [_extract_volumes] numbers the chapters it keeps 1,
    2, 3, ... without a gap, in document order and through all the
    volumes.  The chapters kept are the links of the volume elements
    that have a name, those left out that [urljoin] refuses (a
    placeholder is never joined, and is always kept); the links of a
    volume element without a name and the links left out are not
    counted. *)
Theorem extract_volumes_numbers_chapters (base_url : string)
    (volume_divs : list VolumeDiv) :
  let all := flat_map chapters
               (map parsed
                  (fst (_extract_volumes urljoin urljoin_raises base_url volume_divs))) in
  map index all = numbers_from 1 (List.length all)
  /\ map title all = map link_text (filter (kept base_url) (named_links volume_divs)).
Proof.
  intro all. unfold all, _extract_volumes.
  destruct (volumes_of_divs_index base_url volume_divs 1) as [Hidx Htitle].
  split; [exact Hidx|exact Htitle].
Qed.

Lemma chapters_of_links_shape (base_url : string) (links : list ChapterLink) :
  forall n ch,
    In ch (fst (chapters_of_links urljoin urljoin_raises base_url n links)) ->
    original_url ch = None
    /\ (needs_resolve ch = true -> url ch = PLACEHOLDER)
    /\ (needs_resolve ch = false ->
        exists href,
          href <> PLACEHOLDER /\ urljoin_raises base_url href = false
          /\ url ch = urljoin base_url href).
Proof.
  induction links as [|l links IH]; intros n ch Hin; [destruct Hin|].
  rewrite chapters_of_links_cons in Hin. unfold is_kept in Hin.
  destruct (String.eqb_spec (href_of l) PLACEHOLDER) as [Heq|Hne]; cbn [orb] in Hin.
  - destruct Hin as [<-|Hin]; [|exact (IH _ _ Hin)].
    cbn [original_url needs_resolve url]. split; [reflexivity|].
    split; [intros _; exact Heq|discriminate].
  - destruct (urljoin_raises base_url (href_of l)) eqn:Hraises; cbn [negb] in Hin;
      [exact (IH _ _ Hin)|].
    destruct Hin as [<-|Hin]; [|exact (IH _ _ Hin)].
    cbn [original_url needs_resolve url]. split; [reflexivity|].
    split; [discriminate|]. intros _. exists (href_of l). auto.
Qed.

Lemma name_lines_app (l1 l2 : list catalog_diag) :
  List.length (filter is_name_line (l1 ++ l2))
  = (List.length (filter is_name_line l1) + List.length (filter is_name_line l2))%nat.
Proof. now rewrite filter_app, length_app. Qed.

Lemma chapters_of_links_lines (base_url : string) (links : list ChapterLink) :
  forall n,
    filter is_name_line (snd (chapters_of_links urljoin urljoin_raises base_url n links)) = [].
Proof.
  induction links as [|l links IH]; intro n; [reflexivity|].
  cbn [chapters_of_links].
  destruct (negb (String.eqb (href_of l) "javascript:cid(0)")
            && urljoin_raises base_url (href_of l)); cbn [snd filter is_name_line];
    apply IH.
Qed.

(** Property X27.  The catalogue [_extract_volumes] returns holds, in
    document order and under their names, the volume elements that
    have a name and at least one link that is kept; no volume of it is
    empty.  A chapter of it needs resolving only if its address is the
    placeholder javascript:cid(0); the address of any other chapter is
    a link that [urljoin] accepts, joined to the base address; no
    chapter has an [original_url] yet.  One line is printed per volume
    element without a name. *)
Theorem extract_volumes_shape (base_url : string) (volume_divs : list VolumeDiv) :
  let volumes :=
    map parsed (fst (_extract_volumes urljoin urljoin_raises base_url volume_divs)) in
  map volume_name volumes
  = flat_map (fun d => match h2_text d, filter (kept base_url) (chapter_links d) with
                       | Some volume_name, _ :: _ => [volume_name]
                       | _, _ => []
                       end) volume_divs
  /\ List.length
       (filter is_name_line
          (snd (_extract_volumes urljoin urljoin_raises base_url volume_divs)))
     = List.length (filter (fun d => negb (has_name d)) volume_divs)
  /\ forall vol,
       In vol volumes ->
       chapters vol <> []
       /\ forall ch,
            In ch (chapters vol) ->
            original_url ch = None
            /\ (needs_resolve ch = true -> url ch = PLACEHOLDER)
            /\ (needs_resolve ch = false ->
                exists href,
                  href <> PLACEHOLDER /\ urljoin_raises base_url href = false
                  /\ url ch = urljoin base_url href).
Proof.
  unfold _extract_volumes. generalize 1.
  induction volume_divs as [|d volume_divs IH]; intro n.
  - repeat split; try reflexivity; destruct H.
  - cbn [filter flat_map]. unfold has_name at 1.
    destruct (h2_text d) as [name'|] eqn:Hname; cbn [negb].
    + rewrite (volumes_of_divs_named base_url n d volume_divs name' Hname).
      pose proof (chapters_of_links_length base_url (chapter_links d) n) as Hlen.
      pose proof (chapters_of_links_shape base_url (chapter_links d) n) as Hshape.
      assert (Hlines :
        List.length
          (filter is_name_line
             (snd (volumes_of_divs urljoin urljoin_raises base_url n (d :: volume_divs))))
        = List.length
            (filter is_name_line
               (snd (volumes_of_divs urljoin urljoin_raises base_url
                       (match fst (chapters_of_links urljoin urljoin_raises base_url n
                                     (chapter_links d)) with
                        | [] => n
                        | _ :: _ =>
                            n + Z.of_nat
                                  (List.length
                                     (fst (chapters_of_links urljoin urljoin_raises
                                             base_url n (chapter_links d))))
                        end) volume_divs)))).
      { cbn [volumes_of_divs]. rewrite Hname.
        assert (Hfront : forall o : option string * list catalog_diag,
                  o = (None, [FrontPageFailed]) \/ (exists x, o = (x, [])) ->
                  filter is_name_line (snd o) = [])
          by (intros o [->|[x ->]]; reflexivity).
        destruct (fst (chapters_of_links urljoin urljoin_raises base_url n
                         (chapter_links d))) as [|c cs];
          cbn [snd]; rewrite !name_lines_app, chapters_of_links_lines;
          rewrite Hfront; try reflexivity;
          destruct (truthy (cover_href d)) as [href|];
          try destruct (urljoin_raises base_url href); eauto. }
      rewrite Hlines. clear Hlines.
      destruct (fst (chapters_of_links urljoin urljoin_raises base_url n (chapter_links d)))
        as [|c cs] eqn:Hcs.
      * symmetry in Hlen. apply filter_nil_length in Hlen. rewrite Hlen. exact (IH n).
      * destruct (filter (kept base_url) (chapter_links d)) as [|l links];
          [discriminate Hlen|].
        destruct (IH (n + Z.of_nat (List.length (c :: cs))))
          as (IHnames & IHprinted & IHshape).
        cbn [map volume_name app] in *.
        split; [now rewrite IHnames|]. split; [exact IHprinted|].
        intros vol [<-|Hin]; [|exact (IHshape _ Hin)].
        cbn [chapters]. split; [discriminate|exact Hshape].
    + rewrite (volumes_of_divs_unnamed base_url n d volume_divs Hname).
      destruct (IH n) as (IHnames & IHprinted & IHshape).
      split; [exact IHnames|]. split; [|exact IHshape].
      cbn [volumes_of_divs]. rewrite Hname. cbn [snd filter is_name_line List.length].
      now rewrite IHprinted.
Qed.

(** ** The requests of a catalogue *)

Lemma parse_catalog_download_sends (base_url : string)
    (book_id catalog_url : option string) (s : DState) :
  let s' := exec (parse_catalog_download urljoin env base_url book_id catalog_url) s in
  (sent (world s') <= sent (world s) + 2 * Z.to_nat (retry_times (self s)))%nat
  /\ retry_times (self s') = retry_times (self s).
Proof.
  unfold parse_catalog_download, exec.
  unfold bind, lift_result, try_except, raise, ret.
  destruct (catalog_address base_url book_id catalog_url) as [[id address]|e];
    [|simpl; split; [lia|reflexivity]].
  pose proof (download_run_sends urljoin env address 30 s) as Hrun.
  unfold exec in Hrun.
  destruct (download urljoin env address 30 s) as [[html_content|e] s1]; simpl in *;
    [|exact Hrun].
  destruct (String.eqb html_content EmptyString
            || (Z.of_nat (py_len html_content) <? 100)); simpl; [exact Hrun|].
  destruct (negb (startswith (strip html_content) "<!")); simpl;
    [destruct (contains "error" (lower html_content)
               || contains "403" html_content || contains "404" html_content);
     simpl|];
    exact Hrun.
Qed.

Lemma placeholders_of_links (base_url : string) (links : list ChapterLink) :
  forall n,
    List.length
      (filter needs_resolve
         (fst (chapters_of_links urljoin urljoin_raises base_url n links)))
    = List.length (filter is_placeholder links).
Proof.
  induction links as [|l links IH]; intro n; [reflexivity|].
  rewrite chapters_of_links_cons. cbn [filter]. unfold is_kept.
  assert (Hflag : is_placeholder l = String.eqb (href_of l) PLACEHOLDER)
    by (unfold is_placeholder, href_of; destruct (link_href l); reflexivity).
  rewrite Hflag.
  destruct (String.eqb (href_of l) PLACEHOLDER); cbn [orb].
  - cbn [filter needs_resolve List.length]. now rewrite IH.
  - destruct (urljoin_raises base_url (href_of l)); cbn [negb];
      [apply IH|]. cbn [filter needs_resolve]. apply IH.
Qed.

Lemma placeholders_of_divs (base_url : string) (volume_divs : list VolumeDiv) :
  forall n,
    placeholders
      (map parsed (fst (volumes_of_divs urljoin urljoin_raises base_url n volume_divs)))
    = List.length (filter is_placeholder (named_links volume_divs)).
Proof.
  unfold placeholders, named_links.
  induction volume_divs as [|d volume_divs IH]; intro n; [reflexivity|].
  cbn [filter]. unfold has_name at 1.
  destruct (h2_text d) as [name'|] eqn:Hname; cbn [flat_map].
  - rewrite (volumes_of_divs_named base_url n d volume_divs name' Hname).
    pose proof (placeholders_of_links base_url (chapter_links d) n) as Hflag.
    rewrite filter_app, length_app, <- Hflag.
    destruct (fst (chapters_of_links urljoin urljoin_raises base_url n (chapter_links d)))
      as [|c cs] eqn:Hcs.
    + exact (IH n).
    + cbn [flat_map chapters]. now rewrite filter_app, length_app, IH.
  - rewrite (volumes_of_divs_unnamed base_url n d volume_divs Hname). exact (IH n).
Qed.

(** Property X28.  The requests of a [parse_catalog]: with the
    downloader [CatalogParser.__init__] builds (three attempts), the
    download of the catalogue sends at most 6 GETs, and the pass of
    [resolve_all_special_chapters] over the catalogue
    [_extract_volumes] returns sends at most 120 more for each link of
    a named volume that points to the placeholder, and none if there
    is no such link. *)
Theorem parse_catalog_sends (script_texts : string -> list string)
    (base_url user_agent : string) (book_id catalog_url : option string) (w : World)
    (id html_content : string) (s1 : DState) (volume_divs : list VolumeDiv)
    (book_name : string) (out : list diag) (reqs : list string) :
  parse_catalog_download urljoin env base_url book_id catalog_url
    {| self := CatalogParser_downloader base_url user_agent; world := w |}
  = (Ok (id, html_content), s1) ->
  let st := {| book := {| name := book_name;
                          book_id := id;
                          volumes := map parsed
                                       (fst (_extract_volumes urljoin urljoin_raises
                                               base_url volume_divs)) |};
               downloader := s1;
               stdout := out;
               requested := reqs |} in
  let pass := resolve_all_special_chapters urljoin script_texts
                (fun u => download urljoin env u 30) base_url in
  (sent (world s1) <= sent w + 6)%nat
  /\ (sent (world (downloader (exec pass st)))
      <= sent (world s1)
         + 120 * List.length (filter is_placeholder (named_links volume_divs)))%nat.
Proof.
  intros Hrun st pass.
  destruct (parse_catalog_download_sends base_url book_id catalog_url
              {| self := CatalogParser_downloader base_url user_agent; world := w |})
    as [Hsent Hk].
  unfold exec in Hsent, Hk. rewrite Hrun in Hsent, Hk. simpl in Hsent, Hk.
  split; [exact Hsent|].
  unfold pass, exec. rewrite resolve_all_special_chapters_flat.
  destruct (pass_served urljoin script_texts DState
              (fun u => download urljoin env u 30) base_url
              (targets (volumes (book st))) st) as (new & _ & Hlen & Hd).
  rewrite to_resolve_targets in Hlen.
  change (Z.to_nat DEFAULT_MAX_HOPS) with 20%nat in Hlen.
  unfold exec in Hd. rewrite Hd.
  destruct (served_sends urljoin env 30 new (downloader st)) as [Hgets _].
  unfold st in Hlen, Hgets. cbn [book volumes downloader] in Hlen, Hgets.
  unfold _extract_volumes in Hlen. rewrite placeholders_of_divs in Hlen.
  rewrite Hk in Hgets. change (Z.to_nat 3) with 3%nat in Hgets.
  unfold st. cbn [downloader]. lia.
Qed.

End CatalogParserFacts.

(** ** The catalogue parser, at concrete surroundings *)

Lemma catalog_address_reads_the_url_witness :
  "https://www.linovelib.com/novel/4519/catalog" = "https://www.linovelib.com/novel/4519/catalog"
  /\ is_number "4519"
  /\ exists pre post,
       "https://www.linovelib.com/novel/4519/catalog"
       = (pre ++ "/novel/" ++ "4519" ++ "/catalog" ++ post)%string.
Proof.
  apply (catalog_address_reads_the_url SITE (Some "262081")
           "https://www.linovelib.com/novel/4519/catalog" "4519"
           "https://www.linovelib.com/novel/4519/catalog").
  - discriminate.
  - reflexivity.
  - reflexivity.
Defined.

Lemma catalog_address_round_trip_witness :
  let address := (SITE ++ "/novel/" ++ "4519" ++ "/catalog")%string in
  catalog_address SITE (Some "4519") None = Ok ("4519", address)
  /\ forall other : option string,
       catalog_address SITE other (Some address) = Ok ("4519", address).
Proof.
  apply (catalog_address_round_trip SITE "4519").
  - split; [discriminate|reflexivity].
  - reflexivity.
Defined.

Lemma parse_catalog_download_outcome_witness :
  let s := {| self := CatalogParser_downloader SITE "Mozilla/5.0";
              world := {| clock := 100; blocked := 0; draws := 0; sent := 0;
                          trace := [] |} |} in
  let address := "https://www.linovelib.com/novel/4519/catalog" in
  let run := parse_catalog_download urljoin_root catalog_env SITE (Some "1") (Some address) in
  plain_ascii address
  /\ exec run s = exec (download urljoin_root catalog_env address 30) s
  /\ match outcome run s with
     | Ok (id', html_content) =>
         id' = "4519"
         /\ outcome (download urljoin_root catalog_env address 30) s = Ok html_content
         /\ (100 <= py_len html_content)%nat
     | Raise e => e = ParseError
     end.
Proof.
  intros s address run.
  assert (Hascii : forall a, Some address = Some a -> plain_ascii a)
    by (intros a Ha; inversion Ha; reflexivity).
  split; [reflexivity|].
  exact (parse_catalog_download_outcome urljoin_root catalog_env SITE (Some "1")
           (Some address) s Hascii).
Defined.

Example extract_volumes_of_catalog_divs :
  let '(volumes, printed) :=
    _extract_volumes urljoin_root unpaired_bracket SITE catalog_divs in
  map (fun v => volume_name (parsed v)) volumes = ["Volume 1"; "Volume 3"]
  /\ map front_page volumes = [Some (SITE ++ "/novel/4519/vol_1.html")%string; None]
  /\ map cover_image volumes = [Some "/cover_1.jpg"; Some "/cover_3.jpg"]
  /\ map index (flat_map chapters (map parsed volumes)) = [1; 2; 3]
  /\ map needs_resolve (flat_map chapters (map parsed volumes)) = [false; true; false]
  /\ map title (flat_map chapters (map parsed volumes))
     = ["Chapter 1"; "Chapter 2"; "Chapter 3"]
  /\ printed = [ChapterUrlFailed "//[/novel/4519/0.html"; VolumeNameNotFound].
Proof. vm_compute. repeat split. Qed.

Lemma parse_catalog_sends_witness :
  let w := {| clock := 100; blocked := 0; draws := 0; sent := 0; trace := [] |} in
  let s0 := {| self := CatalogParser_downloader SITE "Mozilla/5.0"; world := w |} in
  let s1 := exec (parse_catalog_download urljoin_root catalog_env SITE (Some "4519") None) s0 in
  let st := {| book := {| name := "book";
                          book_id := "4519";
                          volumes := map parsed
                                       (fst (_extract_volumes urljoin_root unpaired_bracket
                                               SITE catalog_divs)) |};
               downloader := s1;
               stdout := [];
               requested := [] |} in
  let pass := resolve_all_special_chapters urljoin_root one_script
                (fun u => download urljoin_root catalog_env u 30) SITE in
  (sent (world s1) <= sent w + 6)%nat
  /\ (sent (world (downloader (exec pass st)))
      <= sent (world s1)
         + 120 * List.length (filter is_placeholder (named_links catalog_divs)))%nat.
Proof.
  intros w s0 s1.
  apply (parse_catalog_sends urljoin_root unpaired_bracket catalog_env one_script SITE
           "Mozilla/5.0"
           (Some "4519") None w "4519" catalog_page s1 catalog_divs "book" [] []).
  vm_compute. reflexivity.
Defined.

